(** * Gene-weight: WLS illumination refinement and log-gradient edge weights

    A shallow embedding of [src/main.py] (LIME-style illumination map
    refinement) and [src/WLSLoss/wlsloss.py] (log-gradient edge weights).

    Conventions.
    - Python integers are [Z]; [//] and [%] are [Z.div] and [Z.modulo]
      (both floor towards minus infinity, as in Python).
    - Floats are idealised as real numbers [R]: rounding and underflow are
      not modelled, and overflow only in [torch.pow] (float32).  Where IEEE
      arithmetic would produce an infinity or a NaN, the numpy pipeline of
      [main.py] stops with the pseudo-exception [NotFinite] (a singular
      system, whose solution scipy fills with NaN, is one such place); the
      torch code of [wlsloss.py] carries the special values explicitly
      ([fval]).
    - A Python [dict] is an association list in insertion order (the order
      in which [.items()] iterates).
    - numpy arrays, Python lists and sparse matrices handled by
      [refine_illumination_map_linear] live in a heap of objects addressed
      by references; locals that never escape their function are threaded
      as values.
    - [cv2.Sobel], [scipy.ndimage.convolve], [scipy.sparse] and [spsolve]
      are third-party; they are modelled from their documented behaviour. *)

From Stdlib Require Import ZArith List Lia Bool FinFun.
From Stdlib Require Import Reals Lra.
From Stdlib Require Import ClassicalEpsilon.
Import ListNotations.

Set Implicit Arguments.

(* ================================================================= *)
(** * Part I: the model *)
(* ================================================================= *)

(** ** Outcomes of a call *)

Inductive exn : Type :=
| ZeroDivisionError
| ValueError
| TypeError
| IndexError
| Cv2Error
| RuntimeError
| NotFinite.  (* not a Python exception: a float result left the reals *)

Inductive outcome (A : Type) : Type :=
| Returned (a : A)
| Raised (e : exn).
Arguments Raised {A} e.

Definition obind {A B : Type} (o : outcome A) (f : A -> outcome B) : outcome B :=
  match o with
  | Returned a => f a
  | Raised e => Raised e
  end.

(** [for x in l: acc = body(acc, x)], stopping at the first exception. *)
Fixpoint ofold {A S : Type} (body : S -> A -> outcome S) (l : list A) (acc : S)
  : outcome S :=
  match l with
  | [] => Returned acc
  | x :: l' => obind (body acc x) (ofold body l')
  end.

(** [range(N)] *)
Definition range (N : Z) : list Z := map Z.of_nat (seq 0 (Z.to_nat N)).

(** ** [get_sparse_neighbor] *)

(** A dictionary entry [q : (k, l, x)]. *)
Abbreviation entry := (Z * (Z * Z * Z))%type.
Abbreviation dict := (list entry).

(** [d[k] = v]: overwrite in place when [k] is present, append otherwise. *)
Fixpoint dict_set (d : dict) (k : Z) (v : Z * Z * Z) : dict :=
  match d with
  | [] => [(k, v)]
  | (k', v') :: d' =>
      if (k' =? k)%Z then (k, v) :: d' else (k', v') :: dict_set d' k v
  end.

Definition keys (d : dict) : list Z := map fst d.

Section GetSparseNeighbor.
Local Open Scope Z_scope.

(** The body of [get_sparse_neighbor] once [p // m] is defined. *)
Definition neighbor_dict (p n m : Z) : dict :=
  let i := p / m in
  let j := p mod m in
  let d := [] in
  let d := if i - 1 >=? 0 then dict_set d ((i - 1) * m + j) (i - 1, j, 0) else d in
  let d := if i + 1 <? n then dict_set d ((i + 1) * m + j) (i + 1, j, 0) else d in
  let d := if j - 1 >=? 0 then dict_set d (i * m + j - 1) (i, j - 1, 1) else d in
  let d := if j + 1 <? m then dict_set d (i * m + j + 1) (i, j + 1, 1) else d in
  d.

(** [p // m] raises [ZeroDivisionError] when [m = 0]. *)
Definition get_sparse_neighbor (p n m : Z) : outcome dict :=
  if m =? 0 then Raised ZeroDivisionError else Returned (neighbor_dict p n m).

End GetSparseNeighbor.

(** ** numpy arrays as values *)

Definition grid : Type := list (list R).

Definition Rsum (l : list R) : R := fold_right Rplus 0%R l.

Definition shape (g : grid) : Z * Z :=
  (Z.of_nat (length g), Z.of_nat (length (hd [] g))).

Definition tabulate (n m : Z) (f : Z -> Z -> R) : grid :=
  map (fun i => map (fun j => f i j) (range m)) (range n).

(** Read with zero outside the array (the padding of [mode='constant']). *)
Definition item0 (g : grid) (i j : Z) : R :=
  if ((0 <=? i) && (0 <=? j))%Z
  then nth (Z.to_nat j) (nth (Z.to_nat i) g []) 0%R
  else 0%R.

(** [g[k, l]]: negative indices count from the end, others raise. *)
Definition getitem (g : grid) (k l : Z) : outcome R :=
  let (n, m) := shape g in
  if ((- n <=? k) && (k <? n) && (- m <=? l) && (l <? m))%Z
  then Returned (item0 g (if k <? 0 then k + n else k)%Z (if l <? 0 then l + m else l)%Z)
  else Raised IndexError.

Fixpoint list_set {A : Type} (l : list A) (k : nat) (v : A) : list A :=
  match l, k with
  | [], _ => []
  | _ :: l', O => v :: l'
  | x :: l', S k' => x :: list_set l' k' v
  end.

(** [g[i, j] = v] for indices in range (the only use in the source). *)
Definition setitem (g : grid) (i j : Z) (v : R) : outcome grid :=
  let (n, m) := shape g in
  if ((0 <=? i) && (i <? n) && (0 <=? j) && (j <? m))%Z
  then Returned (list_set g (Z.to_nat i) (list_set (nth (Z.to_nat i) g []) (Z.to_nat j) v))
  else Raised IndexError.

Definition grid_map (f : R -> R) (g : grid) : grid := map (map f) g.

Fixpoint zip_with {A B C : Type} (f : A -> B -> C) (a : list A) (b : list B) : list C :=
  match a, b with
  | x :: a', y :: b' => f x y :: zip_with f a' b'
  | _, _ => []
  end.

(** Elementwise division of two arrays of the same shape; a zero divisor
    yields inf or nan. *)
Definition grid_div (a b : grid) : outcome grid :=
  if forallb (forallb (fun y => if Req_EM_T y 0 then false else true)) b
  then Returned (zip_with (zip_with Rdiv) a b)
  else Raised NotFinite.

(** ** [create_spacial_affinity_kernel] *)

(** [scipy.spatial.distance.euclidean] on integer pairs. *)
Definition euclidean (u v : Z * Z) : R :=
  sqrt ((IZR (fst u) - IZR (fst v)) ^ 2 + (IZR (snd u) - IZR (snd v)) ^ 2).

Definition create_spacial_affinity_kernel (spatial_sigma : R) (size : Z)
  : outcome grid :=
  if (size <? 0)%Z then Raised ValueError   (* np.zeros: negative dimensions *)
  else
    let kernel := tabulate size size (fun _ _ => 0%R) in
    ofold (fun kernel i =>
      ofold (fun kernel j =>
        if Req_EM_T (spatial_sigma ^ 2) 0 then Raised NotFinite
        else setitem kernel i j
               (exp (- (1 / 2) * (euclidean (i, j) (size / 2, size / 2)%Z ^ 2)
                     / (spatial_sigma ^ 2))))
        (range size) kernel)
      (range size) kernel.

Definition default_size : Z := 15.

(** ** Third-party array operations used by [compute_smoothness_weights] *)

(** [cv::borderInterpolate] with [BORDER_REFLECT_101] (OpenCV's default
    border), for the positions a 3-tap filter can ask for. *)
Definition reflect101 (len k : Z) : Z :=
  if (len =? 1)%Z then 0%Z
  else if (k <? 0)%Z then (- k)%Z
  else if (len <=? k)%Z then (2 * len - 2 - k)%Z
  else k.

(** [cv2.Sobel(src, cv2.CV_64F, dx, dy, ksize=1)]: with [ksize=1] the
    derivative filter is the 3-tap correlation [-1 0 1] along one axis and
    no smoothing along the other.  The caller can only request the orders
    [(1, 0)], [(0, 1)] and [(0, 0)]; OpenCV rejects [(0, 0)] and an empty
    source. *)
Definition Sobel (src : grid) (dx dy : Z) : outcome grid :=
  let (n, m) := shape src in
  if ((n =? 0) || (m =? 0))%Z then Raised Cv2Error
  else if ((dx =? 1) && (dy =? 0))%Z then
    Returned (tabulate n m (fun i j =>
      (item0 src i (reflect101 m (j + 1)) - item0 src i (reflect101 m (j - 1)))%R))
  else if ((dx =? 0) && (dy =? 1))%Z then
    Returned (tabulate n m (fun i j =>
      (item0 src (reflect101 n (i + 1)) j - item0 src (reflect101 n (i - 1)) j)%R))
  else Raised Cv2Error.

(** [scipy.ndimage.convolve(input, weights, mode='constant')] ([cval=0],
    [origin=0]): [out[i,j] = sum_{a,b} weights[a,b] * input[i + kh//2 - a,
    j + kw//2 - b]] with zero outside the input. *)
Definition convolve (input weights : grid) : outcome grid :=
  let (n, m) := shape input in
  let (kh, kw) := shape weights in
  if ((kh =? 0) || (kw =? 0))%Z then Raised RuntimeError
  else
    Returned (tabulate n m (fun i j =>
      Rsum (map (fun a =>
        Rsum (map (fun b =>
          (item0 weights a b * item0 input (i + kh / 2 - a) (j + kw / 2 - b))%R)
          (range kw)))
        (range kh)))).

Definition ones_like (g : grid) : grid :=
  let (n, m) := shape g in tabulate n m (fun _ _ => 1%R).

(** ** Sparse matrices *)

(** A matrix in coordinate form; entries at the same coordinate add up. *)
Record csr : Type := { nrow : Z; ncol : Z; triples : list (Z * Z * R) }.

Definition csr_get (A : csr) (p q : Z) : R :=
  Rsum (map snd
         (filter (fun t => ((fst (fst t) =? p) && (snd (fst t) =? q))%Z) (triples A))).

Definition in_range (N : Z) (k : Z) : bool := ((0 <=? k) && (k <? N))%Z.

(** [csr_matrix((data, (row, column)), shape=(N, N))] *)
Definition csr_matrix (data : list R) (row column : list Z) (N : Z) : outcome csr :=
  if (length row =? length data)%nat && (length column =? length data)%nat
     && forallb (in_range N) row && forallb (in_range N) column
  then Returned {| nrow := N; ncol := N; triples := combine (combine row column) data |}
  else Raised ValueError.

(** [diags([v], [0])] *)
Definition diags (v : list R) : csr :=
  {| nrow := Z.of_nat (length v); ncol := Z.of_nat (length v);
     triples := combine (combine (range (Z.of_nat (length v))) (range (Z.of_nat (length v)))) v |}.

Definition csr_scale (c : R) (A : csr) : csr :=
  {| nrow := nrow A; ncol := ncol A;
     triples := map (fun t => (fst t, (c * snd t)%R)) (triples A) |}.

Definition csr_add (A B : csr) : outcome csr :=
  if ((nrow A =? nrow B) && (ncol A =? ncol B))%Z
  then Returned {| nrow := nrow A; ncol := ncol A; triples := triples A ++ triples B |}
  else Raised ValueError.

Definition matvec (A : csr) (x : list R) : list R :=
  map (fun p =>
         Rsum (map (fun q => (csr_get A p q * nth (Z.to_nat q) x 0)%R) (range (ncol A))))
      (range (nrow A)).

(** [x] has the length of [b] and [A x = b]. *)
Definition solves (A : csr) (b x : list R) : Prop :=
  length x = length b /\ matvec A x = b.

(** [spsolve(A, b)]: the solution of [A x = b] when the system has exactly
    one; on a singular matrix the direct solver returns NaNs. *)
Definition spsolve (A : csr) (b : list R) : outcome (list R) :=
  if negb ((nrow A =? ncol A) && (Z.of_nat (length b) =? nrow A))%Z
  then Raised ValueError
  else
    match excluded_middle_informative (exists! x, solves A b x) with
    | left H => Returned (proj1_sig (constructive_definite_description _ H))
    | right _ => Raised NotFinite
    end.

(** [v.reshape((n, m))] *)
Definition reshape (v : list R) (n m : Z) : outcome grid :=
  if (Z.of_nat (length v) =? n * m)%Z && (0 <=? n)%Z && (0 <=? m)%Z
  then Returned (tabulate n m (fun i j => nth (Z.to_nat (i * m + j)) v 0%R))
  else Raised ValueError.

(** [np.clip(x, lo, hi) = minimum(hi, maximum(x, lo))] *)
Definition clip (x lo hi : R) : R := Rmin hi (Rmax x lo).

(** ** IEEE special values *)

Inductive fval : Type :=
| Finite (r : R)
| PosInf
| NegInf
| NaN.

Definition as_integer (y : R) : option Z :=
  match excluded_middle_informative (exists k : Z, y = IZR k) with
  | left H => Some (proj1_sig (constructive_indefinite_description _ H))
  | right _ => None
  end.

(** [x ** y] on finite floats, before the float range is applied. *)
Definition float_pow (x y : R) : fval :=
  if Rlt_dec 0 x then Finite (Rpower x y)
  else if Req_EM_T x 0 then
    (if Rlt_dec 0 y then Finite 0
     else if Req_EM_T y 0 then Finite 1 else PosInf)
  else
    match as_integer y with
    | Some k => Finite ((if Z.even k then 1 else -1) * Rpower (- x) y)
    | None => NaN
    end.

Definition finite (v : fval) : outcome R :=
  match v with
  | Finite r => Returned r
  | _ => Raised NotFinite
  end.

Fixpoint omap {A B : Type} (f : A -> outcome B) (l : list A) : outcome (list B) :=
  match l with
  | [] => Returned []
  | x :: l' => obind (f x) (fun y => obind (omap f l') (fun t => Returned (y :: t)))
  end.

(** [g ** gamma] for an array. *)
Definition power (g : grid) (gamma : R) : outcome grid :=
  omap (omap (fun x => finite (float_pow x gamma))) g.

(** ** The heap *)

Definition ref : Type := nat.

Inductive obj : Type :=
| Ndarray (g : grid)         (* 2-D float array *)
| Ndarray1 (v : list R)      (* 1-D float array *)
| IntList (l : list Z)       (* Python list of ints *)
| FloatList (l : list R)     (* Python list of floats *)
| Sparse (A : csr).          (* scipy sparse matrix *)

(** [log] records the reference of every object updated in place. *)
Record state : Type := { heap : list obj; log : list ref }.

Definition M (A : Type) : Type := state -> outcome (A * state).

Definition ret {A : Type} (a : A) : M A := fun s => Returned (a, s).

Definition bind {A B : Type} (c : M A) (f : A -> M B) : M B :=
  fun s => match c s with
           | Returned (a, s') => f a s'
           | Raised e => Raised e
           end.

Declare Scope heap_scope.
Delimit Scope heap_scope with heap.
Notation "x <- c ;; k" := (bind c (fun x => k))
  (at level 61, c at next level, right associativity) : heap_scope.
Notation "c ;; k" := (bind c (fun _ => k))
  (at level 61, right associativity) : heap_scope.

Section HeapOperations.
Local Open Scope heap_scope.

Definition lift {A : Type} (o : outcome A) : M A :=
  fun s => match o with
           | Returned a => Returned (a, s)
           | Raised e => Raised e
           end.

(** Every constructor call and every array-valued expression makes a new
    object. *)
Definition alloc (o : obj) : M ref :=
  fun s => Returned (length (heap s), {| heap := heap s ++ [o]; log := log s |}).

Definition load (r : ref) : M obj :=
  fun s => match nth_error (heap s) r with
           | Some o => Returned (o, s)
           | None => Raised RuntimeError
           end.

Definition load_ndarray (r : ref) : M grid :=
  o <- load r ;;
  match o with Ndarray g => ret g | _ => lift (Raised TypeError) end.

Definition load_ndarray1 (r : ref) : M (list R) :=
  o <- load r ;;
  match o with Ndarray1 v => ret v | _ => lift (Raised TypeError) end.

Definition load_ints (r : ref) : M (list Z) :=
  o <- load r ;;
  match o with IntList l => ret l | _ => lift (Raised TypeError) end.

Definition load_floats (r : ref) : M (list R) :=
  o <- load r ;;
  match o with FloatList l => ret l | _ => lift (Raised TypeError) end.

Definition load_sparse (r : ref) : M csr :=
  o <- load r ;;
  match o with Sparse A => ret A | _ => lift (Raised TypeError) end.

(** [l.append(z)]: the list object is updated in place. *)
Definition append_int (r : ref) (z : Z) : M unit :=
  fun s => match nth_error (heap s) r with
           | Some (IntList l) =>
               Returned (tt, {| heap := list_set (heap s) r (IntList (l ++ [z]));
                                log := log s ++ [r] |})
           | Some _ => Raised TypeError
           | None => Raised RuntimeError
           end.

Definition append_float (r : ref) (x : R) : M unit :=
  fun s => match nth_error (heap s) r with
           | Some (FloatList l) =>
               Returned (tt, {| heap := list_set (heap s) r (FloatList (l ++ [x]));
                                log := log s ++ [r] |})
           | Some _ => Raised TypeError
           | None => Raised RuntimeError
           end.

(** [for x in l: body(x)] *)
Fixpoint for_each {A : Type} (l : list A) (body : A -> M unit) : M unit :=
  match l with
  | [] => ret tt
  | x :: l' => body x ;; for_each l' body
  end.

(** [for x in l: acc = body(acc, x)] for a local immutable [acc]. *)
Fixpoint for_fold {A S : Type} (l : list A) (body : S -> A -> M S) (acc : S) : M S :=
  match l with
  | [] => ret acc
  | x :: l' => acc' <- body acc x ;; for_fold l' body acc'
  end.

(** *** Library calls: read the arguments, allocate the result *)

Definition cv2_Sobel (src : ref) (dx dy : Z) : M ref :=
  g <- load_ndarray src ;;
  r <- lift (Sobel g dx dy) ;;
  alloc (Ndarray r).

Definition np_ones_like (a : ref) : M ref :=
  g <- load_ndarray a ;;
  alloc (Ndarray (ones_like g)).

Definition ndimage_convolve (input weights : ref) : M ref :=
  g <- load_ndarray input ;;
  w <- load_ndarray weights ;;
  r <- lift (convolve g w) ;;
  alloc (Ndarray r).

Definition np_abs (a : ref) : M ref :=
  g <- load_ndarray a ;;
  alloc (Ndarray (grid_map Rabs g)).

Definition np_add_scalar (a : ref) (c : R) : M ref :=
  g <- load_ndarray a ;;
  alloc (Ndarray (grid_map (fun x => (x + c)%R) g)).

Definition np_divide (a b : ref) : M ref :=
  g <- load_ndarray a ;;
  h <- load_ndarray b ;;
  r <- lift (grid_div g h) ;;
  alloc (Ndarray r).

Definition ndarray_shape (a : ref) : M (Z * Z) :=
  g <- load_ndarray a ;;
  ret (shape g).

Definition ndarray_copy (a : ref) : M ref :=
  g <- load_ndarray a ;;
  alloc (Ndarray g).

Definition ndarray_flatten (a : ref) : M ref :=
  g <- load_ndarray a ;;
  alloc (Ndarray1 (concat g)).

Definition ndarray_getitem (a : ref) (k l : Z) : M R :=
  g <- load_ndarray a ;;
  lift (getitem g k l).

Definition new_csr_matrix (data row column : ref) (N : Z) : M ref :=
  d <- load_floats data ;;
  r <- load_ints row ;;
  c <- load_ints column ;;
  A <- lift (csr_matrix d r c N) ;;
  alloc (Sparse A).

Definition np_ones (N : Z) : M ref :=
  alloc (Ndarray1 (map (fun _ => 1%R) (range N))).

Definition sparse_diags (v : ref) : M ref :=
  x <- load_ndarray1 v ;;
  alloc (Sparse (diags x)).

Definition sparse_scale (c : R) (A : ref) : M ref :=
  a <- load_sparse A ;;
  alloc (Sparse (csr_scale c a)).

Definition sparse_add (A B : ref) : M ref :=
  a <- load_sparse A ;;
  b <- load_sparse B ;;
  r <- lift (csr_add a b) ;;
  alloc (Sparse r).

Definition sparse_copy (A : ref) : M ref :=
  a <- load_sparse A ;;
  alloc (Sparse a).

Definition sparse_spsolve (A b : ref) : M ref :=
  a <- load_sparse A ;;
  v <- load_ndarray1 b ;;
  x <- lift (spsolve a v) ;;
  alloc (Ndarray1 x).

Definition ndarray_reshape (v : ref) (n m : Z) : M ref :=
  x <- load_ndarray1 v ;;
  g <- lift (reshape x n m) ;;
  alloc (Ndarray g).

Definition np_clip (a : ref) (lo hi : R) : M ref :=
  g <- load_ndarray a ;;
  alloc (Ndarray (grid_map (fun x => clip x lo hi) g)).

Definition np_power (a : ref) (gamma : R) : M ref :=
  g <- load_ndarray a ;;
  r <- lift (power g gamma) ;;
  alloc (Ndarray r).

(** ** [compute_smoothness_weights] *)

Definition compute_smoothness_weights (L : ref) (x : Z) (kernel : ref) (eps : R)
  : M ref :=
  Lp <- cv2_Sobel L (if (x =? 1)%Z then 1 else 0)%Z (if (x =? 0)%Z then 1 else 0)%Z ;;
  ones <- np_ones_like L ;;
  num <- ndimage_convolve ones kernel ;;
  conv <- ndimage_convolve Lp kernel ;;
  aconv <- np_abs conv ;;
  den <- np_add_scalar aconv eps ;;
  Txp <- np_divide num den ;;
  aLp <- np_abs Lp ;;
  den' <- np_add_scalar aLp eps ;;
  Wxp <- np_divide Txp den' ;;
  ret Wxp.

(** ** [refine_illumination_map_linear] *)

(** Lines 89-101: the five-point Laplacian in coordinate form. *)
Definition assemble_laplacian (wx wy : ref) (n m : Z) : M ref :=
  row <- alloc (IntList []) ;;
  column <- alloc (IntList []) ;;
  data <- alloc (FloatList []) ;;
  for_each (range (n * m)) (fun p =>
    d <- lift (get_sparse_neighbor p n m) ;;
    diag <- for_fold d (fun diag e =>
      let '(q, (k, l, x)) := e in
      weight <- ndarray_getitem (if (x =? 0)%Z then wy else wx) k l ;;
      append_int row p ;;
      append_int column q ;;
      append_float data (- weight)%R ;;
      ret (diag + weight)%R) 0%R ;;
    append_int row p ;;
    append_int column p ;;
    append_float data diag) ;;
  new_csr_matrix data row column (n * m).

Definition refine_illumination_map_linear
  (L : ref) (gamma lambda_ : R) (kernel : ref) (eps : R) : M ref :=
  wx <- compute_smoothness_weights L 1 kernel eps ;;
  wy <- compute_smoothness_weights L 0 kernel eps ;;
  nm <- ndarray_shape L ;;
  let (n, m) := nm : Z * Z in
  Lc <- ndarray_copy L ;;
  L_1d <- ndarray_flatten Lc ;;
  F <- assemble_laplacian wx wy n m ;;
  ones <- np_ones (n * m) ;;
  Id <- sparse_diags ones ;;
  lF <- sparse_scale lambda_ F ;;
  A <- sparse_add Id lF ;;
  A' <- sparse_copy A ;;
  x <- sparse_spsolve A' L_1d ;;
  L_refined <- ndarray_reshape x n m ;;
  clipped <- np_clip L_refined eps 1 ;;
  L_refined' <- np_power clipped gamma ;;
  ret L_refined'.

End HeapOperations.

Definition default_eps : R := 1 / 1000.

(** ** [Standard_WLSLoss] *)

Module Standard_WLSLoss.

(** The numeric attributes set by [__init__]; [forward] reads [epsilon] and
    [alpha] only ([l2loss] is never used). *)
Record t : Type := { epsilon : R; alpha : R; lambda_ : R }.

Definition init (epsilon alpha lambda_ : R) : t :=
  {| epsilon := epsilon; alpha := alpha; lambda_ := lambda_ |}.

Definition default : t := init (1 / 100) (12 / 10) (15 / 100).

(** A [(c, h, w)] tensor of finite floats, and one of IEEE values. *)
Definition tensor : Type := list (list (list R)).
Definition ftensor : Type := list (list (list fval)).

Definition f_log (x : R) : fval :=
  if Rlt_dec 0 x then Finite (ln x)
  else if Req_EM_T x 0 then NegInf else NaN.

Definition f_sub (a b : fval) : fval :=
  match a, b with
  | NaN, _ | _, NaN => NaN
  | Finite x, Finite y => Finite (x - y)
  | Finite _, PosInf => NegInf
  | Finite _, NegInf => PosInf
  | PosInf, PosInf => NaN
  | PosInf, _ => PosInf
  | NegInf, NegInf => NaN
  | NegInf, _ => NegInf
  end.

Definition f_abs (a : fval) : fval :=
  match a with
  | Finite x => Finite (Rabs x)
  | PosInf | NegInf => PosInf
  | NaN => NaN
  end.

(** The largest finite float32, [(2^24 - 1) * 2^104]: the tensors of this
    module are float32 ([ToTensor], and torch's default dtype). *)
Definition float32_max : R := 340282346638528859811704183484516925440.

(** A result beyond the largest finite float is an infinity. *)
Definition overflow (v : fval) : fval :=
  match v with
  | Finite r =>
      if Rlt_dec float32_max r then PosInf
      else if Rlt_dec r (- float32_max) then NegInf else Finite r
  | other => other
  end.

(** [torch.pow(a, y)] for a finite exponent [y]: of the operations of
    [forward], the power is the one that leaves the float range for moderate
    arguments. *)
Definition f_pow (a : fval) (y : R) : fval :=
  match a with
  | Finite x => overflow (float_pow x y)
  | PosInf =>
      if Rlt_dec 0 y then PosInf else if Req_EM_T y 0 then Finite 1 else Finite 0
  | NegInf =>
      if Rlt_dec 0 y then
        match as_integer y with
        | Some k => if Z.odd k then NegInf else PosInf
        | None => PosInf
        end
      else if Req_EM_T y 0 then Finite 1 else Finite 0
  | NaN => if Req_EM_T y 0 then Finite 1 else NaN
  end.

(** [c + a] for a finite scalar [c]. *)
Definition f_add_scalar (c : R) (a : fval) : fval :=
  match a with
  | Finite x => Finite (c + x)
  | other => other
  end.

(** [1. / a] *)
Definition f_recip (a : fval) : fval :=
  match a with
  | Finite x => if Req_EM_T x 0 then PosInf else Finite (1 / x)
  | PosInf | NegInf => Finite 0
  | NaN => NaN
  end.

(** [l[:k]] and [l[1:]] *)
Definition slice_to {A : Type} (l : list A) (k : Z) : list A :=
  if (k <? 0)%Z then firstn (Z.to_nat (Z.of_nat (length l) + k)) l
  else firstn (Z.to_nat k) l.

Definition slice_from1 {A : Type} (l : list A) : list A := skipn 1 l.

Definition forward (self : t) (gray : tensor) : ftensor * ftensor :=
  let h := Z.of_nat (length (hd [] gray)) in
  let w := Z.of_nat (length (hd [] (hd [] gray))) in
  let gray_log := map (map (map (fun g => f_log (g + epsilon self)))) gray in
  let xlog_diff :=
    zip_with (zip_with (zip_with f_sub))
      (map (map (fun r => slice_to r (w - 1))) gray_log)
      (map (map slice_from1) gray_log) in
  let ylog_diff :=
    zip_with (zip_with (zip_with f_sub))
      (map (fun ch => slice_to ch (h - 1)) gray_log)
      (map slice_from1 gray_log) in
  let ax :=
    map (map (map (fun d =>
      f_recip (f_add_scalar (epsilon self) (f_pow (f_abs d) (alpha self)))))) xlog_diff in
  let ay :=
    map (map (map (fun d =>
      f_recip (f_add_scalar (epsilon self) (f_pow (f_abs d) (alpha self)))))) ylog_diff in
  (ax, ay).

End Standard_WLSLoss.

(** ** [main] *)

(** A decoded image: height x width x channels. *)
Definition image : Type := list (list (list R)).

(** The maximum along the channel axis; an empty axis has none. *)
Definition channel_max (p : list R) : outcome R :=
  match p with
  | [] => Raised ValueError
  | x :: l => Returned (fold_left Rmax l x)
  end.

(** [np.max(img, axis=2)] *)
Definition np_max_axis2 (img : image) : outcome grid := omap (omap channel_max) img.

(** One axis of numpy's broadcasting for two arrays of the same rank: the
    lengths agree, or one of them is 1 and its only element is repeated. *)
Definition broadcast {A B C : Type} (f : A -> B -> outcome C) (a : list A) (b : list B)
  : outcome (list C) :=
  if (length a =? length b)%nat
  then omap (fun xy => f (fst xy) (snd xy)) (combine a b)
  else match a, b with
       | [x], _ => omap (f x) b
       | _, [y] => omap (fun x => f x y) a
       | _, _ => Raised ValueError
       end.

(** A zero divisor yields inf or nan. *)
Definition float_div (x y : R) : outcome R :=
  if Req_EM_T y 0 then Raised NotFinite else Returned (x / y)%R.

(** [a / b] for two 3-D arrays. *)
Definition image_div (a b : image) : outcome image :=
  broadcast (broadcast (broadcast float_div)) a b.

Section Main.
Local Open Scope heap_scope.

(** Lines 116-123 of [main]: [png] is the array decoded from
    [./pics/1.png], with its channel axis last; the result is the float array
    that line 124 hands to [np.uint8] and [Image.fromarray] for saving.  The
    3-D arrays are locals of [main] and are threaded as values; the
    luminance map and the kernel are passed on and live on the heap. *)
Definition main (png : list (list (list Z))) : M image :=
  let img := map (map (map (fun v => (IZR v / 255)%R))) png in
  gray0 <- lift (np_max_axis2 img) ;;
  gray <- alloc (Ndarray gray0) ;;
  K <- lift (create_spacial_affinity_kernel 3 default_size) ;;
  kernel <- alloc (Ndarray K) ;;
  gray <- refine_illumination_map_linear gray (6 / 10) (2 / 10) kernel default_eps ;;
  T <- load_ndarray gray ;;
  let gray3 := map (map (fun v => [v; v; v])) T in
  let gray3' := map (map (map (fun v => (v * (99 / 100) + 1 / 100)%R))) gray3 in
  q <- lift (image_div img gray3') ;;
  ret (map (map (map (fun v => (v * 255)%R))) q).

End Main.

(* ================================================================= *)
(** * Part II: properties *)
(* ================================================================= *)

(** ** Four-neighbourhoods *)

Section NeighborFacts.
Local Open Scope Z_scope.

(** The four candidate entries, in the order the source inserts them. *)
Definition up (p m : Z) : list entry :=
  if p / m - 1 >=? 0 then [(p - m, (p / m - 1, p mod m, 0))] else [].
Definition down (p n m : Z) : list entry :=
  if p / m + 1 <? n then [(p + m, (p / m + 1, p mod m, 0))] else [].
Definition left (p m : Z) : list entry :=
  if p mod m - 1 >=? 0 then [(p - 1, (p / m, p mod m - 1, 1))] else [].
Definition right (p m : Z) : list entry :=
  if p mod m + 1 <? m then [(p + 1, (p / m, p mod m + 1, 1))] else [].

Lemma neighbor_dict_flat p n m :
  0 < m ->
  neighbor_dict p n m = up p m ++ down p n m ++ left p m ++ right p m.
Proof.
  intros Hm.
  pose proof (Z.div_mod p m ltac:(lia)) as Hp.
  pose proof (Z.mod_pos_bound p m Hm) as Hj.
  unfold neighbor_dict, up, down, left, right.
  set (i := p / m) in *. set (j := p mod m) in *.
  replace ((i - 1) * m + j) with (p - m) by lia.
  replace ((i + 1) * m + j) with (p + m) by lia.
  replace (i * m + j - 1) with (p - 1) by lia.
  replace (i * m + j + 1) with (p + 1) by lia.
  rewrite !Z.geb_leb.
  destruct (Z.leb_spec 0 (i - 1)); destruct (Z.ltb_spec (i + 1) n);
    destruct (Z.leb_spec 0 (j - 1)); destruct (Z.ltb_spec (j + 1) m); cbn;
    repeat (match goal with
            | |- context [?a =? ?b] => destruct (Z.eqb_spec a b); try lia
            end; cbn); reflexivity.
Qed.

Lemma divmod_cell i j m :
  0 <= j < m -> (i * m + j) / m = i /\ (i * m + j) mod m = j.
Proof.
  intros Hj. split.
  - symmetry. apply (Z.div_unique _ _ i j); lia.
  - symmetry. apply (Z.mod_unique _ _ i j); lia.
Qed.

Lemma cell_bounds p n m :
  0 < m -> 0 <= p < n * m ->
  p = p / m * m + p mod m /\ 0 <= p mod m < m /\ 0 <= p / m < n.
Proof.
  intros Hm Hp.
  pose proof (Z.div_mod p m ltac:(lia)) as E.
  pose proof (Z.mod_pos_bound p m Hm) as Hj.
  assert (0 <= p / m) by (apply Z.div_pos; lia).
  assert (p / m < n) by (apply Z.div_lt_upper_bound; lia).
  lia.
Qed.

(** Membership in the dictionary, entry by entry. *)
Lemma in_neighbor_dict p n m q k l x :
  0 < m ->
  In (q, (k, l, x)) (neighbor_dict p n m) <->
  (q = p - m /\ k = p / m - 1 /\ l = p mod m /\ x = 0 /\ 0 <= p / m - 1) \/
  (q = p + m /\ k = p / m + 1 /\ l = p mod m /\ x = 0 /\ p / m + 1 < n) \/
  (q = p - 1 /\ k = p / m /\ l = p mod m - 1 /\ x = 1 /\ 0 <= p mod m - 1) \/
  (q = p + 1 /\ k = p / m /\ l = p mod m + 1 /\ x = 1 /\ p mod m + 1 < m).
Proof.
  intros Hm. rewrite neighbor_dict_flat by assumption.
  unfold up, down, left, right. rewrite !Z.geb_leb, !in_app_iff.
  destruct (Z.leb_spec 0 (p / m - 1)); destruct (Z.ltb_spec (p / m + 1) n);
    destruct (Z.leb_spec 0 (p mod m - 1)); destruct (Z.ltb_spec (p mod m + 1) m);
    cbn; split; intros Hin;
    repeat match goal with
           | H : _ \/ _ |- _ => destruct H
           | H : _ /\ _ |- _ => destruct H
           | H : (_, _) = (_, _) |- _ => inversion H; clear H; subst
           | H : False |- _ => destruct H
           end; subst; try lia; intuition (auto; try lia).
Qed.

Lemma in_keys p n m q :
  0 < m ->
  In q (keys (neighbor_dict p n m)) <->
  (q = p - m /\ 0 <= p / m - 1) \/ (q = p + m /\ p / m + 1 < n) \/
  (q = p - 1 /\ 0 <= p mod m - 1) \/ (q = p + 1 /\ p mod m + 1 < m).
Proof.
  intros Hm. unfold keys. rewrite in_map_iff. split.
  - intros [[q' [[k l] x]] [E Hin]]. cbn in E. subst q'.
    apply in_neighbor_dict in Hin; [| assumption]. intuition.
  - intros H.
    destruct H as [[-> H] | [[-> H] | [[-> H] | [-> H]]]];
      eexists (_, (_, _, _)); (split; [reflexivity |]);
      apply in_neighbor_dict; try assumption.
    + left. repeat split; try reflexivity; assumption.
    + right; left. repeat split; try reflexivity; assumption.
    + right; right; left. repeat split; try reflexivity; assumption.
    + right; right; right. repeat split; try reflexivity; assumption.
Qed.

(** Position of a neighbour relative to its pixel. *)
Lemma neighbor_cell p n m q k l x :
  0 < m -> 0 <= p < n * m ->
  In (q, (k, l, x)) (neighbor_dict p n m) ->
  0 <= q < n * m /\ k = q / m /\ l = q mod m /\
  ((x = 0 /\ q mod m = p mod m /\ (q / m = p / m - 1 \/ q / m = p / m + 1)) \/
   (x = 1 /\ q / m = p / m /\ (q mod m = p mod m - 1 \/ q mod m = p mod m + 1))).
Proof.
  intros Hm Hp Hin.
  destruct (cell_bounds n Hm Hp) as (E & Hj & Hi).
  apply in_neighbor_dict in Hin; [| assumption].
  set (i := p / m) in *. set (j := p mod m) in *.
  destruct Hin as [H | [H | [H | H]]]; destruct H as (-> & -> & -> & -> & G).
  - destruct (@divmod_cell (i - 1) j m Hj) as [D1 D2].
    replace (p - m) with ((i - 1) * m + j) by lia. rewrite D1, D2.
    split; [nia |]. do 2 (split; [reflexivity |]). left. repeat split; lia.
  - destruct (@divmod_cell (i + 1) j m Hj) as [D1 D2].
    replace (p + m) with ((i + 1) * m + j) by lia. rewrite D1, D2.
    split; [nia |]. do 2 (split; [reflexivity |]). left. repeat split; lia.
  - destruct (@divmod_cell i (j - 1) m ltac:(lia)) as [D1 D2].
    replace (p - 1) with (i * m + (j - 1)) by lia. rewrite D1, D2.
    split; [nia |]. do 2 (split; [reflexivity |]). right. repeat split; lia.
  - destruct (@divmod_cell i (j + 1) m ltac:(lia)) as [D1 D2].
    replace (p + 1) with (i * m + (j + 1)) by lia. rewrite D1, D2.
    split; [nia |]. do 2 (split; [reflexivity |]). right. repeat split; lia.
Qed.

Lemma keys_adjacent p n m q :
  0 < m -> 0 <= p < n * m -> 0 <= q < n * m ->
  In q (keys (neighbor_dict p n m)) <->
  Z.abs (q / m - p / m) + Z.abs (q mod m - p mod m) = 1.
Proof.
  intros Hm Hp Hq.
  destruct (cell_bounds n Hm Hp) as (Ep & Hjp & Hip).
  destruct (cell_bounds n Hm Hq) as (Eq & Hjq & Hiq).
  rewrite in_keys by assumption.
  set (i := p / m) in *. set (j := p mod m) in *.
  set (i' := q / m) in *. set (j' := q mod m) in *.
  split.
  - intros H. assert (i' = i - 1 /\ j' = j \/ i' = i + 1 /\ j' = j \/
                      i' = i /\ j' = j - 1 \/ i' = i /\ j' = j + 1) as C.
    { destruct H as [[E G] | [[E G] | [[E G] | [E G]]]].
      - left. assert (q = (i - 1) * m + j) as E' by lia.
        destruct (@divmod_cell (i - 1) j m Hjp) as [D1 D2].
        rewrite <- E' in D1, D2. fold i' in D1. fold j' in D2. lia.
      - right; left. assert (q = (i + 1) * m + j) as E' by lia.
        destruct (@divmod_cell (i + 1) j m Hjp) as [D1 D2].
        rewrite <- E' in D1, D2. fold i' in D1. fold j' in D2. lia.
      - right; right; left. assert (q = i * m + (j - 1)) as E' by lia.
        destruct (@divmod_cell i (j - 1) m ltac:(lia)) as [D1 D2].
        rewrite <- E' in D1, D2. fold i' in D1. fold j' in D2. lia.
      - right; right; right. assert (q = i * m + (j + 1)) as E' by lia.
        destruct (@divmod_cell i (j + 1) m ltac:(lia)) as [D1 D2].
        rewrite <- E' in D1, D2. fold i' in D1. fold j' in D2. lia. }
    lia.
  - intros H.
    assert (i' = i - 1 /\ j' = j \/ i' = i + 1 /\ j' = j \/
            i' = i /\ j' = j - 1 \/ i' = i /\ j' = j + 1) as C by lia.
    destruct C as [[E1 E2] | [[E1 E2] | [[E1 E2] | [E1 E2]]]].
    + left. nia.
    + right; left. nia.
    + right; right; left. nia.
    + right; right; right. nia.
Qed.

Lemma keys_nodup p n m : 0 < m -> NoDup (keys (neighbor_dict p n m)).
Proof.
  intros Hm. rewrite neighbor_dict_flat by assumption.
  pose proof (Z.mod_pos_bound p m Hm) as Hj.
  unfold up, down, left, right, keys. rewrite !Z.geb_leb.
  destruct (Z.leb_spec 0 (p / m - 1)); destruct (Z.ltb_spec (p / m + 1) n);
    destruct (Z.leb_spec 0 (p mod m - 1)); destruct (Z.ltb_spec (p mod m + 1) m);
    cbn; repeat constructor; cbn; intuition lia.
Qed.

Lemma neighbor_dict_length p n m : 0 < m -> (length (neighbor_dict p n m) <= 4)%nat.
Proof.
  intros Hm. rewrite neighbor_dict_flat by assumption.
  unfold up, down, left, right.
  destruct (p / m - 1 >=? 0); destruct (p / m + 1 <? n);
    destruct (p mod m - 1 >=? 0); destruct (p mod m + 1 <? m); cbn; lia.
Qed.

End NeighborFacts.

(** C10. For [n >= 1], [m >= 1] and [p] in [[0, n*m)], the call returns a
    dictionary whose every key [q] is a valid index different from [p], is
    stored with its own cell [(q // m, q % m)], lies at Manhattan distance
    exactly 1 from the cell of [p], carries flag 1 exactly when the column
    differs and flag 0 exactly when the row differs; the dictionary has at
    most four entries with distinct keys, and neighbourhood is symmetric. *)
Theorem get_sparse_neighbor_four_neighbourhood (n m p : Z) :
  (1 <= n)%Z -> (1 <= m)%Z -> (0 <= p < n * m)%Z ->
  exists d, get_sparse_neighbor p n m = Returned d /\
    (forall q k l x, In (q, (k, l, x)) d ->
       (0 <= q < n * m)%Z /\ q <> p /\ (k, l) = (q / m, q mod m)%Z /\
       (Z.abs (q / m - p / m) + Z.abs (q mod m - p mod m) = 1)%Z /\
       (x = 1%Z <-> (q mod m)%Z <> (p mod m)%Z) /\
       (x = 0%Z <-> (q / m)%Z <> (p / m)%Z)) /\
    (length d <= 4)%nat /\ NoDup (keys d) /\
    (forall q, (0 <= q < n * m)%Z ->
       (In q (keys d) <->
        exists d', get_sparse_neighbor q n m = Returned d' /\ In p (keys d'))).
Proof.
  intros Hn Hm Hp. assert (0 < m)%Z as Hm' by lia.
  exists (neighbor_dict p n m). unfold get_sparse_neighbor.
  destruct (Z.eqb_spec m 0) as [? | _]; [lia |].
  split; [reflexivity |]. split; [| split; [| split]].
  - intros q k l x Hin.
    destruct (@neighbor_cell p n m q k l x Hm' Hp Hin) as (Hq & -> & -> & C).
    split; [assumption |].
    assert (q <> p) by (intros ->; lia).
    split; [assumption |]. split; [reflexivity |]. lia.
  - now apply neighbor_dict_length.
  - now apply keys_nodup.
  - intros q Hq. rewrite keys_adjacent by assumption. split.
    + intros H. exists (neighbor_dict q n m). split; [reflexivity |].
      apply keys_adjacent; try assumption. lia.
    + intros (d' & E & Hin). inversion E; subst d'.
      apply keys_adjacent in Hin; try assumption. lia.
Qed.

Lemma get_sparse_neighbor_four_neighbourhood_witness :
  exists d, get_sparse_neighbor 3 2 3 = Returned d /\ (length d <= 4)%nat /\
            NoDup (keys d).
Proof.
  destruct (@get_sparse_neighbor_four_neighbourhood 2 3 3) as (d & E & _ & Hl & Hd & _);
    [lia | lia | lia |].
  exists d. repeat split; assumption.
Defined.

(** ** Arrays: shape and indexing *)

(** A rectangular array of [n] rows and [m] columns. *)
Definition rect (n m : nat) (g : grid) : Prop :=
  length g = n /\ Forall (fun r => length r = m) g.

Section GridFacts.

Lemma range_length N : length (range N) = Z.to_nat N.
Proof. unfold range. now rewrite length_map, length_seq. Qed.

Lemma in_range_iff N k : In k (range N) <-> (0 <= k < N)%Z.
Proof.
  unfold range. rewrite in_map_iff. split.
  - intros (i & <- & Hi). apply in_seq in Hi. lia.
  - intros Hk. exists (Z.to_nat k). split; [lia |]. apply in_seq. lia.
Qed.

Lemma nth_range N i d : (i < Z.to_nat N)%nat -> nth i (range N) d = Z.of_nat i.
Proof.
  intros Hi. unfold range.
  rewrite (nth_indep _ d (Z.of_nat 0)) by (now rewrite length_map, length_seq).
  rewrite map_nth, seq_nth by assumption. reflexivity.
Qed.

Lemma range_nodup N : NoDup (range N).
Proof.
  unfold range. apply Injective_map_NoDup; [| apply seq_NoDup].
  intros a b. apply Nat2Z.inj.
Qed.

Lemma range_succ N : (0 <= N)%Z -> range (N + 1) = range N ++ [N].
Proof.
  intros HN. unfold range.
  replace (Z.to_nat (N + 1)) with (Z.to_nat N + 1)%nat by lia.
  rewrite seq_app, map_app. cbn. now rewrite Z2Nat.id.
Qed.

Lemma tabulate_rect n m f : rect (Z.to_nat n) (Z.to_nat m) (tabulate n m f).
Proof.
  unfold rect, tabulate. split.
  - now rewrite length_map, range_length.
  - apply Forall_forall. intros r Hr. apply in_map_iff in Hr.
    destruct Hr as (i & <- & _). now rewrite length_map, range_length.
Qed.

Lemma item0_outside g i j : (i < 0 \/ j < 0)%Z -> item0 g i j = 0%R.
Proof.
  intros H. unfold item0.
  destruct (Z.leb_spec 0 i); destruct (Z.leb_spec 0 j); cbn; try reflexivity; lia.
Qed.

Lemma item0_nth g i j :
  (0 <= i)%Z -> (0 <= j)%Z ->
  item0 g i j = nth (Z.to_nat j) (nth (Z.to_nat i) g []) 0%R.
Proof.
  intros Hi Hj. unfold item0.
  destruct (Z.leb_spec 0 i); destruct (Z.leb_spec 0 j); cbn; try reflexivity; lia.
Qed.

Lemma item0_beyond n m g i j :
  rect n m g -> (Z.of_nat n <= i \/ Z.of_nat m <= j)%Z -> item0 g i j = 0%R.
Proof.
  intros [Hn Hm] H.
  destruct (Z.ltb_spec i 0); [apply item0_outside; lia |].
  destruct (Z.ltb_spec j 0); [apply item0_outside; lia |].
  rewrite item0_nth by lia.
  destruct (Nat.lt_ge_cases (Z.to_nat i) (length g)) as [Hi | Hi].
  - rewrite Forall_forall in Hm.
    assert (length (nth (Z.to_nat i) g []) = m) as E by (apply Hm, nth_In, Hi).
    apply nth_overflow. lia.
  - rewrite (nth_overflow g) by assumption. now destruct (Z.to_nat j).
Qed.

Lemma item0_tabulate n m f i j :
  (0 <= i < n)%Z -> (0 <= j < m)%Z -> item0 (tabulate n m f) i j = f i j.
Proof.
  intros Hi Hj. rewrite item0_nth by lia. unfold tabulate.
  rewrite (nth_indep _ [] (map (fun j => f (Z.of_nat 0) j) (range m)))
    by (rewrite length_map, range_length; lia).
  rewrite (map_nth (fun i => map (fun j => f i j) (range m)) (range n) (Z.of_nat 0)).
  rewrite nth_range by lia.
  rewrite (nth_indep _ 0%R (f (Z.of_nat (Z.to_nat i)) (Z.of_nat 0)))
    by (rewrite length_map, range_length; lia).
  rewrite (map_nth (fun j => f (Z.of_nat (Z.to_nat i)) j) (range m) (Z.of_nat 0)).
  rewrite nth_range by lia. now rewrite !Z2Nat.id by lia.
Qed.

Lemma list_ext {A : Type} (d : A) (a b : list A) :
  length a = length b ->
  (forall k, (k < length a)%nat -> nth k a d = nth k b d) -> a = b.
Proof.
  revert b. induction a as [| x a IH]; intros [| y b] Hl H; try discriminate.
  - reflexivity.
  - f_equal.
    + apply (H 0%nat). cbn. lia.
    + apply IH; [cbn in Hl; lia |]. intros k Hk. apply (H (S k)). cbn. lia.
Qed.

(** Two arrays of the same shape with the same items are equal. *)
Lemma grid_ext n m (g g' : grid) :
  rect n m g -> rect n m g' ->
  (forall i j, (0 <= i < Z.of_nat n)%Z -> (0 <= j < Z.of_nat m)%Z ->
               item0 g i j = item0 g' i j) ->
  g = g'.
Proof.
  intros [Hn Hm] [Hn' Hm'] H. rewrite Forall_forall in Hm, Hm'.
  apply (list_ext []); [congruence |]. intros i Hi.
  assert (length (nth i g []) = m) as E by (apply Hm, nth_In, Hi).
  assert (length (nth i g' []) = m) as E' by (apply Hm', nth_In; lia).
  apply (list_ext 0%R); [congruence |]. intros j Hj.
  specialize (H (Z.of_nat i) (Z.of_nat j) ltac:(lia) ltac:(lia)).
  rewrite !item0_nth, !Nat2Z.id in H by lia. exact H.
Qed.

Lemma shape_rect n m g : rect n m g -> (0 < n)%nat -> shape g = (Z.of_nat n, Z.of_nat m).
Proof.
  intros [Hn Hm] Hpos. unfold shape. rewrite Hn. f_equal. f_equal.
  destruct g as [| r g]; [cbn in Hn; lia |]. cbn. now inversion Hm.
Qed.

Lemma length_list_set {A : Type} (l : list A) k v : length (list_set l k v) = length l.
Proof.
  revert k. induction l as [| x l IH]; intros [| k]; cbn; try reflexivity.
  now rewrite IH.
Qed.

Lemma nth_list_set {A : Type} (l : list A) k v i d :
  nth i (list_set l k v) d =
  if (i =? k)%nat && (k <? length l)%nat then v else nth i l d.
Proof.
  revert k i. induction l as [| x l IH]; intros k i.
  - cbn. destruct k; rewrite andb_false_r; reflexivity.
  - destruct k as [| k]; destruct i as [| i]; cbn; try reflexivity.
    rewrite IH. reflexivity.
Qed.

Lemma setitem_spec n m g i j v :
  rect n m g -> (0 <= i < Z.of_nat n)%Z -> (0 <= j < Z.of_nat m)%Z ->
  exists g', setitem g i j v = Returned g' /\ rect n m g' /\
    forall a b, item0 g' a b = if ((a =? i) && (b =? j))%Z then v else item0 g a b.
Proof.
  intros Hr Hi Hj. pose proof Hr as [Hn Hm].
  unfold setitem. rewrite (shape_rect Hr) by lia.
  destruct (Z.leb_spec 0 i); [| lia]. destruct (Z.ltb_spec i (Z.of_nat n)); [| lia].
  destruct (Z.leb_spec 0 j); [| lia]. destruct (Z.ltb_spec j (Z.of_nat m)); [| lia].
  cbn. eexists. split; [reflexivity |].
  rewrite Forall_forall in Hm.
  assert (length (nth (Z.to_nat i) g []) = m) as E by (apply Hm, nth_In; lia).
  split.
  - split; [now rewrite length_list_set |].
    apply Forall_forall. intros r Hr'.
    destruct (In_nth _ _ [] Hr') as (k & Hk & <-).
    rewrite length_list_set in Hk. rewrite nth_list_set.
    destruct ((k =? Z.to_nat i)%nat && (Z.to_nat i <? length g)%nat).
    + now rewrite length_list_set.
    + apply Hm, nth_In, Hk.
  - intros a b.
    destruct (Z.ltb_spec a 0).
    { rewrite !item0_outside by lia.
      destruct (Z.eqb_spec a i); [lia | reflexivity]. }
    destruct (Z.ltb_spec b 0).
    { rewrite !item0_outside by lia.
      destruct (Z.eqb_spec b j); [lia | now rewrite andb_false_r]. }
    rewrite !item0_nth by lia. rewrite nth_list_set.
    destruct (Nat.eqb_spec (Z.to_nat a) (Z.to_nat i)) as [Ea | Ea].
    + assert (a = i) as -> by lia. rewrite Z.eqb_refl.
      destruct (Nat.ltb_spec (Z.to_nat i) (length g)); [| lia]. cbn.
      rewrite nth_list_set.
      destruct (Nat.eqb_spec (Z.to_nat b) (Z.to_nat j)) as [Eb | Eb].
      * assert (b = j) as -> by lia. rewrite Z.eqb_refl.
        destruct (Nat.ltb_spec (Z.to_nat j) (length (nth (Z.to_nat i) g []))); [| lia].
        reflexivity.
      * destruct (Z.eqb_spec b j); [lia |]. reflexivity.
    + destruct (Z.eqb_spec a i); [lia |]. reflexivity.
Qed.

End GridFacts.

(** ** The spatial affinity kernel *)

(** The value the loop body stores at [(i, j)]. *)
Definition kernel_value (sigma : R) (size i j : Z) : R :=
  exp (- (1 / 2) * (euclidean (i, j) (size / 2, size / 2)%Z ^ 2) / (sigma ^ 2)).

Section KernelFacts.

Lemma existsb_eqb_in a l : existsb (Z.eqb a) l = true <-> In a l.
Proof.
  rewrite existsb_exists. split.
  - intros (x & Hx & E). apply Z.eqb_eq in E. now subst.
  - intros H. exists a. split; [assumption | apply Z.eqb_refl].
Qed.

Lemma fill_row n m (body : grid -> Z -> outcome grid) (f : Z -> R) i l :
  (forall k j, body k j = setitem k i j (f j)) ->
  (0 <= i < Z.of_nat n)%Z -> (forall j, In j l -> (0 <= j < Z.of_nat m)%Z) ->
  forall g, rect n m g ->
  exists g', ofold body l g = Returned g' /\ rect n m g' /\
    forall a b, item0 g' a b =
                if (a =? i)%Z && existsb (Z.eqb b) l then f b else item0 g a b.
Proof.
  intros Hbody Hi. induction l as [| j l IH]; intros Hl g Hg.
  - exists g. cbn. split; [reflexivity | split; [assumption |]].
    intros a b. now rewrite andb_false_r.
  - cbn [ofold]. rewrite Hbody.
    destruct (@setitem_spec n m g i j (f j) Hg Hi (Hl j (or_introl eq_refl)))
      as (g1 & E1 & Hg1 & I1).
    rewrite E1. cbn [obind].
    destruct (IH (fun j' H => Hl j' (or_intror H)) g1 Hg1) as (g' & E' & Hg' & I').
    exists g'. split; [assumption | split; [assumption |]].
    intros a b. rewrite I', I1. cbn [existsb].
    destruct (Z.eqb_spec a i); cbn; [| reflexivity].
    destruct (existsb (Z.eqb b) l) eqn:El.
    + now rewrite orb_true_r.
    + rewrite orb_false_r. destruct (Z.eqb_spec b j); [now subst | reflexivity].
Qed.

Lemma fill_grid n m (body : Z -> grid -> Z -> outcome grid) (f : Z -> Z -> R) lj li :
  (forall i k j, body i k j = setitem k i j (f i j)) ->
  (forall j, In j lj -> (0 <= j < Z.of_nat m)%Z) ->
  (forall i, In i li -> (0 <= i < Z.of_nat n)%Z) ->
  forall g, rect n m g ->
  exists g', ofold (fun k i => ofold (body i) lj k) li g = Returned g' /\ rect n m g' /\
    forall a b, item0 g' a b =
                if existsb (Z.eqb a) li && existsb (Z.eqb b) lj then f a b
                else item0 g a b.
Proof.
  intros Hbody Hlj. induction li as [| i li IH]; intros Hli g Hg.
  - exists g. cbn. split; [reflexivity | split; [assumption | reflexivity]].
  - cbn [ofold].
    destruct (@fill_row n m (body i) (f i) i lj (Hbody i)
                (Hli i (or_introl eq_refl)) Hlj g Hg) as (g1 & E1 & Hg1 & I1).
    rewrite E1. cbn [obind].
    destruct (IH (fun i' H => Hli i' (or_intror H)) g1 Hg1) as (g' & E' & Hg' & I').
    exists g'. split; [assumption | split; [assumption |]].
    intros a b. rewrite I', I1. cbn [existsb].
    destruct (existsb (Z.eqb a) li) eqn:Ea; cbn.
    + rewrite orb_true_r. cbn. destruct (existsb (Z.eqb b) lj) eqn:Eb; [reflexivity |].
      now rewrite andb_false_r.
    + rewrite orb_false_r. destruct (Z.eqb_spec a i); [now subst | reflexivity].
Qed.

(** Without a zero [sigma] and with a non-negative [size], the loops fill
    every cell once and the call returns the filled array. *)
Lemma create_spacial_affinity_kernel_returns sigma size :
  sigma <> 0%R -> (0 <= size)%Z ->
  create_spacial_affinity_kernel sigma size
  = Returned (tabulate size size (kernel_value sigma size)).
Proof.
  intros Hs Hsize. unfold create_spacial_affinity_kernel.
  destruct (Z.ltb_spec size 0); [lia |].
  assert (sigma ^ 2 <> 0)%R as Hs2 by (apply pow_nonzero; assumption).
  destruct (@fill_grid (Z.to_nat size) (Z.to_nat size)
              (fun i kernel j =>
                 if Req_EM_T (sigma ^ 2) 0 then Raised NotFinite
                 else setitem kernel i j (kernel_value sigma size i j))
              (kernel_value sigma size) (range size) (range size))
    with (g := tabulate size size (fun _ _ => 0%R)) as (g' & E & Hg' & I).
  - intros i k j. destruct (Req_EM_T (sigma ^ 2) 0); [contradiction | reflexivity].
  - intros j Hj. apply in_range_iff in Hj. lia.
  - intros i Hi. apply in_range_iff in Hi. lia.
  - apply tabulate_rect.
  - unfold kernel_value in E. rewrite E. f_equal.
    apply (@grid_ext (Z.to_nat size) (Z.to_nat size)); [assumption | apply tabulate_rect |].
    intros i j Hi Hj. rewrite I.
    assert (existsb (Z.eqb i) (range size) = true) as ->
        by (apply existsb_eqb_in, in_range_iff; lia).
    assert (existsb (Z.eqb j) (range size) = true) as ->
        by (apply existsb_eqb_in, in_range_iff; lia).
    cbn. rewrite item0_tabulate by lia. reflexivity.
Qed.

Lemma kernel_value_mirror sigma size i j :
  Z.odd size = true ->
  kernel_value sigma size (size - 1 - i) (size - 1 - j) = kernel_value sigma size i j.
Proof.
  intros Hodd. unfold kernel_value, euclidean. cbn [fst snd].
  assert (size = 2 * (size / 2) + 1)%Z as E.
  { rewrite (Z.div_mod size 2) at 1 by lia. rewrite <- Z.bit0_mod, Z.bit0_odd, Hodd.
    reflexivity. }
  set (c := (size / 2)%Z) in *.
  replace (size - 1 - i)%Z with (2 * c - i)%Z by lia.
  replace (size - 1 - j)%Z with (2 * c - j)%Z by lia.
  rewrite !minus_IZR, !mult_IZR.
  do 3 f_equal. f_equal. f_equal. cbn [IZR IPR IPR_2]. ring.
Qed.

Lemma kernel_value_center sigma size :
  kernel_value sigma size (size / 2) (size / 2) = 1%R.
Proof.
  unfold kernel_value, euclidean. cbn [fst snd].
  replace ((IZR (size / 2) - IZR (size / 2)) ^ 2 + (IZR (size / 2) - IZR (size / 2)) ^ 2)%R
    with 0%R by ring.
  rewrite sqrt_0.
  replace (- (1 / 2) * 0 ^ 2 / sigma ^ 2)%R with 0%R by (unfold Rdiv; ring).
  apply exp_0.
Qed.

Lemma getitem_tabulate n m f i j :
  (0 <= i < n)%Z -> (0 <= j < m)%Z -> getitem (tabulate n m f) i j = Returned (f i j).
Proof.
  intros Hi Hj. unfold getitem.
  rewrite (shape_rect (tabulate_rect n m f)) by lia.
  rewrite !Z2Nat.id by lia.
  destruct (Z.leb_spec (- n) i); [| lia]. destruct (Z.ltb_spec i n); [| lia].
  destruct (Z.leb_spec (- m) j); [| lia]. destruct (Z.ltb_spec j m); [| lia].
  cbn. destruct (Z.ltb_spec i 0); [lia |]. destruct (Z.ltb_spec j 0); [lia |].
  now rewrite item0_tabulate by lia.
Qed.

End KernelFacts.

(** C6. For every odd [size >= 1] and every [sigma > 0] the call returns a
    [size] x [size] array that is invariant under the point reflection
    [(i, j) -> (size-1-i, size-1-j)] and whose centre entry is 1. *)
Theorem kernel_symmetric_center_one (sigma : R) (size : Z) :
  Z.odd size = true -> (1 <= size)%Z -> (0 < sigma)%R ->
  exists kernel,
    create_spacial_affinity_kernel sigma size = Returned kernel /\
    shape kernel = (size, size) /\
    (forall i j, (0 <= i < size)%Z -> (0 <= j < size)%Z ->
       exists v, getitem kernel i j = Returned v /\
                 getitem kernel (size - 1 - i) (size - 1 - j) = Returned v) /\
    getitem kernel (size / 2) (size / 2) = Returned 1%R.
Proof.
  intros Hodd Hsize Hsigma.
  exists (tabulate size size (kernel_value sigma size)).
  split; [apply create_spacial_affinity_kernel_returns; lra || lia |].
  split.
  { rewrite (shape_rect (tabulate_rect size size _)) by lia.
    now rewrite !Z2Nat.id by lia. }
  split.
  - intros i j Hi Hj. exists (kernel_value sigma size i j).
    rewrite !getitem_tabulate by lia. now rewrite kernel_value_mirror.
  - assert (0 <= size / 2 < size)%Z.
    { split; [apply Z.div_pos; lia | apply Z.div_lt; lia]. }
    rewrite getitem_tabulate by lia. now rewrite kernel_value_center.
Qed.

Lemma kernel_symmetric_center_one_witness :
  exists kernel,
    create_spacial_affinity_kernel 3 default_size = Returned kernel /\
    getitem kernel 7 7 = Returned 1%R.
Proof.
  destruct (@kernel_symmetric_center_one 3 default_size) as (k & E & _ & _ & C);
    [reflexivity | unfold default_size; lia | lra |].
  exists k. split; [exact E | exact C].
Defined.

(** ** Log-gradient edge weights *)

(** A [(c, h, w)] tensor. *)
Definition shape3 {A : Type} (c h w : nat) (t : list (list (list A))) : Prop :=
  length t = c /\
  Forall (fun ch => length ch = h /\ Forall (fun r => length r = w) ch) t.

(** [t[ch, i, k]] *)
Definition tget {A : Type} (d : A) (t : list (list (list A))) (ch i k : nat) : A :=
  nth k (nth i (nth ch t []) []) d.

(** The real power [x ^ a] of a non-negative base, where it is defined
    ([a >= 0] or [x > 0]). *)
Definition rpow (x a : R) : R :=
  if Req_EM_T x 0 then (if Req_EM_T a 0 then 1%R else 0%R) else Rpower x a.

(** The closed form [1 / (epsilon + |log(a + epsilon) - log(b + epsilon)|^alpha)]. *)
Definition wls_weight (epsilon alpha a b : R) : R :=
  (1 / (epsilon + rpow (Rabs (ln (a + epsilon) - ln (b + epsilon))) alpha))%R.

(** Its power [|log(a + epsilon) - log(b + epsilon)|^alpha]. *)
Definition log_power (epsilon alpha a b : R) : R :=
  rpow (Rabs (ln (a + epsilon) - ln (b + epsilon))) alpha.

Section WLSLossFacts.
Import Standard_WLSLoss.

Lemma zip_with_length {A B C : Type} (f : A -> B -> C) a b :
  length (zip_with f a b) = Nat.min (length a) (length b).
Proof.
  revert b. induction a as [| x a IH]; intros [| y b]; cbn; try reflexivity.
  now rewrite IH.
Qed.

Lemma nth_zip_with {A B C : Type} (f : A -> B -> C) a b k d da db :
  (k < length a)%nat -> (k < length b)%nat ->
  nth k (zip_with f a b) d = f (nth k a da) (nth k b db).
Proof.
  revert b k. induction a as [| x a IH]; intros [| y b] [| k] Ha Hb; cbn in *; try lia.
  - reflexivity.
  - apply IH; lia.
Qed.

Lemma zip_with_map {A B C D : Type} (f : B -> C -> D) (g : A -> B) (h : A -> C) l :
  zip_with f (map g l) (map h l) = map (fun x => f (g x) (h x)) l.
Proof. induction l as [| x l IH]; cbn; [reflexivity | now rewrite IH]. Qed.

Lemma nth_map_lt {A B : Type} (f : A -> B) l k d d' :
  (k < length l)%nat -> nth k (map f l) d = f (nth k l d').
Proof.
  intros Hk. rewrite (nth_indep _ d (f d')) by (now rewrite length_map).
  apply map_nth.
Qed.

Lemma slice_to_last {A : Type} (l : list A) :
  slice_to l (Z.of_nat (length l) - 1) = firstn (length l - 1) l.
Proof.
  unfold slice_to. destruct (Z.ltb_spec (Z.of_nat (length l) - 1) 0).
  - assert (length l = 0)%nat as E by lia. rewrite E. reflexivity.
  - f_equal. lia.
Qed.

(** The weight computed from one log-difference. *)
Definition weight_of (self : t) (d : fval) : fval :=
  f_recip (f_add_scalar (epsilon self) (f_pow (f_abs d) (alpha self))).

Definition log_of (self : t) (g : R) : fval := f_log (g + epsilon self).

(** Horizontal differences of one row, vertical differences of one channel. *)
Definition row_diff (r : list fval) : list fval :=
  zip_with f_sub (firstn (length r - 1) r) (skipn 1 r).

Definition channel_diff (ch : list (list fval)) : list (list fval) :=
  zip_with (zip_with f_sub) (firstn (length ch - 1) ch) (skipn 1 ch).

Lemma shape3_row {A : Type} c h w (t : list (list (list A))) ch r :
  shape3 c h w t -> In ch t -> In r ch ->
  length ch = h /\ length r = w /\
  length (hd [] t) = h /\ length (hd [] (hd [] t)) = w.
Proof.
  intros [Hc Hall] Hch Hr. rewrite Forall_forall in Hall.
  destruct (Hall ch Hch) as [Hh Hrows]. rewrite Forall_forall in Hrows.
  split; [assumption |]. split; [now apply Hrows |].
  destruct t as [| ch0 t']; [destruct Hch |]. cbn [hd].
  destruct (Hall ch0 (or_introl eq_refl)) as [Hh0 Hrows0].
  split; [assumption |].
  destruct ch0 as [| r0 ch0'].
  - cbn in Hh0. subst h. destruct ch; [destruct Hr | discriminate].
  - cbn [hd]. rewrite Forall_forall in Hrows0. apply Hrows0. now left.
Qed.

Lemma forward_horizontal self c h w (gray : tensor) :
  shape3 c h w gray ->
  fst (forward self gray)
  = map (map (fun r => map (weight_of self) (row_diff (map (log_of self) r)))) gray.
Proof.
  intros Hs. unfold forward. cbn [fst].
  rewrite zip_with_map, !map_map. apply map_ext_in. intros ch Hch.
  rewrite zip_with_map, !map_map. apply map_ext_in. intros r Hr.
  destruct (shape3_row _ _ Hs Hch Hr) as (_ & Hw & _ & Hw0).
  unfold row_diff, slice_from1. rewrite Hw0, <- Hw.
  rewrite <- (length_map (fun g => f_log (g + epsilon self)) r) at 1.
  rewrite slice_to_last. reflexivity.
Qed.

Lemma forward_vertical self c h w (gray : tensor) :
  shape3 c h w gray ->
  snd (forward self gray)
  = map (fun ch => map (map (weight_of self))
                     (channel_diff (map (map (log_of self)) ch))) gray.
Proof.
  intros Hs. unfold forward. cbn [snd].
  rewrite zip_with_map, !map_map. apply map_ext_in. intros ch Hch.
  pose proof Hs as [Hc Hall]. rewrite Forall_forall in Hall.
  destruct (Hall ch Hch) as [Hh _].
  assert (length (hd [] gray) = h) as Hh0.
  { destruct gray as [| ch0 t']; [destruct Hch |]. cbn [hd].
    now destruct (Hall ch0 (or_introl eq_refl)). }
  unfold channel_diff, slice_from1. rewrite Hh0, <- Hh.
  rewrite <- (length_map (map (fun g => f_log (g + epsilon self))) ch) at 1.
  rewrite slice_to_last. reflexivity.
Qed.

Lemma row_diff_length r : length (row_diff r) = (length r - 1)%nat.
Proof.
  unfold row_diff. rewrite zip_with_length, length_firstn, length_skipn. lia.
Qed.

Lemma channel_diff_shape h w (ch : list (list fval)) :
  length ch = h -> Forall (fun r => length r = w) ch ->
  length (channel_diff ch) = (h - 1)%nat /\
  Forall (fun r => length r = w) (channel_diff ch).
Proof.
  intros Hh Hrows. unfold channel_diff. split.
  - rewrite zip_with_length, length_firstn, length_skipn. lia.
  - rewrite Forall_forall in *. intros r Hr.
    destruct (In_nth _ _ [] Hr) as (k & Hk & <-).
    rewrite zip_with_length, length_firstn, length_skipn in Hk.
    rewrite (@nth_zip_with _ _ _ _ _ _ k [] [] []) by (rewrite ?length_firstn, ?length_skipn; lia).
    rewrite zip_with_length, nth_firstn, nth_skipn.
    destruct (Nat.ltb_spec k (length ch - 1)); [| lia].
    rewrite (Hrows (nth k ch [])) by (apply nth_In; lia).
    rewrite (Hrows (nth (1 + k) ch [])) by (apply nth_In; lia).
    apply Nat.min_id.
Qed.

End WLSLossFacts.

(** C7. On a [(c, h, w)] input (three channels in the source's use) the
    horizontal map has [h] rows of [w - 1] entries in every channel and the
    vertical map has [h - 1] rows of [w] entries: one column, respectively
    one row, fewer than the input and no padding. *)
Theorem forward_shapes (self : Standard_WLSLoss.t) (gray : Standard_WLSLoss.tensor)
        (c h w : nat) :
  shape3 c h w gray ->
  shape3 c h (w - 1) (fst (Standard_WLSLoss.forward self gray)) /\
  shape3 c (h - 1) w (snd (Standard_WLSLoss.forward self gray)).
Proof.
  intros Hs. pose proof Hs as [Hc Hall]. rewrite Forall_forall in Hall.
  rewrite (forward_horizontal self Hs), (forward_vertical self Hs). split.
  - split; [now rewrite length_map |].
    apply Forall_forall. intros ch' Hch'. apply in_map_iff in Hch'.
    destruct Hch' as (ch & <- & Hch). destruct (Hall ch Hch) as [Hh Hrows].
    split; [now rewrite length_map |].
    apply Forall_forall. intros r' Hr'. apply in_map_iff in Hr'.
    destruct Hr' as (r & <- & Hr). rewrite Forall_forall in Hrows.
    now rewrite length_map, row_diff_length, length_map, (Hrows r Hr).
  - split; [now rewrite length_map |].
    apply Forall_forall. intros ch' Hch'. apply in_map_iff in Hch'.
    destruct Hch' as (ch & <- & Hch). destruct (Hall ch Hch) as [Hh Hrows].
    destruct (@channel_diff_shape h w (map (map (log_of self)) ch)) as [L1 L2].
    + now rewrite length_map.
    + apply Forall_forall. intros r' Hr'. apply in_map_iff in Hr'.
      destruct Hr' as (r & <- & Hr). rewrite Forall_forall in Hrows.
      now rewrite length_map, (Hrows r Hr).
    + split; [now rewrite length_map |].
      apply Forall_forall. intros r' Hr'. apply in_map_iff in Hr'.
      destruct Hr' as (r & <- & Hr). rewrite Forall_forall in L2.
      now rewrite length_map, (L2 r Hr).
Qed.

Lemma forward_shapes_witness :
  let gray := [[[0; 1]; [1; 0]]; [[0; 1]; [1; 0]]; [[0; 1]; [1; 0]]]%R in
  shape3 3 2 1 (fst (Standard_WLSLoss.forward Standard_WLSLoss.default gray)) /\
  shape3 3 1 2 (snd (Standard_WLSLoss.forward Standard_WLSLoss.default gray)).
Proof.
  intros gray. apply (@forward_shapes Standard_WLSLoss.default gray 3 2 2).
  split; [reflexivity |]. repeat constructor.
Defined.

Section WLSLossWeights.
Import Standard_WLSLoss.

Lemma rpow_nonneg x a : (0 <= rpow x a)%R.
Proof.
  unfold rpow. destruct (Req_EM_T x 0); [destruct (Req_EM_T a 0); lra |].
  left. apply exp_pos.
Qed.

Lemma wls_weight_pos epsilon alpha a b : (0 < epsilon)%R -> (0 < wls_weight epsilon alpha a b)%R.
Proof.
  intros He. unfold wls_weight.
  pose proof (rpow_nonneg (Rabs (ln (a + epsilon) - ln (b + epsilon))) alpha).
  apply Rdiv_lt_0_compat; lra.
Qed.

Lemma log_of_finite self g :
  (0 <= g)%R -> (0 < epsilon self)%R -> log_of self g = Finite (ln (g + epsilon self)).
Proof.
  intros Hg He. unfold log_of, f_log.
  destruct (Rlt_dec 0 (g + epsilon self)); [reflexivity | lra].
Qed.

Lemma ln_shift_eq eps a b :
  (0 <= a)%R -> (0 <= b)%R -> (0 < eps)%R ->
  (ln (a + eps) - ln (b + eps) = 0)%R <-> a = b.
Proof.
  intros Ha Hb He. split.
  - intros E. assert (a + eps = b + eps)%R; [apply ln_inv; lra | lra].
  - intros ->. lra.
Qed.

Lemma float32_max_pos : (1 <= float32_max)%R.
Proof. unfold float32_max. lra. Qed.

(** The power of an absolute value, before the float range is applied. *)
Lemma float_pow_abs x y :
  (0 <= y)%R \/ x <> 0%R -> float_pow (Rabs x) y = Finite (rpow (Rabs x) y).
Proof.
  intros H. unfold float_pow, rpow. pose proof (Rabs_pos x) as Hx.
  destruct (Rlt_dec 0 (Rabs x)) as [Hpos | Hnpos].
  - destruct (Req_EM_T (Rabs x) 0); [lra | reflexivity].
  - destruct (Req_EM_T (Rabs x) 0) as [E | NE]; [| lra].
    destruct H as [Hy | Hne]; [| now apply Rabs_no_R0 in Hne].
    destruct (Rlt_dec 0 y).
    + destruct (Req_EM_T y 0); [lra | reflexivity].
    + destruct (Req_EM_T y 0); [reflexivity | lra].
Qed.

(** The weight of one pair of adjacent entries: the closed form while the
    power stays in the float range, zero once it has left it. *)
Lemma weight_of_pair self a b :
  (0 <= a)%R -> (0 <= b)%R -> (0 < epsilon self)%R ->
  let x := (ln (a + epsilon self) - ln (b + epsilon self))%R in
  let d := f_sub (log_of self a) (log_of self b) in
  ((0 <= alpha self)%R \/ x <> 0%R ->
   (log_power (epsilon self) (alpha self) a b <= float32_max)%R ->
   weight_of self d = Finite (wls_weight (epsilon self) (alpha self) a b)) /\
  ((0 <= alpha self)%R \/ x <> 0%R ->
   (float32_max < log_power (epsilon self) (alpha self) a b)%R ->
   weight_of self d = Finite 0) /\
  ((alpha self < 0)%R -> x = 0%R -> weight_of self d = Finite 0).
Proof.
  intros Ha Hb He x d. subst d.
  rewrite !log_of_finite by assumption. cbn [f_sub]. fold x.
  unfold weight_of, wls_weight, log_power. fold x. cbn [f_abs f_pow].
  pose proof (rpow_nonneg (Rabs x) (alpha self)) as HP.
  pose proof float32_max_pos as HM.
  split; [| split].
  - intros H Hle. rewrite (float_pow_abs H). cbn [overflow].
    destruct (Rlt_dec float32_max (rpow (Rabs x) (alpha self))); [lra |].
    destruct (Rlt_dec (rpow (Rabs x) (alpha self)) (- float32_max)); [lra |].
    cbn [f_add_scalar f_recip].
    destruct (Req_EM_T (epsilon self + rpow (Rabs x) (alpha self)) 0); [lra | reflexivity].
  - intros H Hlt. rewrite (float_pow_abs H). cbn [overflow].
    destruct (Rlt_dec float32_max (rpow (Rabs x) (alpha self))); [reflexivity | lra].
  - intros Hal E. rewrite E, Rabs_R0. unfold float_pow.
    destruct (Rlt_dec 0 0); [lra |]. destruct (Req_EM_T 0 0); [| lra].
    destruct (Rlt_dec 0 (alpha self)); [lra |].
    destruct (Req_EM_T (alpha self) 0); [lra |]. reflexivity.
Qed.

Lemma tget_forward_horizontal self c h w (gray : tensor) ch i k :
  shape3 c h w gray -> (ch < c)%nat -> (i < h)%nat -> (k + 1 < w)%nat ->
  tget NaN (fst (forward self gray)) ch i k
  = weight_of self (f_sub (log_of self (tget 0%R gray ch i k))
                          (log_of self (tget 0%R gray ch i (k + 1)))).
Proof.
  intros Hs Hch Hi Hk. pose proof Hs as [Hc Hall]. rewrite Forall_forall in Hall.
  rewrite (forward_horizontal self Hs). unfold tget.
  destruct (Hall (nth ch gray [])) as [Hh Hrows]; [apply nth_In; lia |].
  rewrite Forall_forall in Hrows.
  assert (length (nth i (nth ch gray []) []) = w) as Hw by (apply Hrows, nth_In; lia).
  rewrite (@nth_map_lt _ _ _ gray ch [] []) by lia.
  rewrite (@nth_map_lt _ _ _ (nth ch gray []) i [] []) by lia.
  set (r := nth i (nth ch gray []) []) in *.
  rewrite (@nth_map_lt _ _ _ _ k NaN NaN) by (rewrite row_diff_length, length_map; lia).
  f_equal. unfold row_diff. rewrite length_map.
  rewrite (@nth_zip_with _ _ _ _ _ _ k NaN NaN NaN)
    by (rewrite ?length_firstn, ?length_skipn, length_map; lia).
  rewrite nth_firstn, nth_skipn.
  destruct (Nat.ltb_spec k (length r - 1)); [| lia].
  rewrite !(@nth_map_lt _ _ _ r _ NaN 0%R) by lia.
  now replace (1 + k)%nat with (k + 1)%nat by lia.
Qed.

Lemma tget_forward_vertical self c h w (gray : tensor) ch i k :
  shape3 c h w gray -> (ch < c)%nat -> (i + 1 < h)%nat -> (k < w)%nat ->
  tget NaN (snd (forward self gray)) ch i k
  = weight_of self (f_sub (log_of self (tget 0%R gray ch i k))
                          (log_of self (tget 0%R gray ch (i + 1) k))).
Proof.
  intros Hs Hch Hi Hk. pose proof Hs as [Hc Hall]. rewrite Forall_forall in Hall.
  rewrite (forward_vertical self Hs). unfold tget.
  destruct (Hall (nth ch gray [])) as [Hh Hrows]; [apply nth_In; lia |].
  rewrite Forall_forall in Hrows.
  assert (length (nth i (nth ch gray []) []) = w) as Hw by (apply Hrows, nth_In; lia).
  assert (length (nth (i + 1) (nth ch gray []) []) = w) as Hw' by (apply Hrows, nth_In; lia).
  rewrite (@nth_map_lt _ _ _ gray ch [] []) by lia.
  set (chn := nth ch gray []) in *.
  assert (length (channel_diff (map (map (log_of self)) chn)) = (h - 1)%nat) as Hl.
  { unfold channel_diff. rewrite zip_with_length, length_firstn, length_skipn, !length_map. lia. }
  rewrite (@nth_map_lt _ _ _ _ i [] []) by lia.
  unfold channel_diff. rewrite length_map.
  rewrite (@nth_zip_with _ _ _ _ _ _ i [] [] [])
    by (rewrite ?length_firstn, ?length_skipn, length_map; lia).
  rewrite nth_firstn, nth_skipn.
  destruct (Nat.ltb_spec i (length chn - 1)); [| lia].
  rewrite !(@nth_map_lt _ _ _ chn _ [] []) by lia.
  replace (1 + i)%nat with (i + 1)%nat by lia.
  rewrite (@nth_map_lt _ _ _ _ k NaN NaN) by (rewrite zip_with_length, !length_map; lia).
  f_equal.
  rewrite (@nth_zip_with _ _ _ _ _ _ k NaN NaN NaN) by (rewrite length_map; lia).
  now rewrite !(@nth_map_lt _ _ _ _ _ NaN 0%R) by lia.
Qed.

Lemma tget_nonneg (gray : tensor) ch i k :
  Forall (Forall (Forall (fun g => 0 <= g)%R)) gray -> (0 <= tget 0%R gray ch i k)%R.
Proof.
  intros H. unfold tget.
  assert (Forall (Forall (fun g => 0 <= g)%R) (nth ch gray [])) as H1.
  { destruct (Nat.lt_ge_cases ch (length gray)).
    - rewrite Forall_forall in H. apply H, nth_In. assumption.
    - rewrite nth_overflow by assumption. constructor. }
  assert (Forall (fun g => 0 <= g)%R (nth i (nth ch gray []) [])) as H2.
  { destruct (Nat.lt_ge_cases i (length (nth ch gray []))).
    - rewrite Forall_forall in H1. apply H1, nth_In. assumption.
    - rewrite nth_overflow by assumption. constructor. }
  destruct (Nat.lt_ge_cases k (length (nth i (nth ch gray []) []))).
  - rewrite Forall_forall in H2. apply H2, nth_In. assumption.
  - rewrite nth_overflow by assumption. lra.
Qed.

(** For entries in [[0, 1]], [epsilon] in [[1/1000, 1]] and
    [0 <= alpha <= 2] the power stays far inside the float range. *)
Lemma ln_le_minus_one u : (0 < u)%R -> (ln u <= u - 1)%R.
Proof.
  intros Hu. pose proof (exp_ineq1_le (ln u)) as H. rewrite exp_ln in H by assumption. lra.
Qed.

Lemma ln_ge_inverse u : (0 < u)%R -> (1 - / u <= ln u)%R.
Proof.
  intros Hu. pose proof (@ln_le_minus_one (/ u) (Rinv_0_lt_compat _ Hu)) as H.
  rewrite ln_Rinv in H by assumption. lra.
Qed.


End WLSLossWeights.




(** The overflow of the power is met with moderate entries once [alpha] is
    large: with [epsilon = 0.01] and [alpha = 200] the weight between the
    entries 0 and 1 is 0, since [|log 0.01 - log 1.01| > 2] and [2^200]
    exceeds the largest float32. *)
Lemma forward_weight_zero_on_overflow :
  let self := Standard_WLSLoss.init (1 / 100) 200 (15 / 100) in
  tget NaN (fst (Standard_WLSLoss.forward self [[[0; 1]]]%R)) 0 0 0 = Finite 0.
Proof.
  intros self.
  assert (shape3 1 1 2 [[[0; 1]]]%R) as Hs by (split; [reflexivity | repeat constructor]).
  rewrite (@tget_forward_horizontal self 1 1 2 _ 0 0 0 Hs) by lia.
  destruct (@weight_of_pair self 0 1) as (_ & W & _); try (cbn; lra).
  apply W; [left; cbn; lra |]. cbn [tget nth]. unfold log_power.
  change (Standard_WLSLoss.epsilon self) with (1 / 100)%R.
  change (Standard_WLSLoss.alpha self) with 200%R.
  set (x := (ln (0 + 1 / 100) - ln (1 + 1 / 100))%R).
  assert (2 <= Rabs x)%R as Hx.
  { assert (0 <= ln (1 + 1 / 100))%R.
    { pose proof (@ln_ge_inverse (1 + 1 / 100)%R ltac:(lra)) as H.
      assert (/ (1 + 1 / 100) <= 1)%R
        by (rewrite <- Rinv_1; apply Rinv_le_contravar; lra).
      lra. }
    assert (ln (0 + 1 / 100) < Ropp 2)%R.
    { rewrite <- (ln_exp (Ropp 2)). apply ln_increasing; [lra |].
      rewrite exp_Ropp. replace 2%R with (1 + 1)%R by lra. rewrite exp_plus.
      pose proof exp_le_3. pose proof (exp_pos 1).
      assert (exp 1 * exp 1 <= 9)%R by nra.
      assert (0 < exp 1 * exp 1)%R by nra.
      apply Rlt_le_trans with (/ 9)%R; [lra |]. apply Rinv_le_contravar; lra. }
    unfold x. rewrite Rabs_left by lra. lra. }
  unfold rpow. destruct (Req_EM_T (Rabs x) 0); [lra |].
  apply Rlt_le_trans with (Rpower 2 200).
  - replace 200%R with (INR 200) by (rewrite INR_IZR_INZ; reflexivity).
    rewrite Rpower_pow by lra. unfold Standard_WLSLoss.float32_max.
    rewrite (pow_IZR 2 200). apply IZR_lt. reflexivity.
  - apply Rle_Rpower_l; lra.
Qed.

(** ** Strictly diagonally dominant systems *)

(** [sum_{k < N} f k] *)
Fixpoint bigsum (N : nat) (f : nat -> R) : R :=
  match N with
  | O => 0%R
  | S N' => (bigsum N' f + f N')%R
  end.

(** Row [p] of a dense [N] x [N] matrix without its diagonal entry. *)
Definition off_diagonal (N : nat) (A : nat -> nat -> R) (p : nat) : R :=
  bigsum N (fun q => if (q =? p)%nat then 0%R else Rabs (A p q)).

Definition diag_dominant (N : nat) (A : nat -> nat -> R) : Prop :=
  forall p, (p < N)%nat -> (off_diagonal N A p < Rabs (A p p))%R.

Definition solution (N : nat) (A : nat -> nat -> R) (b x : nat -> R) : Prop :=
  forall p, (p < N)%nat -> bigsum N (fun q => (A p q * x q)%R) = b p.

(** One step of Gaussian elimination on the last unknown. *)
Definition eliminate (N : nat) (A : nat -> nat -> R) : nat -> nat -> R :=
  fun p q => (A p q - A p N * A N q / A N N)%R.

Definition eliminate_rhs (N : nat) (A : nat -> nat -> R) (b : nat -> R) : nat -> R :=
  fun p => (b p - A p N * b N / A N N)%R.

Section DiagonalDominance.
Local Open Scope R_scope.

Lemma bigsum_ext N f g :
  (forall k, (k < N)%nat -> f k = g k) -> bigsum N f = bigsum N g.
Proof.
  induction N as [| N IH]; intros H; cbn; [reflexivity |].
  rewrite IH, (H N) by (intros; try apply H; lia). reflexivity.
Qed.

Lemma bigsum_plus N f g :
  bigsum N (fun k => f k + g k) = bigsum N f + bigsum N g.
Proof. induction N as [| N IH]; cbn; [ring | rewrite IH; ring]. Qed.

Lemma bigsum_scal N c f : bigsum N (fun k => c * f k) = c * bigsum N f.
Proof. induction N as [| N IH]; cbn; [ring | rewrite IH; ring]. Qed.

Lemma bigsum_le N f g :
  (forall k, (k < N)%nat -> f k <= g k) -> bigsum N f <= bigsum N g.
Proof.
  induction N as [| N IH]; intros H; cbn; [lra |].
  assert (bigsum N f <= bigsum N g) by (apply IH; intros; apply H; lia).
  assert (f N <= g N) by (apply H; lia). lra.
Qed.

Lemma bigsum_nonneg N f : (forall k, (k < N)%nat -> 0 <= f k) -> 0 <= bigsum N f.
Proof.
  intros H. replace 0 with (bigsum N (fun _ => 0)).
  - now apply bigsum_le.
  - clear. induction N as [| N IH]; cbn; [reflexivity | rewrite IH; ring].
Qed.

(** Taking one term out of a sum. *)
Lemma bigsum_split N f p :
  (p < N)%nat ->
  bigsum N f = bigsum N (fun q => if (q =? p)%nat then 0 else f q) + f p.
Proof.
  induction N as [| N IH]; intros Hp; [lia |]. cbn.
  destruct (Nat.eqb_spec N p) as [-> | Hne].
  - rewrite (@bigsum_ext p (fun q => if (q =? p)%nat then 0 else f q) f).
    + ring.
    + intros k Hk. destruct (Nat.eqb_spec k p); [lia | reflexivity].
  - rewrite IH by lia. ring.
Qed.

Lemma off_diagonal_nonneg N A p : 0 <= off_diagonal N A p.
Proof.
  apply bigsum_nonneg. intros k _.
  destruct (k =? p)%nat; [lra | apply Rabs_pos].
Qed.

Lemma dominant_pivot N A : diag_dominant (S N) A -> A N N <> 0.
Proof.
  intros H E. specialize (H N ltac:(lia)).
  pose proof (off_diagonal_nonneg (S N) A N). rewrite E, Rabs_R0 in H. lra.
Qed.

(** Elimination preserves strict diagonal dominance. *)
Lemma eliminate_dominant N A :
  diag_dominant (S N) A -> diag_dominant N (eliminate N A).
Proof.
  intros H p Hp.
  pose proof (dominant_pivot H) as Ha.
  pose proof (H p ltac:(lia)) as Hrow. pose proof (H N ltac:(lia)) as Hlast.
  unfold off_diagonal in *. cbn [bigsum] in Hrow, Hlast.
  destruct (Nat.eqb_spec N p) as [? | _]; [lia |]. rewrite Nat.eqb_refl in Hlast.
  set (a := A N N) in *.
  set (Sp := bigsum N (fun q => if (q =? p)%nat then 0 else Rabs (A p q))) in *.
  assert (bigsum N (fun q => if (q =? N)%nat then 0 else Rabs (A N q))
          = bigsum N (fun q => Rabs (A N q))) as EU.
  { apply bigsum_ext. intros k Hk. destruct (Nat.eqb_spec k N); [lia | reflexivity]. }
  rewrite EU in Hlast. clear EU.
  set (U := bigsum N (fun q => Rabs (A N q))) in *.
  set (Tp := bigsum N (fun q => if (q =? p)%nat then 0 else Rabs (A N q))).
  assert (U = Tp + Rabs (A N p)) as EUT
      by (apply (@bigsum_split N (fun q => Rabs (A N q)) p Hp)).
  set (c := Rabs (A p N) / Rabs a).
  assert (0 < Rabs a) as Hapos by (apply Rabs_pos_lt; assumption).
  assert (0 <= c) as Hc.
  { unfold c. apply Rmult_le_pos; [apply Rabs_pos |].
    left. now apply Rinv_0_lt_compat. }
  assert (0 <= U) as HU by (apply bigsum_nonneg; intros; apply Rabs_pos).
  assert (c * U <= Rabs (A p N)) as HcU.
  { unfold c. replace (Rabs (A p N)) with (Rabs (A p N) / Rabs a * Rabs a) at 2
      by (field; lra).
    apply Rmult_le_compat_l; [exact Hc | lra]. }
  assert (forall q, Rabs (eliminate N A p q) <= Rabs (A p q) + c * Rabs (A N q)) as Hq.
  { intros q. unfold eliminate. fold a.
    replace (A p q - A p N * A N q / a) with (A p q + - (A p N * A N q / a)) by ring.
    eapply Rle_trans; [apply Rabs_triang |]. rewrite Rabs_Ropp.
    unfold Rdiv at 1. rewrite !Rabs_mult, Rabs_inv.
    unfold c, Rdiv. lra. }
  assert (Rabs (A p p) - c * Rabs (A N p) <= Rabs (eliminate N A p p)) as Hpp.
  { unfold eliminate. fold a.
    pose proof (Rabs_triang_inv (A p p) (A p N * A N p / a)) as T.
    unfold Rdiv at 1 in T. rewrite !Rabs_mult, Rabs_inv in T.
    unfold c, Rdiv. unfold Rdiv in T. lra. }
  assert (bigsum N (fun q => if (q =? p)%nat then 0 else Rabs (eliminate N A p q))
          <= Sp + c * Tp) as Hsum.
  { unfold Sp, Tp. rewrite <- bigsum_scal, <- bigsum_plus.
    apply bigsum_le. intros k _. destruct (k =? p)%nat; [lra | apply Hq]. }
  assert (c * U = c * Tp + c * Rabs (A N p)) by (rewrite EUT; ring).
  lra.
Qed.

Lemma eliminate_solution N A b x :
  A N N <> 0 ->
  solution (S N) A b x -> solution N (eliminate N A) (eliminate_rhs N A b) x.
Proof.
  intros Ha Hx p Hp. pose proof (Hx p ltac:(lia)) as Rp.
  pose proof (Hx N ltac:(lia)) as RN. cbn [bigsum] in Rp, RN.
  unfold eliminate, eliminate_rhs.
  rewrite (@bigsum_ext N _
             (fun q => A p q * x q + - (A p N / A N N) * (A N q * x q)))
    by (intros; field; assumption).
  rewrite bigsum_plus, bigsum_scal.
  rewrite <- Rp, <- RN. field. assumption.
Qed.

Theorem dominant_unique N : forall A b x y,
  diag_dominant N A -> solution N A b x -> solution N A b y ->
  forall q, (q < N)%nat -> x q = y q.
Proof.
  induction N as [| N IH]; intros A b x y HA Hx Hy q Hq; [lia |].
  pose proof (dominant_pivot HA) as Ha.
  assert (forall k, (k < N)%nat -> x k = y k) as Hlow.
  { apply (IH (eliminate N A) (eliminate_rhs N A b)).
    - now apply eliminate_dominant.
    - now apply eliminate_solution.
    - now apply eliminate_solution. }
  destruct (Nat.eq_dec q N) as [-> | Hne]; [| apply Hlow; lia].
  pose proof (Hx N ltac:(lia)) as Rx. pose proof (Hy N ltac:(lia)) as Ry.
  cbn [bigsum] in Rx, Ry.
  rewrite (@bigsum_ext N (fun q => A N q * x q) (fun q => A N q * y q)) in Rx
    by (intros k Hk; now rewrite Hlow).
  apply (Rmult_eq_reg_l (A N N)); [lra | assumption].
Qed.

Theorem dominant_solvable N : forall A b,
  diag_dominant N A -> exists x, solution N A b x.
Proof.
  induction N as [| N IH]; intros A b HA.
  - exists (fun _ => 0). intros p Hp. lia.
  - pose proof (dominant_pivot HA) as Ha.
    destruct (IH (eliminate N A) (eliminate_rhs N A b) (eliminate_dominant HA))
      as (x' & Hx').
    set (xN := (b N - bigsum N (fun q => A N q * x' q)) / A N N).
    exists (fun q => if (q =? N)%nat then xN else x' q).
    intros p Hp. cbn [bigsum]. rewrite Nat.eqb_refl.
    rewrite (@bigsum_ext N _ (fun q => A p q * x' q))
      by (intros k Hk; destruct (Nat.eqb_spec k N); [lia | reflexivity]).
    destruct (Nat.eq_dec p N) as [-> | Hne].
    + unfold xN. field. assumption.
    + specialize (Hx' p ltac:(lia)). unfold eliminate, eliminate_rhs in Hx'.
      rewrite (@bigsum_ext N _
                 (fun q => A p q * x' q + - (A p N / A N N) * (A N q * x' q))) in Hx'
        by (intros; field; assumption).
      rewrite bigsum_plus, bigsum_scal in Hx'.
      unfold xN.
      set (S1 := bigsum N (fun q => A p q * x' q)) in *.
      set (S2 := bigsum N (fun q => A N q * x' q)) in *.
      replace S1 with (b p - A p N * b N / A N N - - (A p N / A N N) * S2) by lra.
      field. assumption.
Qed.

End DiagonalDominance.

(** ** Sparse matrices as dense ones *)

(** The dense [N] x [N] view of a sparse matrix. *)
Definition dense (M : csr) : nat -> nat -> R :=
  fun p q => csr_get M (Z.of_nat p) (Z.of_nat q).

Definition square (N : nat) (M : csr) : Prop :=
  nrow M = Z.of_nat N /\ ncol M = Z.of_nat N.

Section SparseFacts.
Local Open Scope R_scope.

Lemma Rsum_nil : Rsum [] = 0.
Proof. reflexivity. Qed.

Lemma Rsum_cons x l : Rsum (x :: l) = x + Rsum l.
Proof. reflexivity. Qed.

Lemma Rsum_app a b : Rsum (a ++ b) = Rsum a + Rsum b.
Proof.
  induction a as [| x a IH]; cbn [app]; rewrite ?Rsum_cons, ?Rsum_nil;
    [ring | rewrite IH; ring].
Qed.

Lemma Rsum_map_plus {A : Type} (f g : A -> R) l :
  Rsum (map (fun x => f x + g x) l) = Rsum (map f l) + Rsum (map g l).
Proof.
  induction l as [| x l IH]; cbn [map]; rewrite ?Rsum_cons, ?Rsum_nil;
    [ring | rewrite IH; ring].
Qed.

Lemma Rsum_map_scal {A : Type} c (f : A -> R) l :
  Rsum (map (fun x => c * f x) l) = c * Rsum (map f l).
Proof.
  induction l as [| x l IH]; cbn [map]; rewrite ?Rsum_cons, ?Rsum_nil;
    [ring | rewrite IH; ring].
Qed.

Lemma Rsum_map_zero {A : Type} (l : list A) : Rsum (map (fun _ => 0) l) = 0.
Proof.
  induction l as [| x l IH]; cbn [map]; rewrite ?Rsum_cons, ?Rsum_nil;
    [reflexivity | rewrite IH; ring].
Qed.

Lemma Rsum_map_le {A : Type} (f g : A -> R) l :
  (forall x, In x l -> f x <= g x) -> Rsum (map f l) <= Rsum (map g l).
Proof.
  induction l as [| x l IH]; intros H; cbn [map]; rewrite ?Rsum_cons, ?Rsum_nil; [lra |].
  assert (f x <= g x) by (apply H; now left).
  assert (Rsum (map f l) <= Rsum (map g l)) by (apply IH; intros; apply H; now right).
  lra.
Qed.

Lemma Rsum_abs l : Rabs (Rsum l) <= Rsum (map Rabs l).
Proof.
  induction l as [| x l IH]; cbn [map]; rewrite ?Rsum_cons, ?Rsum_nil;
    [rewrite Rabs_R0; lra |].
  eapply Rle_trans; [apply Rabs_triang | lra].
Qed.

Lemma Rsum_range N f :
  Rsum (map f (range (Z.of_nat N))) = bigsum N (fun k => f (Z.of_nat k)).
Proof.
  induction N as [| N IH]; [reflexivity |].
  replace (Z.of_nat (S N)) with (Z.of_nat N + 1)%Z by lia.
  rewrite range_succ by lia. rewrite map_app, Rsum_app, IH.
  cbn [map bigsum]. rewrite Rsum_cons, Rsum_nil. ring.
Qed.

(** A sum of [v] at one index of a duplicate-free list. *)
Lemma Rsum_indicator (c : Z) (v : R) l :
  NoDup l -> In c l -> Rsum (map (fun q => if (c =? q)%Z then v else 0) l) = v.
Proof.
  induction l as [| a l IH]; intros Hnd Hin; [destruct Hin |].
  inversion Hnd as [| ? ? Hnot Hnd']; subst. cbn [map]. rewrite Rsum_cons.
  destruct (Z.eqb_spec c a) as [-> | Hne].
  - rewrite (map_ext_in _ (fun _ => 0)), Rsum_map_zero; [ring |].
    intros q Hq. destruct (Z.eqb_spec a q); [subst; contradiction | reflexivity].
  - rewrite IH; [ring | assumption |]. destruct Hin; [congruence | assumption].
Qed.

(** Summing the entries column by column counts every entry once. *)
Lemma Rsum_by_column (v : Z * Z * R -> R) (T : list (Z * Z * R)) N :
  (forall t, In t T -> (0 <= snd (fst t) < N)%Z) ->
  Rsum (map (fun q => Rsum (map v (filter (fun t => (snd (fst t) =? q)%Z) T))) (range N))
  = Rsum (map v T).
Proof.
  induction T as [| t T IH]; intros Hcol.
  - cbn [filter map]. rewrite Rsum_nil. apply Rsum_map_zero.
  - cbn [filter].
    rewrite (map_ext _ (fun q => (if (snd (fst t) =? q)%Z then v t else 0)
                                 + Rsum (map v (filter (fun t => (snd (fst t) =? q)%Z) T)))).
    + rewrite Rsum_map_plus, IH by (intros; apply Hcol; now right).
      rewrite Rsum_indicator; [reflexivity | apply range_nodup |].
      apply in_range_iff, Hcol. now left.
    + intros q. destruct (snd (fst t) =? q)%Z; cbn [map]; rewrite ?Rsum_cons; ring.
Qed.

Lemma matvec_nth M x p :
  (0 <= p < nrow M)%Z ->
  nth (Z.to_nat p) (matvec M x) 0
  = Rsum (map (fun q => csr_get M p q * nth (Z.to_nat q) x 0) (range (ncol M))).
Proof.
  intros Hp. unfold matvec.
  rewrite (@nth_map_lt _ _ _ _ _ _ 0%Z) by (rewrite range_length; lia).
  rewrite nth_range by lia. now rewrite Z2Nat.id by lia.
Qed.

Lemma matvec_length M x : length (matvec M x) = Z.to_nat (nrow M).
Proof. unfold matvec. now rewrite length_map, range_length. Qed.

Lemma solves_solution N M b x :
  square N M -> length b = N ->
  solves M b x <->
  length x = N /\
  solution N (dense M) (fun p => nth p b 0) (fun q => nth q x 0).
Proof.
  intros [Hr Hc] Hb. unfold solves, solution. split.
  - intros [Hl E]. split; [congruence |]. intros p Hp.
    rewrite <- E.
    replace (nth p (matvec M x) 0) with (nth (Z.to_nat (Z.of_nat p)) (matvec M x) 0)
      by (now rewrite Nat2Z.id).
    rewrite matvec_nth by lia. rewrite Hc, Rsum_range. symmetry.
    apply bigsum_ext. intros k _. unfold dense. now rewrite Nat2Z.id.
  - intros [Hl H]. split; [congruence |].
    apply (list_ext 0); [rewrite matvec_length; lia |].
    intros p Hp. rewrite matvec_length in Hp.
    replace (nth p (matvec M x) 0) with (nth (Z.to_nat (Z.of_nat p)) (matvec M x) 0)
      by (now rewrite Nat2Z.id).
    rewrite matvec_nth by lia. rewrite Hc, Rsum_range, <- H by lia.
    apply bigsum_ext. intros k _. unfold dense. now rewrite Nat2Z.id.
Qed.

(** A strictly diagonally dominant sparse system has exactly one solution. *)
Theorem dominant_unique_solution N M b :
  square N M -> diag_dominant N (dense M) -> length b = N ->
  exists! x, solves M b x.
Proof.
  intros Hsq Hdom Hb.
  destruct (@dominant_solvable N (dense M) (fun p => nth p b 0) Hdom) as (xf & Hxf).
  exists (map xf (seq 0 N)). split.
  - apply (@solves_solution N M b _ Hsq Hb). split; [now rewrite length_map, length_seq |].
    intros p Hp. rewrite <- (Hxf p Hp). apply bigsum_ext. intros k Hk.
    rewrite (@nth_map_lt _ _ _ _ _ _ 0%nat) by (rewrite length_seq; lia).
    now rewrite seq_nth by lia.
  - intros y Hy. apply (@solves_solution N M b _ Hsq Hb) in Hy. destruct Hy as [Hl Hy].
    apply (list_ext 0); [rewrite length_map, length_seq; lia |].
    intros k Hk. rewrite length_map, length_seq in Hk.
    rewrite (@nth_map_lt _ _ _ _ _ _ 0%nat) by (rewrite length_seq; lia).
    rewrite seq_nth by lia. cbn.
    apply (@dominant_unique N (dense M) (fun p => nth p b 0) xf (fun q => nth q y 0));
      assumption.
Qed.

(** [spsolve] on such a system returns that solution. *)
Lemma spsolve_dominant N M b :
  square N M -> diag_dominant N (dense M) -> length b = N ->
  exists x, spsolve M b = Returned x /\ solves M b x.
Proof.
  intros Hsq Hdom Hb. pose proof Hsq as [Hr Hc]. unfold spsolve.
  rewrite Hr, Hc, Hb, !Z.eqb_refl. cbn [andb negb].
  destruct (excluded_middle_informative (exists! x, solves M b x)) as [H | H].
  - eexists. split; [reflexivity |].
    apply (proj2_sig (constructive_definite_description _ H)).
  - exfalso. apply H. now apply (@dominant_unique_solution N).
Qed.

Lemma spsolve_is_the_solution N M b x :
  square N M -> diag_dominant N (dense M) -> length b = N ->
  solves M b x -> spsolve M b = Returned x.
Proof.
  intros Hsq Hdom Hb Hx.
  destruct (@spsolve_dominant N M b Hsq Hdom Hb) as (y & E & Hy). rewrite E. f_equal.
  destruct (@dominant_unique_solution N M b Hsq Hdom Hb) as (z & _ & Hz).
  now rewrite <- (Hz x Hx), <- (Hz y Hy).
Qed.

End SparseFacts.

(** ** The assembled Laplacian *)

(** [wx[k, l] if x else wy[k, l]] for a dictionary entry. *)
Definition edge_weight (Wx Wy : grid) (e : entry) : R :=
  let '(_, (k, l, x)) := e in item0 (if (x =? 0)%Z then Wy else Wx) k l.

(** The running value of [diag] after the inner loop. *)
Definition diag_value (Wx Wy : grid) (d : dict) : R :=
  fold_left Rplus (map (edge_weight Wx Wy) d) 0%R.

(** The coordinate triples appended while visiting pixel [p]. *)
Definition off_triples (Wx Wy : grid) (p : Z) (d : dict) : list (Z * Z * R) :=
  map (fun e => (p, fst e, (- edge_weight Wx Wy e)%R)) d.

Definition pixel_triples (Wx Wy : grid) (n m p : Z) : list (Z * Z * R) :=
  off_triples Wx Wy p (neighbor_dict p n m)
  ++ [(p, p, diag_value Wx Wy (neighbor_dict p n m))].

Definition laplacian (Wx Wy : grid) (n m : Z) : csr :=
  {| nrow := n * m; ncol := n * m;
     triples := flat_map (pixel_triples Wx Wy n m) (range (n * m)) |}.

(** [Id + lambda_ * F] *)
Definition system_matrix (lambda_ : R) (F : csr) : csr :=
  {| nrow := nrow F; ncol := ncol F;
     triples := triples (diags (map (fun _ => 1%R) (range (nrow F))))
                ++ triples (csr_scale lambda_ F) |}.

Section LaplacianFacts.
Local Open Scope R_scope.

Lemma fold_left_Rplus l a : fold_left Rplus l a = a + Rsum l.
Proof.
  revert a. induction l as [| x l IH]; intros a; cbn [fold_left].
  - rewrite Rsum_nil. ring.
  - rewrite IH, Rsum_cons. ring.
Qed.

Lemma diag_value_sum Wx Wy d : diag_value Wx Wy d = Rsum (map (edge_weight Wx Wy) d).
Proof. unfold diag_value. rewrite fold_left_Rplus. ring. Qed.

(** Entries of other rows do not contribute to row [p]. *)
Lemma filter_rows (g : Z -> list (Z * Z * R)) p q l :
  (forall k t, In t (g k) -> fst (fst t) = k) -> NoDup l ->
  filter (fun t => ((fst (fst t) =? p) && (snd (fst t) =? q))%Z) (flat_map g l)
  = if existsb (Z.eqb p) l
    then filter (fun t => (snd (fst t) =? q)%Z) (g p) else [].
Proof.
  intros Hrow. induction l as [| a l IH]; intros Hnd; [reflexivity |].
  inversion Hnd as [| ? ? Hnot Hnd']; subst.
  cbn [flat_map existsb]. rewrite filter_app, IH by assumption.
  destruct (Z.eqb_spec p a) as [-> | Hne]; cbn [orb].
  - assert (existsb (Z.eqb a) l = false) as ->.
    { destruct (existsb (Z.eqb a) l) eqn:E; [| reflexivity].
      apply existsb_eqb_in in E. contradiction. }
    rewrite app_nil_r. apply filter_ext_in. intros t Ht.
    rewrite (Hrow a t Ht), Z.eqb_refl. reflexivity.
  - rewrite (@filter_ext_in _ _ (fun _ => false) (g a)), filter_false; [reflexivity |].
    intros t Ht. rewrite (Hrow a t Ht).
    destruct (Z.eqb_spec a p); [congruence | reflexivity].
Qed.

Lemma pixel_triples_row Wx Wy n m k t :
  In t (pixel_triples Wx Wy n m k) -> fst (fst t) = k.
Proof.
  unfold pixel_triples, off_triples. rewrite in_app_iff, in_map_iff.
  intros [(e & <- & _) | [<- | []]]; reflexivity.
Qed.

Lemma neighbor_key_range p n m q :
  (0 < m)%Z -> (0 <= p < n * m)%Z -> In q (keys (neighbor_dict p n m)) ->
  (0 <= q < n * m)%Z /\ q <> p.
Proof.
  intros Hm Hp Hin. unfold keys in Hin. apply in_map_iff in Hin.
  destruct Hin as ([q' [[k l] x]] & E & Hin). cbn in E. subst q'.
  destruct (@neighbor_cell p n m q k l x Hm Hp Hin) as (Hq & _ & _ & C).
  split; [assumption |]. intros ->. lia.
Qed.

Lemma pixel_triples_col Wx Wy n m p t :
  (0 < m)%Z -> (0 <= p < n * m)%Z ->
  In t (pixel_triples Wx Wy n m p) -> (0 <= snd (fst t) < n * m)%Z.
Proof.
  intros Hm Hp. unfold pixel_triples, off_triples. rewrite in_app_iff, in_map_iff.
  intros [(e & <- & He) | [<- | []]]; cbn [fst snd]; [| assumption].
  apply (@neighbor_key_range p n m (fst e) Hm Hp). unfold keys. now apply in_map.
Qed.

Lemma laplacian_row Wx Wy n m p q :
  (0 <= p < n * m)%Z ->
  csr_get (laplacian Wx Wy n m) p q
  = Rsum (map snd (filter (fun t => (snd (fst t) =? q)%Z) (pixel_triples Wx Wy n m p))).
Proof.
  intros Hp. unfold csr_get, laplacian. cbn [triples].
  rewrite filter_rows; [| apply pixel_triples_row | apply range_nodup].
  assert (existsb (Z.eqb p) (range (n * m)) = true) as ->
      by (now apply existsb_eqb_in, in_range_iff).
  reflexivity.
Qed.

Lemma Rsum_map_opp {A : Type} (f : A -> R) l :
  Rsum (map (fun x => - f x) l) = - Rsum (map f l).
Proof.
  induction l as [| x l IH]; cbn [map]; rewrite ?Rsum_cons, ?Rsum_nil;
    [ring | rewrite IH; ring].
Qed.

Lemma pixel_triples_total Wx Wy n m p : Rsum (map snd (pixel_triples Wx Wy n m p)) = 0.
Proof.
  unfold pixel_triples, off_triples.
  rewrite map_app, Rsum_app, map_map. cbn [map snd].
  rewrite Rsum_map_opp, Rsum_cons, Rsum_nil, diag_value_sum. ring.
Qed.

(** Every row of the assembled matrix sums to zero. *)
Lemma laplacian_row_sum Wx Wy n m p :
  (0 < m)%Z -> (0 <= p < n * m)%Z ->
  Rsum (map (csr_get (laplacian Wx Wy n m) p) (range (n * m))) = 0.
Proof.
  intros Hm Hp.
  rewrite (map_ext _ _ (fun q => @laplacian_row Wx Wy n m p q Hp)).
  rewrite (@Rsum_by_column snd); [apply pixel_triples_total |].
  intros t. now apply pixel_triples_col.
Qed.

Lemma off_triples_filter_self Wx Wy n m p :
  (0 < m)%Z -> (0 <= p < n * m)%Z ->
  filter (fun t => (snd (fst t) =? p)%Z) (off_triples Wx Wy p (neighbor_dict p n m)) = [].
Proof.
  intros Hm Hp.
  rewrite (@filter_ext_in _ _ (fun _ => false)), filter_false; [reflexivity |].
  intros t Ht. unfold off_triples in Ht. apply in_map_iff in Ht.
  destruct Ht as (e & <- & He). cbn [fst snd].
  destruct (Z.eqb_spec (fst e) p) as [E | _]; [| reflexivity].
  exfalso. apply (@neighbor_key_range p n m (fst e) Hm Hp); [| exact E].
  unfold keys. now apply in_map.
Qed.

Lemma laplacian_diag Wx Wy n m p :
  (0 < m)%Z -> (0 <= p < n * m)%Z ->
  csr_get (laplacian Wx Wy n m) p p
  = Rsum (map (edge_weight Wx Wy) (neighbor_dict p n m)).
Proof.
  intros Hm Hp. rewrite laplacian_row by assumption. unfold pixel_triples.
  rewrite filter_app, off_triples_filter_self by assumption.
  cbn [filter fst snd app]. rewrite Z.eqb_refl. cbn [map snd].
  rewrite Rsum_cons, Rsum_nil, diag_value_sum. ring.
Qed.

Lemma laplacian_off_diag Wx Wy n m p q :
  (0 <= p < n * m)%Z -> q <> p ->
  csr_get (laplacian Wx Wy n m) p q
  = Rsum (map snd (filter (fun t => (snd (fst t) =? q)%Z)
                          (off_triples Wx Wy p (neighbor_dict p n m)))).
Proof.
  intros Hp Hne. rewrite laplacian_row by assumption. unfold pixel_triples.
  rewrite filter_app. cbn [filter fst snd].
  destruct (Z.eqb_spec p q); [congruence |]. now rewrite app_nil_r.
Qed.

End LaplacianFacts.

(** ** The linear system [Id + lambda_ * F] *)

Definition nonneg_grid (W : grid) : Prop := forall i j, (0 <= item0 W i j)%R.

Section SystemFacts.
Local Open Scope R_scope.

Lemma Rsum_filter {A : Type} (v : A -> R) (f : A -> bool) l :
  Rsum (map v (filter f l)) = Rsum (map (fun t => if f t then v t else 0) l).
Proof.
  induction l as [| x l IH]; [reflexivity |]. cbn [filter map].
  destruct (f x); cbn [map]; rewrite !Rsum_cons, IH; ring.
Qed.

Lemma combine_diag (l : list Z) :
  combine (combine l l) (map (fun _ => 1) l) = map (fun k => (k, k, 1)) l.
Proof. induction l as [| k l IH]; cbn; [reflexivity | now rewrite IH]. Qed.

Lemma csr_get_identity N p q :
  (0 <= N)%Z ->
  csr_get (diags (map (fun _ => 1) (range N))) p q
  = if ((p =? q) && in_range N p)%Z then 1 else 0.
Proof.
  intros HN. unfold csr_get, diags. cbn [triples].
  rewrite length_map, range_length, Z2Nat.id, combine_diag by assumption.
  rewrite Rsum_filter, map_map. cbn [fst snd].
  destruct (Z.eqb_spec p q) as [<- | Hne]; cbn [andb].
  - unfold in_range. destruct (Z.leb_spec 0 p); destruct (Z.ltb_spec p N); cbn [andb].
    + rewrite (map_ext _ (fun k => if (p =? k)%Z then 1 else 0)).
      * apply Rsum_indicator; [apply range_nodup | apply in_range_iff; lia].
      * intros k. rewrite (Z.eqb_sym k p). now destruct (p =? k)%Z.
    + rewrite (map_ext_in _ (fun _ => 0)); [apply Rsum_map_zero |].
      intros k Hk. apply in_range_iff in Hk.
      destruct (Z.eqb_spec k p); [lia | reflexivity].
    + rewrite (map_ext_in _ (fun _ => 0)); [apply Rsum_map_zero |].
      intros k Hk. apply in_range_iff in Hk.
      destruct (Z.eqb_spec k p); [lia | reflexivity].
    + rewrite (map_ext_in _ (fun _ => 0)); [apply Rsum_map_zero |].
      intros k Hk. apply in_range_iff in Hk.
      destruct (Z.eqb_spec k p); [lia | reflexivity].
  - rewrite (map_ext _ (fun _ => 0)); [apply Rsum_map_zero |].
    intros k. destruct (Z.eqb_spec k p); destruct (Z.eqb_spec k q); cbn; congruence.
Qed.

Lemma csr_get_scale c M p q : csr_get (csr_scale c M) p q = c * csr_get M p q.
Proof.
  unfold csr_get, csr_scale. cbn [triples].
  rewrite !Rsum_filter, map_map. cbn [fst snd].
  rewrite <- Rsum_map_scal. f_equal. apply map_ext. intros t.
  destruct ((fst (fst t) =? p)%Z && (snd (fst t) =? q)%Z); ring.
Qed.

Lemma csr_get_system lambda_ F p q :
  (0 <= nrow F)%Z ->
  csr_get (system_matrix lambda_ F) p q
  = (if ((p =? q) && in_range (nrow F) p)%Z then 1 else 0) + lambda_ * csr_get F p q.
Proof.
  intros HN. rewrite <- csr_get_scale, <- csr_get_identity by assumption.
  unfold csr_get, system_matrix. cbn [triples].
  now rewrite filter_app, map_app, Rsum_app.
Qed.

Lemma edge_weight_nonneg Wx Wy e :
  nonneg_grid Wx -> nonneg_grid Wy -> 0 <= edge_weight Wx Wy e.
Proof.
  intros Hx Hy. destruct e as [q [[k l] x]]. unfold edge_weight.
  destruct (x =? 0)%Z; [apply Hy | apply Hx].
Qed.

Lemma Rsum_map_nonneg {A : Type} (f : A -> R) l :
  (forall x, 0 <= f x) -> 0 <= Rsum (map f l).
Proof.
  intros H. induction l as [| x l IH]; cbn [map]; rewrite ?Rsum_cons, ?Rsum_nil; [lra |].
  specialize (H x). lra.
Qed.

(** With non-negative weights and [lambda_ >= 0] every row of
    [Id + lambda_ * F] is strictly dominated by its diagonal entry. *)
Lemma system_matrix_dominant Wx Wy n m lambda_ :
  (0 < m)%Z -> (0 <= n)%Z -> nonneg_grid Wx -> nonneg_grid Wy -> 0 <= lambda_ ->
  diag_dominant (Z.to_nat (n * m))
                (dense (system_matrix lambda_ (laplacian Wx Wy n m))).
Proof.
  intros Hm Hn Hx Hy Hl p Hp.
  set (F := laplacian Wx Wy n m).
  set (P := Z.of_nat p).
  assert (0 <= P < n * m)%Z as HP by (unfold P; lia).
  assert (0 <= nrow F)%Z as HN by (cbn; lia).
  set (d := neighbor_dict P n m).
  set (D := Rsum (map (edge_weight Wx Wy) d)).
  assert (0 <= D) as HD by (apply Rsum_map_nonneg; intros; now apply edge_weight_nonneg).
  set (X := fun Q => Rsum (map (fun t => Rabs (snd t))
                    (filter (fun t => (snd (fst t) =? Q)%Z) (off_triples Wx Wy P d)))).
  assert (forall Q, 0 <= X Q) as HX
      by (intros Q; apply Rsum_map_nonneg; intros; apply Rabs_pos).
  assert (off_diagonal (Z.to_nat (n * m)) (dense (system_matrix lambda_ F)) p
          <= lambda_ * D) as Hoff.
  { unfold off_diagonal.
    apply Rle_trans with (bigsum (Z.to_nat (n * m)) (fun q => lambda_ * X (Z.of_nat q))).
    - apply bigsum_le. intros q Hq.
      destruct (Nat.eqb_spec q p) as [-> | Hne].
      + apply Rmult_le_pos; [assumption | apply HX].
      + unfold dense. fold P. rewrite csr_get_system by assumption.
        destruct (Z.eqb_spec P (Z.of_nat q)) as [E | _]; [unfold P in E; lia |].
        cbn [andb]. rewrite Rplus_0_l, Rabs_mult, (Rabs_pos_eq lambda_) by assumption.
        apply Rmult_le_compat_l; [assumption |].
        unfold F. rewrite laplacian_off_diag by (unfold P in *; lia).
        fold d. unfold X. rewrite <- (map_map snd Rabs). apply Rsum_abs.
    - rewrite <- (@Rsum_range (Z.to_nat (n * m)) (fun Q => lambda_ * X Q)).
      rewrite Z2Nat.id by lia. rewrite Rsum_map_scal.
      apply Rmult_le_compat_l; [assumption |].
      unfold X. rewrite (@Rsum_by_column (fun t => Rabs (snd t))).
      + unfold off_triples. rewrite map_map. cbn [snd]. right. unfold D.
        f_equal. apply map_ext. intros e. rewrite Rabs_Ropp.
        apply Rabs_pos_eq. now apply edge_weight_nonneg.
      + intros t Ht. apply (@pixel_triples_col Wx Wy n m P t Hm HP).
        unfold pixel_triples. apply in_or_app. now left. }
  unfold dense at 2. fold P. rewrite csr_get_system by assumption.
  rewrite Z.eqb_refl. unfold in_range. cbn [nrow F laplacian].
  destruct (Z.leb_spec 0 P); [| lia]. destruct (Z.ltb_spec P (n * m)); [| lia].
  cbn [andb]. unfold F. rewrite laplacian_diag by assumption. fold d. fold D.
  assert (0 <= lambda_ * D) by (now apply Rmult_le_pos).
  rewrite Rabs_pos_eq by lra. fold F. lra.
Qed.

Lemma system_matrix_square lambda_ Wx Wy n m :
  (0 <= n * m)%Z ->
  square (Z.to_nat (n * m)) (system_matrix lambda_ (laplacian Wx Wy n m)).
Proof. intros H. split; cbn; lia. Qed.

End SystemFacts.

(** ** Running heap programs *)

(** The three coordinate lists holding the triples [T]. *)
Definition buffers (T : list (Z * Z * R)) : list obj :=
  [IntList (map (fun t => fst (fst t)) T);
   IntList (map (fun t => snd (fst t)) T);
   FloatList (map snd T)].

(** The in-place updates made while appending the triples [T] to the lists
    at [r], [r + 1] and [r + 2]. *)
Definition appends (r : ref) (T : list (Z * Z * R)) : list ref :=
  flat_map (fun _ => [r; S r; S (S r)]) T.

(** The state during lines 90-100: heap [h] followed by the three lists. *)
Definition building (h : list obj) (lg : list ref) (T : list (Z * Z * R)) : state :=
  {| heap := h ++ buffers T; log := lg ++ appends (length h) T |}.

Section HeapFacts.
Local Open Scope heap_scope.

Lemma bind_returned {A B : Type} (c : M A) (f : A -> M B) s a s' :
  c s = Returned (a, s') -> bind c f s = f a s'.
Proof. intros E. unfold bind. now rewrite E. Qed.

Lemma bind_inv {A B : Type} (c : M A) (f : A -> M B) s b s2 :
  bind c f s = Returned (b, s2) ->
  exists a s1, c s = Returned (a, s1) /\ f a s1 = Returned (b, s2).
Proof.
  unfold bind. destruct (c s) as [[a s1] | e]; [| discriminate].
  intros E. now exists a, s1.
Qed.

Lemma lookup_app_l (h t : list obj) r o :
  nth_error h r = Some o -> nth_error (h ++ t) r = Some o.
Proof.
  intros E. rewrite nth_error_app1; [assumption |].
  apply nth_error_Some. congruence.
Qed.

Lemma lookup_snoc (h : list obj) o : nth_error (h ++ [o]) (length h) = Some o.
Proof. rewrite nth_error_app2, Nat.sub_diag by lia. reflexivity. Qed.

Lemma lookup_app_r (h t : list obj) k :
  nth_error (h ++ t) (length h + k) = nth_error t k.
Proof. rewrite nth_error_app2 by lia. f_equal. lia. Qed.

Lemma list_set_app_r {A : Type} (h t : list A) k v :
  list_set (h ++ t) (length h + k) v = h ++ list_set t k v.
Proof. induction h as [| x h IH]; cbn; [reflexivity | now rewrite IH]. Qed.

Lemma load_ndarray_run s r g :
  nth_error (heap s) r = Some (Ndarray g) -> load_ndarray r s = Returned (g, s).
Proof. intros E. unfold load_ndarray, bind, load. now rewrite E. Qed.

Lemma load_ndarray1_run s r v :
  nth_error (heap s) r = Some (Ndarray1 v) -> load_ndarray1 r s = Returned (v, s).
Proof. intros E. unfold load_ndarray1, bind, load. now rewrite E. Qed.

Lemma load_ints_run s r l :
  nth_error (heap s) r = Some (IntList l) -> load_ints r s = Returned (l, s).
Proof. intros E. unfold load_ints, bind, load. now rewrite E. Qed.

Lemma load_floats_run s r l :
  nth_error (heap s) r = Some (FloatList l) -> load_floats r s = Returned (l, s).
Proof. intros E. unfold load_floats, bind, load. now rewrite E. Qed.

Lemma load_sparse_run s r A :
  nth_error (heap s) r = Some (Sparse A) -> load_sparse r s = Returned (A, s).
Proof. intros E. unfold load_sparse, bind, load. now rewrite E. Qed.

(** A library call on one array. *)
Lemma unary_run (f : grid -> outcome grid) s a g r :
  nth_error (heap s) a = Some (Ndarray g) -> f g = Returned r ->
  (g <- load_ndarray a ;; r <- lift (f g) ;; alloc (Ndarray r)) s
  = Returned (length (heap s), {| heap := heap s ++ [Ndarray r]; log := log s |}).
Proof.
  intros E F. rewrite (@bind_returned _ _ _ _ _ _ _ (@load_ndarray_run s a g E)).
  unfold bind, lift. now rewrite F.
Qed.

(** A library call on two arrays. *)
Lemma binary_run (f : grid -> grid -> outcome grid) s a b g h r :
  nth_error (heap s) a = Some (Ndarray g) ->
  nth_error (heap s) b = Some (Ndarray h) -> f g h = Returned r ->
  (g <- load_ndarray a ;; h <- load_ndarray b ;; r <- lift (f g h) ;; alloc (Ndarray r)) s
  = Returned (length (heap s), {| heap := heap s ++ [Ndarray r]; log := log s |}).
Proof.
  intros E E' F. rewrite (@bind_returned _ _ _ _ _ _ _ (@load_ndarray_run s a g E)).
  rewrite (@bind_returned _ _ _ _ _ _ _ (@load_ndarray_run s b h E')).
  unfold bind, lift. now rewrite F.
Qed.

Lemma append_int_at h (t : list obj) lg r k l z :
  r = (length h + k)%nat -> nth_error t k = Some (IntList l) ->
  append_int r z {| heap := h ++ t; log := lg |}
  = Returned (tt, {| heap := h ++ list_set t k (IntList (l ++ [z])); log := lg ++ [r] |}).
Proof.
  intros -> E. unfold append_int. cbn [heap log].
  now rewrite lookup_app_r, E, list_set_app_r.
Qed.

Lemma append_float_at h (t : list obj) lg r k l x :
  r = (length h + k)%nat -> nth_error t k = Some (FloatList l) ->
  append_float r x {| heap := h ++ t; log := lg |}
  = Returned (tt, {| heap := h ++ list_set t k (FloatList (l ++ [x])); log := lg ++ [r] |}).
Proof.
  intros -> E. unfold append_float. cbn [heap log].
  now rewrite lookup_app_r, E, list_set_app_r.
Qed.

(** Appending one triple to the three lists. *)
Lemma push_triple h lg T p q v (k : M R) :
  (append_int (length h) p ;; append_int (S (length h)) q ;;
   append_float (S (S (length h))) v ;; k) (building h lg T)
  = k (building h lg (T ++ [(p, q, v)])).
Proof.
  unfold building, buffers.
  erewrite bind_returned; [| apply (@append_int_at h _ _ _ 0%nat); [lia | reflexivity]].
  cbn [list_set].
  erewrite bind_returned; [| apply (@append_int_at h _ _ _ 1%nat); [lia | reflexivity]].
  cbn [list_set].
  erewrite bind_returned; [| apply (@append_float_at h _ _ _ 2%nat); [lia | reflexivity]].
  cbn [list_set]. f_equal. unfold appends.
  rewrite !map_app, flat_map_app. cbn [map flat_map fst snd app].
  rewrite <- !app_assoc. reflexivity.
Qed.

End HeapFacts.

(** ** Running the Laplacian assembly *)

Section AssemblyRun.
Local Open Scope heap_scope.

Lemma getitem_in_range n m W k l :
  rect n m W -> (0 <= k < Z.of_nat n)%Z -> (0 <= l < Z.of_nat m)%Z ->
  getitem W k l = Returned (item0 W k l).
Proof.
  intros Hr Hk Hl. unfold getitem. rewrite (shape_rect Hr) by lia.
  destruct (Z.leb_spec (- Z.of_nat n) k); [| lia].
  destruct (Z.ltb_spec k (Z.of_nat n)); [| lia].
  destruct (Z.leb_spec (- Z.of_nat m) l); [| lia].
  destruct (Z.ltb_spec l (Z.of_nat m)); [| lia].
  cbn [andb]. destruct (Z.ltb_spec k 0); [lia |]. destruct (Z.ltb_spec l 0); [lia |].
  reflexivity.
Qed.

Lemma ndarray_getitem_run s a g k l v :
  nth_error (heap s) a = Some (Ndarray g) -> getitem g k l = Returned v ->
  ndarray_getitem a k l s = Returned (v, s).
Proof.
  intros E G. unfold ndarray_getitem.
  rewrite (@bind_returned _ _ _ _ _ _ _ (@load_ndarray_run s a g E)).
  unfold lift. now rewrite G.
Qed.

Lemma push_triple_last h lg T p q v :
  (append_int (length h) p ;; append_int (S (length h)) q ;;
   append_float (S (S (length h))) v) (building h lg T)
  = Returned (tt, building h lg (T ++ [(p, q, v)])).
Proof.
  unfold building, buffers.
  erewrite bind_returned; [| apply (@append_int_at h _ _ _ 0%nat); [lia | reflexivity]].
  cbn [list_set].
  erewrite bind_returned; [| apply (@append_int_at h _ _ _ 1%nat); [lia | reflexivity]].
  cbn [list_set].
  erewrite (@append_float_at h _ _ _ 2%nat); [| lia | reflexivity].
  cbn [list_set]. do 2 f_equal. unfold appends.
  rewrite !map_app, flat_map_app. cbn [map flat_map fst snd app].
  rewrite <- !app_assoc. reflexivity.
Qed.

Variables (h : list obj) (lg : list ref) (wx wy : ref) (Wx Wy : grid) (n m : nat).
Hypothesis Hwx : nth_error h wx = Some (Ndarray Wx).
Hypothesis Hwy : nth_error h wy = Some (Ndarray Wy).
Hypothesis HWx : rect n m Wx.
Hypothesis HWy : rect n m Wy.

Lemma inner_loop_run p d :
  (forall q k l x, In (q, (k, l, x)) d ->
                   (0 <= k < Z.of_nat n)%Z /\ (0 <= l < Z.of_nat m)%Z) ->
  forall acc T,
  for_fold d (fun diag e =>
      let '(q, (k, l, x)) := e in
      weight <- ndarray_getitem (if (x =? 0)%Z then wy else wx) k l ;;
      append_int (length h) p ;;
      append_int (S (length h)) q ;;
      append_float (S (S (length h))) (- weight)%R ;;
      ret (diag + weight)%R) acc (building h lg T)
  = Returned (fold_left Rplus (map (edge_weight Wx Wy) d) acc,
              building h lg (T ++ off_triples Wx Wy p d)).
Proof.
  induction d as [| [q [[k l] x]] d IH]; intros Hd acc T.
  - cbn. now rewrite app_nil_r.
  - cbn [for_fold].
    destruct (Hd q k l x (or_introl eq_refl)) as [Hk Hl].
    assert (ndarray_getitem (if (x =? 0)%Z then wy else wx) k l (building h lg T)
            = Returned (edge_weight Wx Wy (q, (k, l, x)), building h lg T)) as G.
    { cbn [edge_weight]. destruct (x =? 0)%Z.
      - apply (@ndarray_getitem_run _ _ Wy); [now apply lookup_app_l |].
        now apply (@getitem_in_range n m).
      - apply (@ndarray_getitem_run _ _ Wx); [now apply lookup_app_l |].
        now apply (@getitem_in_range n m). }
    erewrite bind_returned;
      [| rewrite (@bind_returned _ _ _ _ _ _ _ G); rewrite push_triple; reflexivity].
    rewrite IH by (intros; eapply Hd; right; eassumption).
    cbn [map fold_left off_triples]. rewrite <- app_assoc. reflexivity.
Qed.

Lemma outer_loop_run ps :
  (0 < m)%nat ->
  (forall p, In p ps -> (0 <= p < Z.of_nat n * Z.of_nat m)%Z) ->
  forall T,
  for_each ps (fun p =>
    d <- lift (get_sparse_neighbor p (Z.of_nat n) (Z.of_nat m)) ;;
    diag <- for_fold d (fun diag e =>
      let '(q, (k, l, x)) := e in
      weight <- ndarray_getitem (if (x =? 0)%Z then wy else wx) k l ;;
      append_int (length h) p ;;
      append_int (S (length h)) q ;;
      append_float (S (S (length h))) (- weight)%R ;;
      ret (diag + weight)%R) 0%R ;;
    append_int (length h) p ;;
    append_int (S (length h)) p ;;
    append_float (S (S (length h))) diag) (building h lg T)
  = Returned (tt, building h lg
                    (T ++ flat_map (pixel_triples Wx Wy (Z.of_nat n) (Z.of_nat m)) ps)).
Proof.
  intros Hm. induction ps as [| p ps IH]; intros Hps T.
  - cbn. now rewrite app_nil_r.
  - cbn [for_each].
    assert (0 <= p < Z.of_nat n * Z.of_nat m)%Z as Hp by (apply Hps; now left).
    assert (forall q k l x,
               In (q, (k, l, x)) (neighbor_dict p (Z.of_nat n) (Z.of_nat m)) ->
               (0 <= k < Z.of_nat n)%Z /\ (0 <= l < Z.of_nat m)%Z) as Hcells.
    { intros q k l x Hin.
      destruct (@neighbor_cell p (Z.of_nat n) (Z.of_nat m) q k l x ltac:(lia) Hp Hin)
        as (Hq & -> & -> & _).
      destruct (@cell_bounds q (Z.of_nat n) (Z.of_nat m) ltac:(lia) Hq) as (_ & ? & ?).
      split; assumption. }
    erewrite bind_returned.
    2:{ unfold bind at 1. unfold lift, get_sparse_neighbor.
        destruct (Z.eqb_spec (Z.of_nat m) 0) as [? | _]; [lia |].
        rewrite (@bind_returned _ _ _ _ _ _ _ (@inner_loop_run p _ Hcells 0%R T)).
        apply push_triple_last. }
    rewrite IH by (intros; apply Hps; now right).
    unfold pixel_triples, diag_value. cbn [flat_map].
    now rewrite <- !app_assoc.
Qed.

End AssemblyRun.

Section AssemblyResult.
Local Open Scope heap_scope.

Lemma combine_triples (T : list (Z * Z * R)) :
  combine (combine (map (fun t => fst (fst t)) T) (map (fun t => snd (fst t)) T))
          (map snd T) = T.
Proof.
  induction T as [| [[p q] v] T IH]; cbn; [reflexivity | now rewrite IH].
Qed.

Lemma laplacian_triples_in_range Wx Wy n m t :
  (0 < m)%Z -> In t (triples (laplacian Wx Wy n m)) ->
  in_range (n * m) (fst (fst t)) = true /\ in_range (n * m) (snd (fst t)) = true.
Proof.
  intros Hm Hin. cbn [triples laplacian] in Hin. apply in_flat_map in Hin.
  destruct Hin as (p & Hp & Ht). apply in_range_iff in Hp.
  rewrite (pixel_triples_row _ _ _ _ _ _ Ht).
  pose proof (@pixel_triples_col Wx Wy n m p t Hm Hp Ht).
  unfold in_range. split; apply andb_true_intro; split;
    try (apply Z.leb_le; lia); apply Z.ltb_lt; lia.
Qed.

Lemma csr_matrix_laplacian Wx Wy n m :
  (0 < m)%Z ->
  let F := laplacian Wx Wy n m in
  csr_matrix (map snd (triples F)) (map (fun t => fst (fst t)) (triples F))
             (map (fun t => snd (fst t)) (triples F)) (n * m)
  = Returned F.
Proof.
  intros Hm F. unfold csr_matrix. rewrite !length_map, Nat.eqb_refl. cbn [andb].
  assert (forallb (in_range (n * m)) (map (fun t => fst (fst t)) (triples F)) = true) as ->.
  { apply forallb_forall. intros p Hp. apply in_map_iff in Hp.
    destruct Hp as (t & <- & Ht). now apply (@laplacian_triples_in_range Wx Wy n m). }
  assert (forallb (in_range (n * m)) (map (fun t => snd (fst t)) (triples F)) = true) as ->.
  { apply forallb_forall. intros p Hp. apply in_map_iff in Hp.
    destruct Hp as (t & <- & Ht). now apply (@laplacian_triples_in_range Wx Wy n m). }
  cbn [andb]. now rewrite combine_triples.
Qed.

Lemma lookup_buffers (h : list obj) T :
  nth_error (h ++ buffers T) (length h) = Some (IntList (map (fun t => fst (fst t)) T)) /\
  nth_error (h ++ buffers T) (S (length h)) = Some (IntList (map (fun t => snd (fst t)) T)) /\
  nth_error (h ++ buffers T) (S (S (length h))) = Some (FloatList (map snd T)).
Proof.
  split; [| split].
  - rewrite <- (Nat.add_0_r (length h)). now rewrite lookup_app_r.
  - replace (S (length h)) with (length h + 1)%nat by lia. now rewrite lookup_app_r.
  - replace (S (S (length h))) with (length h + 2)%nat by lia. now rewrite lookup_app_r.
Qed.

(** Lines 89-101 return a new sparse matrix; the only objects they update
    in place are the three lists they create. *)
Lemma assemble_laplacian_run s wx wy Wx Wy (n m : nat) :
  nth_error (heap s) wx = Some (Ndarray Wx) ->
  nth_error (heap s) wy = Some (Ndarray Wy) ->
  rect n m Wx -> rect n m Wy -> (0 < m)%nat ->
  let F := laplacian Wx Wy (Z.of_nat n) (Z.of_nat m) in
  assemble_laplacian wx wy (Z.of_nat n) (Z.of_nat m) s
  = Returned (length (heap s) + 3,
              {| heap := heap s ++ (buffers (triples F) ++ [Sparse F]);
                 log := log s ++ appends (length (heap s)) (triples F) |})%nat.
Proof.
  intros Hwx Hwy HWx HWy Hm F. unfold assemble_laplacian.
  unfold bind at 1. unfold alloc at 1. cbv beta iota.
  unfold bind at 1. unfold alloc at 1. cbv beta iota.
  unfold bind at 1. unfold alloc at 1. cbv beta iota.
  cbn [heap log]. rewrite !length_app. cbn [length]. rewrite !Nat.add_1_r.
  match goal with
  | |- context [ {| heap := ?H; log := ?L |} ] =>
      replace {| heap := H; log := L |} with (building (heap s) (log s) [])
  end.
  2:{ unfold building, buffers, appends. cbn [map flat_map].
      now rewrite <- !app_assoc, app_nil_r. }
  erewrite bind_returned.
  2:{ apply (@outer_loop_run (heap s) (log s) wx wy Wx Wy n m Hwx Hwy HWx HWy
               (range (Z.of_nat n * Z.of_nat m)) Hm).
      intros p Hp. now apply in_range_iff in Hp. }
  cbn [app]. fold (triples F). unfold new_csr_matrix, building. cbn [triples F laplacian].
  fold (triples F).
  erewrite bind_returned; [| apply load_floats_run; apply lookup_buffers].
  erewrite bind_returned; [| apply load_ints_run; apply lookup_buffers].
  erewrite bind_returned; [| apply load_ints_run; apply lookup_buffers].
  unfold bind, lift.
  pose proof (@csr_matrix_laplacian Wx Wy (Z.of_nat n) (Z.of_nat m) ltac:(lia)) as E.
  cbn [triples laplacian] in E. rewrite E.
  unfold alloc. cbn [heap log]. rewrite length_app. cbn [buffers length].
  unfold F. cbn [triples laplacian]. now rewrite <- app_assoc.
Qed.

End AssemblyResult.

(** ** Row sums and solvability *)

Section RowFacts.
Local Open Scope R_scope.

Lemma Rsum_split_at (f : Z -> R) N p :
  (0 <= p < N)%Z ->
  Rsum (map f (range N))
  = f p + Rsum (map (fun q => if (q =? p)%Z then 0 else f q) (range N)).
Proof.
  intros Hp.
  rewrite <- (@Rsum_indicator p (f p) (range N))
    by (apply range_nodup || now apply in_range_iff).
  rewrite <- Rsum_map_plus. f_equal. apply map_ext. intros q.
  rewrite (Z.eqb_sym q p). destruct (Z.eqb_spec p q); [subst; ring | ring].
Qed.

Lemma grid_nonneg W : Forall (Forall (fun w => 0 <= w)) W -> nonneg_grid W.
Proof.
  intros H i j. unfold item0.
  destruct ((0 <=? i)%Z && (0 <=? j)%Z); [| lra].
  assert (Forall (fun w => 0 <= w) (nth (Z.to_nat i) W [])) as Hrow.
  { destruct (Nat.lt_ge_cases (Z.to_nat i) (length W)).
    - rewrite Forall_forall in H. now apply H, nth_In.
    - rewrite nth_overflow by assumption. constructor. }
  destruct (Nat.lt_ge_cases (Z.to_nat j) (length (nth (Z.to_nat i) W []))).
  - rewrite Forall_forall in Hrow. now apply Hrow, nth_In.
  - rewrite nth_overflow by assumption. lra.
Qed.

Lemma grid_pos_nonneg W : Forall (Forall (fun w => 0 < w)) W -> nonneg_grid W.
Proof.
  intros H. apply grid_nonneg.
  eapply Forall_impl; [| exact H]. intros r Hr.
  eapply Forall_impl; [| exact Hr]. intros w Hw. lra.
Qed.

Lemma csr_add_system lambda_ F :
  (0 <= nrow F)%Z -> nrow F = ncol F ->
  csr_add (diags (map (fun _ => 1) (range (nrow F)))) (csr_scale lambda_ F)
  = Returned (system_matrix lambda_ F).
Proof.
  intros HN Hsq. unfold system_matrix. unfold csr_add, diags, csr_scale.
  cbn [nrow ncol triples].
  rewrite length_map, range_length, Z2Nat.id, <- Hsq, Z.eqb_refl by assumption.
  cbn [andb]. reflexivity.
Qed.

End RowFacts.

(** C2. For weight maps of the input's shape and every row index [p], the
    call returns a sparse matrix whose row [p] sums to zero, and whose
    diagonal entry at [(p, p)] is the sum of the negated off-diagonal
    entries of that row. *)
Theorem laplacian_row_sums_to_zero
        (s : state) (wx wy : ref) (Wx Wy : grid) (n m : nat) (p : Z) :
  nth_error (heap s) wx = Some (Ndarray Wx) ->
  nth_error (heap s) wy = Some (Ndarray Wy) ->
  rect n m Wx -> rect n m Wy -> (0 <= p < Z.of_nat n * Z.of_nat m)%Z ->
  exists F s' M,
    assemble_laplacian wx wy (Z.of_nat n) (Z.of_nat m) s = Returned (F, s') /\
    nth_error (heap s') F = Some (Sparse M) /\
    ncol M = (Z.of_nat n * Z.of_nat m)%Z /\
    Rsum (map (csr_get M p) (range (ncol M))) = 0%R /\
    csr_get M p p
    = Rsum (map (fun q => if (q =? p)%Z then 0 else - csr_get M p q)%R (range (ncol M))).
Proof.
  intros Hwx Hwy HWx HWy Hp.
  assert (0 < m)%nat as Hm by nia.
  pose proof (@assemble_laplacian_run s wx wy Wx Wy n m Hwx Hwy HWx HWy Hm) as E.
  cbv zeta in E.
  set (M := laplacian Wx Wy (Z.of_nat n) (Z.of_nat m)) in *.
  eexists _, _, M. split; [exact E |]. cbn [heap].
  assert (Rsum (map (csr_get M p) (range (ncol M))) = 0%R) as Hsum.
  { apply laplacian_row_sum; [lia | assumption]. }
  split; [| split; [reflexivity | split; [exact Hsum |]]].
  - rewrite app_assoc. replace (length (heap s) + 3)%nat
      with (length (heap s ++ buffers (triples M))) by (rewrite length_app; reflexivity).
    apply lookup_snoc.
  - rewrite (@Rsum_split_at (csr_get M p) (ncol M) p) in Hsum by assumption.
    rewrite (map_ext _ (fun q => - (if (q =? p)%Z then 0 else csr_get M p q))%R)
      by (intros q; destruct (q =? p)%Z; ring).
    rewrite Rsum_map_opp. lra.
Qed.

Lemma laplacian_row_sums_to_zero_witness :
  exists F s' M,
    assemble_laplacian 0 1 1 2
      {| heap := [Ndarray [[1; 2]]; Ndarray [[1; 1]]]%R; log := [] |} = Returned (F, s') /\
    nth_error (heap s') F = Some (Sparse M) /\
    Rsum (map (csr_get M 0) (range (ncol M))) = 0%R.
Proof.
  destruct (@laplacian_row_sums_to_zero
              {| heap := [Ndarray [[1; 2]]; Ndarray [[1; 1]]]%R; log := [] |}
              0%nat 1%nat [[1; 2]]%R [[1; 1]]%R 1%nat 2%nat 0%Z)
    as (F & s' & M & E & L & _ & Z & _).
  - reflexivity.
  - reflexivity.
  - split; [reflexivity | repeat constructor].
  - split; [reflexivity | repeat constructor].
  - lia.
  - exists F, s', M. repeat split; assumption.
Defined.

(** C1 (as amended). For strictly positive weight maps of the input's shape
    and [lambda_ > 0], the assembled matrix [F] has zero row sums, the system
    matrix [A = Id + lambda_ * F] is strictly diagonally dominant by rows, and
    [A x = b] has exactly one solution for every right-hand side [b] of
    length [n * m].  ([F] and [A] need not be symmetric: the entry at
    [(p, q)] carries the weight stored at [q], the entry at [(q, p)] the
    weight stored at [p].) *)
Theorem system_has_unique_solution
        (s : state) (wx wy : ref) (Wx Wy : grid) (n m : nat) (lambda_ : R) (b : list R) :
  nth_error (heap s) wx = Some (Ndarray Wx) ->
  nth_error (heap s) wy = Some (Ndarray Wy) ->
  rect n m Wx -> rect n m Wy -> (1 <= n)%nat -> (1 <= m)%nat ->
  Forall (Forall (fun w => 0 < w)%R) Wx -> Forall (Forall (fun w => 0 < w)%R) Wy ->
  (0 < lambda_)%R -> length b = (n * m)%nat ->
  exists F s' M A,
    assemble_laplacian wx wy (Z.of_nat n) (Z.of_nat m) s = Returned (F, s') /\
    nth_error (heap s') F = Some (Sparse M) /\
    csr_add (diags (map (fun _ => 1%R) (range (Z.of_nat n * Z.of_nat m))))
            (csr_scale lambda_ M) = Returned A /\
    (forall p, (0 <= p < Z.of_nat n * Z.of_nat m)%Z ->
               Rsum (map (csr_get M p) (range (ncol M))) = 0%R) /\
    diag_dominant (n * m) (dense A) /\
    exists! x, solves A b x.
Proof.
  intros Hwx Hwy HWx HWy Hn Hm Px Py Hl Hb.
  pose proof (@assemble_laplacian_run s wx wy Wx Wy n m Hwx Hwy HWx HWy ltac:(lia)) as E.
  cbv zeta in E.
  set (M := laplacian Wx Wy (Z.of_nat n) (Z.of_nat m)) in *.
  assert (diag_dominant (n * m) (dense (system_matrix lambda_ M))) as Hdom.
  { replace (n * m)%nat with (Z.to_nat (Z.of_nat n * Z.of_nat m)) by lia.
    apply system_matrix_dominant; try lia; try lra; now apply grid_pos_nonneg. }
  assert (square (n * m) (system_matrix lambda_ M)) as Hsq.
  { replace (n * m)%nat with (Z.to_nat (Z.of_nat n * Z.of_nat m)) by lia.
    apply system_matrix_square. lia. }
  eexists _, _, M, (system_matrix lambda_ M).
  split; [exact E |]. cbn [heap]. split; [| split; [| split; [| split]]].
  - rewrite app_assoc. replace (length (heap s) + 3)%nat
      with (length (heap s ++ buffers (triples M))) by (rewrite length_app; reflexivity).
    apply lookup_snoc.
  - apply (@csr_add_system lambda_ M); cbn; [lia | reflexivity].
  - intros p Hp. apply laplacian_row_sum; [lia | assumption].
  - exact Hdom.
  - now apply (@dominant_unique_solution (n * m)).
Qed.

Lemma system_has_unique_solution_witness :
  exists F s' M A,
    assemble_laplacian 0 1 1 2
      {| heap := [Ndarray [[1; 2]]; Ndarray [[1; 1]]]%R; log := [] |} = Returned (F, s') /\
    nth_error (heap s') F = Some (Sparse M) /\
    csr_add (diags (map (fun _ => 1%R) (range 2))) (csr_scale (2 / 10) M) = Returned A /\
    exists! x, solves A [1 / 2; 1 / 2]%R x.
Proof.
  destruct (@system_has_unique_solution
              {| heap := [Ndarray [[1; 2]]; Ndarray [[1; 1]]]%R; log := [] |}
              0%nat 1%nat [[1; 2]]%R [[1; 1]]%R 1%nat 2%nat (2 / 10)%R [1 / 2; 1 / 2]%R)
    as (F & s' & M & A & E & L & EA & _ & _ & U).
  - reflexivity.
  - reflexivity.
  - split; [reflexivity | repeat constructor].
  - split; [reflexivity | repeat constructor].
  - lia.
  - lia.
  - repeat constructor; lra.
  - repeat constructor; lra.
  - lra.
  - reflexivity.
  - exists F, s', M, A. repeat split; assumption.
Defined.

(** C1 as stated fails: on a 1 x 2 grid with horizontal weights 1 and 2 the
    assembled matrix is [[2, -2], [-1, 1]], which is not symmetric and whose
    quadratic form is negative at [(2, 3)]. *)
Lemma laplacian_not_symmetric :
  exists F s' M,
    assemble_laplacian 0 1 1 2
      {| heap := [Ndarray [[1; 2]]; Ndarray [[1; 1]]]%R; log := [] |} = Returned (F, s') /\
    nth_error (heap s') F = Some (Sparse M) /\
    csr_get M 0 1 = (-2)%R /\ csr_get M 1 0 = (-1)%R /\
    csr_get M 0 1 <> csr_get M 1 0 /\
    (2 * csr_get M 0 0 * 2 + 2 * csr_get M 0 1 * 3
     + 3 * csr_get M 1 0 * 2 + 3 * csr_get M 1 1 * 3 < 0)%R.
Proof.
  pose proof (@assemble_laplacian_run
                {| heap := [Ndarray [[1; 2]]; Ndarray [[1; 1]]]%R; log := [] |}
                0%nat 1%nat [[1; 2]]%R [[1; 1]]%R 1%nat 2%nat eq_refl eq_refl) as E.
  specialize (E ltac:(split; [reflexivity | repeat constructor])
                ltac:(split; [reflexivity | repeat constructor]) ltac:(lia)).
  cbv zeta in E. change (Z.of_nat 1) with 1%Z in *. change (Z.of_nat 2) with 2%Z in *.
  set (M := laplacian [[1; 2]]%R [[1; 1]]%R 1 2) in *.
  assert (neighbor_dict 0 1 2 = [(1, (0, 1, 1))]%Z) as N0 by reflexivity.
  assert (neighbor_dict 1 1 2 = [(0, (0, 0, 1))]%Z) as N1 by reflexivity.
  assert (csr_get M 0 1 = (-2)%R) as M01.
  { unfold M. rewrite laplacian_off_diag by lia. rewrite N0. cbn. unfold Pos.to_nat. cbn. lra. }
  assert (csr_get M 1 0 = (-1)%R) as M10.
  { unfold M. rewrite laplacian_off_diag by lia. rewrite N1. cbn. unfold Pos.to_nat. cbn. lra. }
  assert (csr_get M 0 0 = 2%R) as M00.
  { unfold M. rewrite laplacian_diag by lia. rewrite N0. cbn. unfold Pos.to_nat. cbn. lra. }
  assert (csr_get M 1 1 = 1%R) as M11.
  { unfold M. rewrite laplacian_diag by lia. rewrite N1. cbn. unfold Pos.to_nat. cbn. lra. }
  eexists _, _, M. split; [exact E |]. split; [reflexivity |].
  rewrite M00, M01, M10, M11. repeat split; lra.
Qed.

(** ** Smoothness weights *)

(** The array [cv2.Sobel] returns for direction [x]. *)
Definition sobel_value (src : grid) (x : Z) : grid :=
  let (n, m) := shape src in
  if (x =? 1)%Z then
    tabulate n m (fun i j =>
      (item0 src i (reflect101 m (j + 1)) - item0 src i (reflect101 m (j - 1)))%R)
  else
    tabulate n m (fun i j =>
      (item0 src (reflect101 n (i + 1)) j - item0 src (reflect101 n (i - 1)) j)%R).

(** One output sample of the zero-padded convolution. *)
Definition conv_at (input weights : grid) (i j : Z) : R :=
  let (kh, kw) := shape weights in
  Rsum (map (fun a =>
    Rsum (map (fun b =>
      (item0 weights a b * item0 input (i + kh / 2 - a) (j + kw / 2 - b))%R)
      (range kw)))
    (range kh)).

Definition conv_value (input weights : grid) : grid :=
  let (n, m) := shape input in tabulate n m (conv_at input weights).

(** The array returned by [compute_smoothness_weights]. *)
Definition smoothness_weights (L : grid) (x : Z) (kernel : grid) (eps : R) : grid :=
  let Lp := sobel_value L x in
  let den := grid_map (fun v => v + eps)%R (grid_map Rabs (conv_value Lp kernel)) in
  let Txp := zip_with (zip_with Rdiv) (conv_value (ones_like L) kernel) den in
  zip_with (zip_with Rdiv) Txp (grid_map (fun v => v + eps)%R (grid_map Rabs Lp)).

Section WeightFacts.
Local Open Scope R_scope.

Lemma rect_grid_map n m f g : rect n m g -> rect n m (grid_map f g).
Proof.
  intros [Hn Hm]. unfold grid_map. split; [now rewrite length_map |].
  apply Forall_forall. intros r Hr. apply in_map_iff in Hr.
  destruct Hr as (r0 & <- & Hr0). rewrite Forall_forall in Hm.
  now rewrite length_map, (Hm r0 Hr0).
Qed.

Lemma rect_row n m g i :
  rect n m g -> (i < n)%nat -> length (nth i g []) = m.
Proof.
  intros [Hn Hm] Hi. rewrite Forall_forall in Hm. apply Hm, nth_In. lia.
Qed.

Lemma item0_grid_map n m f g i j :
  rect n m g -> (0 <= i < Z.of_nat n)%Z -> (0 <= j < Z.of_nat m)%Z ->
  item0 (grid_map f g) i j = f (item0 g i j).
Proof.
  intros Hr Hi Hj. pose proof Hr as [Hn Hm].
  rewrite !item0_nth by lia. unfold grid_map.
  rewrite (@nth_map_lt _ _ _ g _ [] []) by lia.
  rewrite (@nth_map_lt _ _ _ _ _ 0 0); [reflexivity |].
  rewrite (@rect_row n m g (Z.to_nat i) Hr) by lia. lia.
Qed.

Lemma rect_zip_with n m f a b :
  rect n m a -> rect n m b -> rect n m (zip_with (zip_with f) a b).
Proof.
  intros Ha Hb. pose proof Ha as [Han Ham]. pose proof Hb as [Hbn Hbm].
  split; [rewrite zip_with_length; lia |].
  apply Forall_forall. intros r Hr. destruct (In_nth _ _ [] Hr) as (k & Hk & <-).
  rewrite zip_with_length in Hk.
  rewrite (@nth_zip_with _ _ _ _ _ _ k [] [] []) by lia.
  rewrite zip_with_length, (@rect_row n m a k Ha), (@rect_row n m b k Hb) by lia.
  apply Nat.min_id.
Qed.

Lemma item0_zip_with n m f a b i j :
  rect n m a -> rect n m b -> (0 <= i < Z.of_nat n)%Z -> (0 <= j < Z.of_nat m)%Z ->
  item0 (zip_with (zip_with f) a b) i j = f (item0 a i j) (item0 b i j).
Proof.
  intros Ha Hb Hi Hj. pose proof Ha as [Han Ham]. pose proof Hb as [Hbn Hbm].
  rewrite !item0_nth by lia.
  rewrite (@nth_zip_with _ _ _ _ _ _ _ [] [] []) by lia.
  apply nth_zip_with.
  - rewrite (@rect_row n m a (Z.to_nat i) Ha) by lia. lia.
  - rewrite (@rect_row n m b (Z.to_nat i) Hb) by lia. lia.
Qed.

Lemma rect_tabulate (n m : nat) f : rect n m (tabulate (Z.of_nat n) (Z.of_nat m) f).
Proof.
  pose proof (tabulate_rect (Z.of_nat n) (Z.of_nat m) f) as H.
  now rewrite !Nat2Z.id in H.
Qed.

Lemma sobel_value_rect n m L x : rect n m L -> (0 < n)%nat -> rect n m (sobel_value L x).
Proof.
  intros Hr Hn. unfold sobel_value. rewrite (shape_rect Hr Hn).
  destruct (x =? 1)%Z; apply rect_tabulate.
Qed.

Lemma conv_value_rect n m g K : rect n m g -> (0 < n)%nat -> rect n m (conv_value g K).
Proof.
  intros Hr Hn. unfold conv_value. rewrite (shape_rect Hr Hn). apply rect_tabulate.
Qed.

Lemma ones_like_rect n m L : rect n m L -> (0 < n)%nat -> rect n m (ones_like L).
Proof.
  intros Hr Hn. unfold ones_like. rewrite (shape_rect Hr Hn). apply rect_tabulate.
Qed.

Lemma Sobel_returns n m L x :
  rect n m L -> (0 < n)%nat -> (0 < m)%nat -> x = 1%Z \/ x = 0%Z ->
  Sobel L (if (x =? 1)%Z then 1 else 0)%Z (if (x =? 0)%Z then 1 else 0)%Z
  = Returned (sobel_value L x).
Proof.
  intros Hr Hn Hm Hx. unfold Sobel, sobel_value. rewrite (shape_rect Hr Hn).
  destruct (Z.eqb_spec (Z.of_nat n) 0); [lia |].
  destruct (Z.eqb_spec (Z.of_nat m) 0); [lia |]. cbn [orb].
  destruct Hx as [-> | ->]; reflexivity.
Qed.

Lemma convolve_returns n m kh kw g K :
  rect n m g -> (0 < n)%nat -> rect kh kw K -> (0 < kh)%nat -> (0 < kw)%nat ->
  convolve g K = Returned (conv_value g K).
Proof.
  intros Hg Hn HK Hkh Hkw. unfold convolve, conv_value, conv_at.
  rewrite (shape_rect Hg Hn), (shape_rect HK Hkh).
  destruct (Z.eqb_spec (Z.of_nat kh) 0); [lia |].
  destruct (Z.eqb_spec (Z.of_nat kw) 0); [lia |]. reflexivity.
Qed.

(** A divisor of the form [|v| + eps] with [eps > 0] never vanishes. *)
Lemma grid_div_guarded a g eps :
  0 < eps ->
  grid_div a (grid_map (fun v => v + eps) (grid_map Rabs g))
  = Returned (zip_with (zip_with Rdiv) a (grid_map (fun v => v + eps) (grid_map Rabs g))).
Proof.
  intros He. unfold grid_div.
  replace (forallb _ _) with true; [reflexivity |].
  symmetry. apply forallb_forall. intros r Hr. apply forallb_forall. intros y Hy.
  unfold grid_map in Hr. rewrite map_map in Hr. apply in_map_iff in Hr.
  destruct Hr as (r0 & <- & _). rewrite map_map in Hy. apply in_map_iff in Hy.
  destruct Hy as (v & <- & _). pose proof (Rabs_pos v).
  destruct (Req_EM_T (Rabs v + eps) 0); [lra | reflexivity].
Qed.

End WeightFacts.

(** ** Running [compute_smoothness_weights] *)

Section SmoothnessRun.
Local Open Scope heap_scope.

Lemma unary_pure_run (f : grid -> grid) s a g :
  nth_error (heap s) a = Some (Ndarray g) ->
  (g <- load_ndarray a ;; alloc (Ndarray (f g))) s
  = Returned (length (heap s), {| heap := heap s ++ [Ndarray (f g)]; log := log s |}).
Proof.
  intros E. now rewrite (@bind_returned _ _ _ _ _ _ _ (@load_ndarray_run s a g E)).
Qed.

End SmoothnessRun.

(** Find an object in a heap that grew by allocation. *)
Ltac lookup :=
  cbn [heap];
  first [ eassumption
        | apply lookup_snoc
        | apply lookup_app_l; lookup ].

(** Run the next statement of a heap program with the given run lemma. *)
Ltac step run := erewrite bind_returned; [| run]; cbn [heap log].

Section SmoothnessRunFacts.
Local Open Scope heap_scope.

Lemma compute_smoothness_weights_run s L kernel Lg Kg x eps (n m kh kw : nat) :
  nth_error (heap s) L = Some (Ndarray Lg) ->
  nth_error (heap s) kernel = Some (Ndarray Kg) ->
  rect n m Lg -> (0 < n)%nat -> (0 < m)%nat ->
  rect kh kw Kg -> (0 < kh)%nat -> (0 < kw)%nat ->
  (0 < eps)%R -> x = 1%Z \/ x = 0%Z ->
  exists new r,
    compute_smoothness_weights L x kernel eps s
    = Returned (r, {| heap := heap s ++ new; log := log s |}) /\
    nth_error (heap s ++ new) r = Some (Ndarray (smoothness_weights Lg x Kg eps)).
Proof.
  intros HL HK HLg Hn Hm HKg Hkh Hkw He Hx.
  pose proof (@sobel_value_rect n m Lg x HLg Hn) as HLp.
  eassert (compute_smoothness_weights L x kernel eps s = Returned (_, _)) as E.
  { unfold compute_smoothness_weights.
    step ltac:(eapply unary_run; [lookup | apply (@Sobel_returns n m); assumption]).
    step ltac:(eapply (@unary_pure_run ones_like); lookup).
    step ltac:(eapply binary_run;
               [lookup | lookup
               | apply (@convolve_returns n m kh kw); try assumption;
                 now apply ones_like_rect]).
    step ltac:(eapply binary_run;
               [lookup | lookup
               | apply (@convolve_returns n m kh kw); assumption]).
    step ltac:(eapply (@unary_pure_run (grid_map Rabs)); lookup).
    step ltac:(eapply (@unary_pure_run (grid_map (fun v => v + eps)%R)); lookup).
    step ltac:(eapply binary_run; [lookup | lookup | now apply grid_div_guarded]).
    step ltac:(eapply (@unary_pure_run (grid_map Rabs)); lookup).
    step ltac:(eapply (@unary_pure_run (grid_map (fun v => v + eps)%R)); lookup).
    step ltac:(eapply binary_run; [lookup | lookup | now apply grid_div_guarded]).
    reflexivity. }
  match type of E with
  | _ = Returned (length ?h, {| heap := ?h ++ [?o]; log := _ |}) =>
      assert (nth_error (h ++ [o]) (length h) = Some o) as Hr by apply lookup_snoc
  end.
  rewrite <- !app_assoc in E, Hr.
  eexists _, _. split; [exact E | exact Hr].
Qed.

End SmoothnessRunFacts.

(** ** Running [refine_illumination_map_linear] *)

(** The array returned once the solver produced [x]. *)
Definition refined_value (x : list R) (n m : Z) (eps gamma : R) : grid :=
  grid_map (fun v => Rpower v gamma)
    (grid_map (fun v => clip v eps 1)
       (tabulate n m (fun i j => nth (Z.to_nat (i * m + j)) x 0%R))).

Definition is_list_object (o : option obj) : Prop :=
  match o with
  | Some (IntList _) | Some (FloatList _) => True
  | _ => False
  end.

Section RefineRun.
Local Open Scope heap_scope.

Lemma smoothness_weights_rect n m L x K eps :
  rect n m L -> (0 < n)%nat -> rect n m (smoothness_weights L x K eps).
Proof.
  intros Hr Hn. unfold smoothness_weights.
  pose proof (@sobel_value_rect n m L x Hr Hn) as HLp.
  apply rect_zip_with; [apply rect_zip_with |].
  - apply conv_value_rect; [now apply ones_like_rect | assumption].
  - do 2 apply rect_grid_map. now apply conv_value_rect.
  - do 2 apply rect_grid_map. assumption.
Qed.

Lemma clip_bounds x eps : (0 < eps)%R -> (0 < clip x eps 1)%R.
Proof.
  intros He. unfold clip, Rmin, Rmax.
  destruct (Rle_dec x eps); destruct (Rle_dec 1 _); lra.
Qed.

Lemma omap_all {A B : Type} (f : A -> outcome B) (g : A -> B) l :
  (forall x, In x l -> f x = Returned (g x)) -> omap f l = Returned (map g l).
Proof.
  induction l as [| x l IH]; intros H; [reflexivity |]. cbn [omap map].
  rewrite (H x (or_introl eq_refl)). cbn [obind].
  rewrite IH by (intros; apply H; now right). reflexivity.
Qed.

(** Exponentiation of an array of positive numbers. *)
Lemma power_positive g gamma :
  Forall (Forall (fun v => 0 < v)%R) g ->
  power g gamma = Returned (grid_map (fun v => Rpower v gamma) g).
Proof.
  intros H. unfold power, grid_map. apply omap_all. intros r Hr.
  apply omap_all. intros v Hv. rewrite Forall_forall in H.
  specialize (H r Hr). rewrite Forall_forall in H. specialize (H v Hv).
  unfold float_pow. destruct (Rlt_dec 0 v); [reflexivity | contradiction].
Qed.

Lemma clipped_positive g eps :
  (0 < eps)%R -> Forall (Forall (fun v => 0 < v)%R) (grid_map (fun v => clip v eps 1) g).
Proof.
  intros He. unfold grid_map. apply Forall_forall. intros r Hr.
  apply in_map_iff in Hr. destruct Hr as (r0 & <- & _).
  apply Forall_forall. intros v Hv. apply in_map_iff in Hv.
  destruct Hv as (v0 & <- & _). now apply clip_bounds.
Qed.

Lemma concat_length n m (g : grid) : rect n m g -> length (concat g) = (n * m)%nat.
Proof.
  intros [Hn Hm]. subst n. induction g as [| r g IH]; [reflexivity |].
  inversion Hm; subst. cbn [concat length]. rewrite length_app, IH by assumption. lia.
Qed.

Lemma ndarray_shape_run s a g :
  nth_error (heap s) a = Some (Ndarray g) -> ndarray_shape a s = Returned (shape g, s).
Proof.
  intros E. unfold ndarray_shape.
  now rewrite (@bind_returned _ _ _ _ _ _ _ (@load_ndarray_run s a g E)).
Qed.

Lemma lookup_buffers_more (h : list obj) T t :
  is_list_object (nth_error (h ++ (buffers T ++ t)) (length h)) /\
  is_list_object (nth_error (h ++ (buffers T ++ t)) (S (length h))) /\
  is_list_object (nth_error (h ++ (buffers T ++ t)) (S (S (length h)))).
Proof.
  split; [| split].
  - rewrite <- (Nat.add_0_r (length h)). rewrite lookup_app_r. exact I.
  - replace (S (length h)) with (length h + 1)%nat by lia. rewrite lookup_app_r. exact I.
  - replace (S (S (length h))) with (length h + 2)%nat by lia. rewrite lookup_app_r. exact I.
Qed.

Lemma is_list_object_app_l (h t : list obj) r :
  is_list_object (nth_error h r) -> is_list_object (nth_error (h ++ t) r).
Proof.
  destruct (nth_error h r) as [o |] eqn:E; [| intros []].
  intros H. now rewrite (lookup_app_l h t r E).
Qed.

Lemma appends_in r T w : In w (appends r T) -> w = r \/ w = S r \/ w = S (S r).
Proof.
  unfold appends. rewrite in_flat_map. intros (t & _ & [<- | [<- | [<- | []]]]); auto.
Qed.

End RefineRun.

(** Read the operands of a library call from the heap. *)
Ltac loads :=
  first [ eapply load_ndarray_run; lookup
        | eapply load_ndarray1_run; lookup
        | eapply load_sparse_run; lookup
        | eapply load_ints_run; lookup
        | eapply load_floats_run; lookup ].

(** Run a call that reads its operands and allocates its result; [eq] is
    the equation of its fallible pure part, if any. *)
Ltac run_pure := cbn [heap log]; repeat (erewrite bind_returned; [| loads]); reflexivity.
Ltac run_with eq :=
  cbn [heap log]; repeat (erewrite bind_returned; [| loads]);
  unfold bind, lift; rewrite eq; reflexivity.

Section RefineRunFacts.
Local Open Scope heap_scope.

Lemma reshape_returns (x : list R) (n m : nat) :
  length x = (n * m)%nat ->
  reshape x (Z.of_nat n) (Z.of_nat m)
  = Returned (tabulate (Z.of_nat n) (Z.of_nat m)
                (fun i j => nth (Z.to_nat (i * Z.of_nat m + j)) x 0%R)).
Proof.
  intros Hl. unfold reshape. rewrite Hl.
  replace (Z.of_nat (n * m) =? Z.of_nat n * Z.of_nat m)%Z with true
    by (symmetry; apply Z.eqb_eq; lia).
  destruct (Z.leb_spec 0 (Z.of_nat n)); [| lia].
  destruct (Z.leb_spec 0 (Z.of_nat m)); [| lia]. reflexivity.
Qed.

Lemma power_clipped g eps gamma :
  (0 < eps)%R ->
  power (grid_map (fun v => clip v eps 1) g) gamma
  = Returned (grid_map (fun v => Rpower v gamma) (grid_map (fun v => clip v eps 1) g)).
Proof. intros He. apply power_positive. now apply clipped_positive. Qed.

Lemma lookup_assembled (h : list obj) T o :
  nth_error (h ++ (buffers T ++ [o])) (length h + 3) = Some o.
Proof. now rewrite lookup_app_r. Qed.

Lemma refine_run s L kernel Lg Kg gamma lambda_ eps (n m kh kw : nat) :
  nth_error (heap s) L = Some (Ndarray Lg) ->
  nth_error (heap s) kernel = Some (Ndarray Kg) ->
  rect n m Lg -> (0 < n)%nat -> (0 < m)%nat ->
  rect kh kw Kg -> (0 < kh)%nat -> (0 < kw)%nat ->
  (0 < eps)%R -> (0 <= lambda_)%R ->
  nonneg_grid (smoothness_weights Lg 1 Kg eps) ->
  nonneg_grid (smoothness_weights Lg 0 Kg eps) ->
  let A := system_matrix lambda_
             (laplacian (smoothness_weights Lg 1 Kg eps) (smoothness_weights Lg 0 Kg eps)
                        (Z.of_nat n) (Z.of_nat m)) in
  exists new writes r x,
    refine_illumination_map_linear L gamma lambda_ kernel eps s
    = Returned (r, {| heap := heap s ++ new; log := log s ++ writes |}) /\
    solves A (concat Lg) x /\
    nth_error (heap s ++ new) r
    = Some (Ndarray (refined_value x (Z.of_nat n) (Z.of_nat m) eps gamma)) /\
    Forall (fun w => (length (heap s) <= w)%nat /\
                     is_list_object (nth_error (heap s ++ new) w)) writes.
Proof.
  intros HL HK HLg Hn Hm HKg Hkh Hkw He Hl Px Py A.
  set (Wx := smoothness_weights Lg 1 Kg eps) in *.
  set (Wy := smoothness_weights Lg 0 Kg eps) in *.
  set (F := laplacian Wx Wy (Z.of_nat n) (Z.of_nat m)) in *.
  destruct (@compute_smoothness_weights_run s L kernel Lg Kg 1%Z eps n m kh kw)
    as (new1 & wx & E1 & H1); try assumption; [now left |].
  destruct (@compute_smoothness_weights_run
              {| heap := heap s ++ new1; log := log s |} L kernel Lg Kg 0%Z eps n m kh kw)
    as (new2 & wy & E2 & H2); try assumption; try lookup; [now right |].
  cbn [heap log] in E2, H2. fold Wx in H1. fold Wy in H2.
  assert (rect n m Wx) as HWx by (now apply smoothness_weights_rect).
  assert (rect n m Wy) as HWy by (now apply smoothness_weights_rect).
  assert (length (concat Lg) = (n * m)%nat) as Hb by (now apply (@concat_length n m)).
  destruct (@spsolve_dominant (n * m) A (concat Lg)) as (x & Ex & Hx); try assumption.
  { replace (n * m)%nat with (Z.to_nat (Z.of_nat n * Z.of_nat m)) by lia.
    apply system_matrix_square. lia. }
  { replace (n * m)%nat with (Z.to_nat (Z.of_nat n * Z.of_nat m)) by lia.
    apply system_matrix_dominant; try lia; assumption. }
  assert (length x = (n * m)%nat) as Hxl by (destruct Hx; congruence).
  assert (csr_add (diags (map (fun _ => 1%R) (range (Z.of_nat n * Z.of_nat m))))
                  (csr_scale lambda_ F) = Returned A) as EA
      by (apply (@csr_add_system lambda_ F); cbn; [lia | reflexivity]).
  eassert (refine_illumination_map_linear L gamma lambda_ kernel eps s
           = Returned (_, _)) as E.
  { unfold refine_illumination_map_linear.
    rewrite (@bind_returned _ _ _ _ _ _ _ E1).
    rewrite (@bind_returned _ _ _ _ _ _ _ E2).
    step ltac:(apply ndarray_shape_run; lookup).
    rewrite (shape_rect HLg Hn). cbv iota beta.
    step ltac:(unfold ndarray_copy; run_pure).
    step ltac:(unfold ndarray_flatten; run_pure).
    step ltac:(apply (@assemble_laplacian_run _ wx wy Wx Wy n m);
               [lookup | lookup | assumption | assumption | assumption]).
    fold F.
    match goal with
    | |- context [appends (length ?h) _] =>
        pose proof (@lookup_assembled h (triples F) (Sparse F)) as HF
    end.
    step ltac:(unfold np_ones, alloc; reflexivity).
    step ltac:(unfold sparse_diags; run_pure).
    step ltac:(unfold sparse_scale; run_pure).
    step ltac:(unfold sparse_add; run_with EA).
    step ltac:(unfold sparse_copy; run_pure).
    step ltac:(unfold sparse_spsolve; run_with Ex).
    step ltac:(unfold ndarray_reshape; run_with (@reshape_returns x n m Hxl)).
    step ltac:(unfold np_clip; run_pure).
    step ltac:(unfold np_power; run_with (fun g => @power_clipped g eps gamma He)).
    reflexivity. }
  match type of E with
  | _ = Returned (length ?h, {| heap := ?h ++ [?o]; log := _ |}) =>
      assert (nth_error (h ++ [o]) (length h) = Some o) as Hr by apply lookup_snoc
  end.
  match type of E with
  | _ = Returned (_, {| heap := ?H; log := log s ++ appends (length ?h5) ?T |}) =>
      assert (is_list_object (nth_error H (length h5)) /\
              is_list_object (nth_error H (S (length h5))) /\
              is_list_object (nth_error H (S (S (length h5)))) /\
              (length (heap s) <= length h5)%nat) as (W0 & W1 & W2 & Hge)
  end.
  { repeat split;
      try (repeat first [ apply lookup_buffers_more | apply is_list_object_app_l ]).
    rewrite !length_app. lia. }
  match type of E with
  | _ = Returned (_, {| heap := ?H; log := _ |}) =>
      assert (exists new, H = heap s ++ new) as (new & Enew)
          by (eexists; rewrite <- !app_assoc; reflexivity);
      rewrite Enew in E, Hr, W0, W1, W2
  end.
  eexists new, _, _, x. split; [exact E |]. split; [exact Hx |]. split; [exact Hr |].
  apply Forall_forall. intros w Hw. apply appends_in in Hw.
  destruct Hw as [-> | [-> | ->]]; split; try assumption; lia.
Qed.

End RefineRunFacts.

(** ** Frame reasoning *)

(** [s'] can follow [s] in a call entered with [b] objects on the heap:
    the heap only grows, the objects below [b] are untouched, list objects
    stay list objects, and every in-place update made in between targets a
    list object at or above [b]. *)
Definition evolves (b : nat) (s s' : state) : Prop :=
  (length (heap s) <= length (heap s'))%nat /\
  (forall a, (a < b)%nat -> nth_error (heap s') a = nth_error (heap s) a) /\
  (forall a, is_list_object (nth_error (heap s) a) ->
             is_list_object (nth_error (heap s') a)) /\
  exists w, log s' = log s ++ w /\
            Forall (fun r => (b <= r)%nat /\ is_list_object (nth_error (heap s') r)) w.

(** Whenever [c] returns, the state evolved and the result satisfies [Q]. *)
Definition triple {A : Type} (b : nat) (c : M A) (Q : A -> Prop) : Prop :=
  forall s a s', (b <= length (heap s))%nat -> c s = Returned (a, s') ->
                 evolves b s s' /\ Q a.

Section FrameFacts.
Local Open Scope heap_scope.

Lemma evolves_refl b s : evolves b s s.
Proof.
  repeat split; auto. exists []. split; [now rewrite app_nil_r | constructor].
Qed.

Lemma evolves_trans b s1 s2 s3 : evolves b s1 s2 -> evolves b s2 s3 -> evolves b s1 s3.
Proof.
  intros (L1 & F1 & K1 & w1 & E1 & W1) (L2 & F2 & K2 & w2 & E2 & W2).
  split; [lia |]. split; [| split].
  - intros a Ha. now rewrite F2, F1.
  - intros a Ha. now apply K2, K1.
  - exists (w1 ++ w2). split; [now rewrite E2, E1, app_assoc |].
    apply Forall_app. split; [| assumption].
    eapply Forall_impl; [| exact W1]. intros r [Hb Hr]. split; [assumption |].
    now apply K2.
Qed.

Lemma triple_ret {A : Type} b (a : A) (Q : A -> Prop) : Q a -> triple b (ret a) Q.
Proof.
  intros HQ s a' s' _ E. inversion E; subst. split; [apply evolves_refl | assumption].
Qed.

Lemma triple_ret_true {A : Type} b (a : A) : triple b (ret a) (fun _ => True).
Proof. now apply triple_ret. Qed.

Lemma triple_lift {A : Type} b (o : outcome A) : triple b (lift o) (fun _ => True).
Proof.
  intros s a s' _ E. unfold lift in E. destruct o; inversion E; subst.
  split; [apply evolves_refl | exact I].
Qed.

Lemma triple_bind {A B : Type} b (c : M A) (f : A -> M B) Q Q' :
  triple b c Q -> (forall a, Q a -> triple b (f a) Q') -> triple b (bind c f) Q'.
Proof.
  intros Hc Hf s y s2 Hb E. apply bind_inv in E. destruct E as (a & s1 & E1 & E2).
  destruct (Hc s a s1 Hb E1) as [R1 HQ].
  assert (b <= length (heap s1))%nat as Hb1 by (destruct R1; lia).
  destruct (Hf a HQ s1 y s2 Hb1 E2) as [R2 HQ'].
  split; [eapply evolves_trans; eassumption | assumption].
Qed.

Lemma triple_load b r : triple b (load r) (fun _ => True).
Proof.
  intros s a s' _ E. unfold load in E.
  destruct (nth_error (heap s) r); inversion E; subst.
  split; [apply evolves_refl | exact I].
Qed.

Lemma triple_alloc b o (Q : ref -> Prop) :
  (forall r, (b <= r)%nat -> Q r) -> triple b (alloc o) Q.
Proof.
  intros HQ s a s' Hb E. unfold alloc in E. inversion E; subst. clear E.
  split; [| now apply HQ]. split; [| split; [| split]]; cbn [heap log].
  - rewrite length_app. lia.
  - intros a Ha. apply nth_error_app1. lia.
  - intros a Ha. destruct (nth_error (heap s) a) as [o' |] eqn:E; [| destruct Ha].
    now rewrite (lookup_app_l _ _ _ E).
  - exists []. split; [now rewrite app_nil_r | constructor].
Qed.

Lemma nth_error_list_set (h : list obj) r v a :
  nth_error (list_set h r v) a
  = if (a =? r)%nat && (r <? length h)%nat then Some v else nth_error h a.
Proof.
  revert r a. induction h as [| x h IH]; intros r a.
  - cbn. destruct r; rewrite andb_false_r; reflexivity.
  - destruct r as [| r]; destruct a as [| a]; cbn; try reflexivity. apply IH.
Qed.

Lemma evolves_update b s r v :
  (b <= r)%nat -> is_list_object (nth_error (heap s) r) -> is_list_object (Some v) ->
  evolves b s {| heap := list_set (heap s) r v; log := log s ++ [r] |}.
Proof.
  intros Hb Hold Hnew.
  assert (r < length (heap s))%nat as Hr.
  { apply nth_error_Some. intros E. rewrite E in Hold. destruct Hold. }
  split; [| split; [| split]]; cbn [heap log].
  - rewrite length_list_set. lia.
  - intros a Ha. rewrite nth_error_list_set.
    destruct (Nat.eqb_spec a r); [lia | reflexivity].
  - intros a Ha. rewrite nth_error_list_set.
    destruct ((a =? r)%nat && (r <? length (heap s))%nat); assumption.
  - exists [r]. split; [reflexivity |]. constructor; [| constructor].
    split; [assumption |]. rewrite nth_error_list_set, Nat.eqb_refl.
    destruct (Nat.ltb_spec r (length (heap s))); [assumption | lia].
Qed.

Lemma triple_append_int b r z : (b <= r)%nat -> triple b (append_int r z) (fun _ => True).
Proof.
  intros Hb s a s' _ E. unfold append_int in E.
  destruct (nth_error (heap s) r) as [[| | l | |] |] eqn:Er; inversion E; subst.
  split; [| exact I]. apply evolves_update; [assumption | now rewrite Er | exact I].
Qed.

Lemma triple_append_float b r x : (b <= r)%nat -> triple b (append_float r x) (fun _ => True).
Proof.
  intros Hb s a s' _ E. unfold append_float in E.
  destruct (nth_error (heap s) r) as [[| | | l |] |] eqn:Er; inversion E; subst.
  split; [| exact I]. apply evolves_update; [assumption | now rewrite Er | exact I].
Qed.

Lemma triple_for_each {A : Type} b (l : list A) (body : A -> M unit) :
  (forall x, triple b (body x) (fun _ => True)) ->
  triple b (for_each l body) (fun _ => True).
Proof.
  intros Hbody. induction l as [| x l IH]; cbn [for_each].
  - now apply triple_ret.
  - eapply triple_bind; [apply Hbody | intros _ _; exact IH].
Qed.

Lemma triple_for_fold {A S : Type} b (l : list A) (body : S -> A -> M S) :
  (forall acc x, triple b (body acc x) (fun _ => True)) ->
  forall acc, triple b (for_fold l body acc) (fun _ => True).
Proof.
  intros Hbody. induction l as [| x l IH]; intros acc; cbn [for_fold].
  - now apply triple_ret.
  - eapply triple_bind; [apply Hbody | intros acc' _; apply IH].
Qed.

End FrameFacts.

(** Establish a [triple] by following the structure of the program. *)
Ltac frame :=
  repeat first
    [ apply triple_load
    | apply triple_lift
    | apply triple_ret_true
    | apply triple_ret; cbv beta; assumption
    | apply triple_alloc;
      first [ let H := fresh in intros ? H; exact H | intros; exact I ]
    | apply triple_append_int; assumption
    | apply triple_append_float; assumption
    | apply triple_for_each; intros
    | apply triple_for_fold; intros
    | eapply triple_bind; [| intros ]
    | match goal with
      | |- triple _ (match ?o with _ => _ end) _ => destruct o
      end ].

Section FrameOfRefine.
Local Open Scope heap_scope.

Lemma triple_compute_smoothness_weights b L x kernel eps :
  triple b (compute_smoothness_weights L x kernel eps) (fun _ => True).
Proof.
  unfold compute_smoothness_weights, cv2_Sobel, np_ones_like, ndimage_convolve,
    np_abs, np_add_scalar, np_divide, load_ndarray.
  frame.
Qed.

Lemma triple_assemble_laplacian b wx wy n m :
  triple b (assemble_laplacian wx wy n m) (fun _ => True).
Proof.
  unfold assemble_laplacian, new_csr_matrix, ndarray_getitem, load_ndarray,
    load_ints, load_floats.
  frame.
Qed.

Lemma triple_refine b L gamma lambda_ kernel eps :
  triple b (refine_illumination_map_linear L gamma lambda_ kernel eps)
         (fun r => (b <= r)%nat).
Proof.
  unfold refine_illumination_map_linear.
  eapply triple_bind; [apply triple_compute_smoothness_weights | intros wx _].
  eapply triple_bind; [apply triple_compute_smoothness_weights | intros wy _].
  eapply triple_bind;
    [unfold ndarray_shape, load_ndarray; frame | intros [n m] _].
  eapply triple_bind; [unfold ndarray_copy, load_ndarray; frame | intros Lc _].
  eapply triple_bind; [unfold ndarray_flatten, load_ndarray; frame | intros L1 _].
  eapply triple_bind; [apply triple_assemble_laplacian | intros F _].
  unfold np_ones, sparse_diags, sparse_scale, sparse_add, sparse_copy, sparse_spsolve,
    ndarray_reshape, np_clip, np_power, load_ndarray, load_ndarray1, load_sparse.
  frame.
Qed.

End FrameOfRefine.

(** ** Weights of a non-negative kernel, and constant solutions *)

Section WeightValues.
Local Open Scope R_scope.

Lemma item0_smoothness_weights n m L x K eps i j :
  rect n m L -> (0 < n)%nat ->
  (0 <= i < Z.of_nat n)%Z -> (0 <= j < Z.of_nat m)%Z ->
  item0 (smoothness_weights L x K eps) i j
  = conv_at (ones_like L) K i j
    / (Rabs (conv_at (sobel_value L x) K i j) + eps)
    / (Rabs (item0 (sobel_value L x) i j) + eps).
Proof.
  intros Hr Hn Hi Hj. unfold smoothness_weights.
  pose proof (@sobel_value_rect n m L x Hr Hn) as HLp.
  pose proof (@ones_like_rect n m L Hr Hn) as Hones.
  pose proof (@conv_value_rect n m _ K HLp Hn) as Hc.
  pose proof (@conv_value_rect n m _ K Hones Hn) as Hnum.
  rewrite (@item0_zip_with n m) by
    (try assumption; try (apply rect_zip_with; try assumption);
     do 2 apply rect_grid_map; assumption).
  rewrite (@item0_zip_with n m) by
    (try assumption; do 2 apply rect_grid_map; assumption).
  rewrite !(@item0_grid_map n m) by (try assumption; now apply rect_grid_map).
  unfold conv_value. rewrite (shape_rect HLp Hn), (shape_rect Hones Hn).
  rewrite !item0_tabulate by lia. reflexivity.
Qed.

Lemma tabulate_nonneg n m f : (forall i j, 0 <= f i j) -> nonneg_grid (tabulate n m f).
Proof.
  intros H. apply grid_nonneg. unfold tabulate.
  apply Forall_forall. intros r Hr. apply in_map_iff in Hr. destruct Hr as (i & <- & _).
  apply Forall_forall. intros v Hv. apply in_map_iff in Hv. destruct Hv as (j & <- & _).
  apply H.
Qed.

Lemma conv_at_nonneg g K i j : nonneg_grid g -> nonneg_grid K -> 0 <= conv_at g K i j.
Proof.
  intros Hg HK. unfold conv_at. destruct (shape K) as [kh kw].
  apply Rsum_map_nonneg. intros a. apply Rsum_map_nonneg. intros b.
  apply Rmult_le_pos; [apply HK | apply Hg].
Qed.

(** A non-negative kernel yields non-negative weights. *)
Lemma smoothness_weights_nonneg n m L x K eps :
  rect n m L -> (0 < n)%nat -> nonneg_grid K -> 0 < eps ->
  nonneg_grid (smoothness_weights L x K eps).
Proof.
  intros Hr Hn HK He i j.
  pose proof (@smoothness_weights_rect n m L x K eps Hr Hn) as HW.
  destruct (Z.ltb_spec i 0); [rewrite item0_outside by lia; lra |].
  destruct (Z.ltb_spec j 0); [rewrite item0_outside by lia; lra |].
  destruct (Z.ltb_spec i (Z.of_nat n));
    [| rewrite (@item0_beyond n m _ i j HW) by lia; lra].
  destruct (Z.ltb_spec j (Z.of_nat m));
    [| rewrite (@item0_beyond n m _ i j HW) by lia; lra].
  rewrite (@item0_smoothness_weights n m) by (assumption || lia).
  assert (0 <= conv_at (ones_like L) K i j) as Hnum.
  { apply conv_at_nonneg; [| assumption]. unfold ones_like.
    destruct (shape L). apply tabulate_nonneg. intros; lra. }
  pose proof (Rabs_pos (conv_at (sobel_value L x) K i j)).
  pose proof (Rabs_pos (item0 (sobel_value L x) i j)).
  apply Rmult_le_pos; [apply Rmult_le_pos; [assumption |] |];
    left; apply Rinv_0_lt_compat; lra.
Qed.

(** A constant vector is reproduced by [Id + lambda_ * F]. *)
Lemma constant_solves Wx Wy n m lambda_ c :
  (0 < m)%Z -> (0 <= n)%Z ->
  let b := map (fun _ => c) (range (n * m)) in
  solves (system_matrix lambda_ (laplacian Wx Wy n m)) b b.
Proof.
  intros Hm Hn b. split; [reflexivity |].
  set (F := laplacian Wx Wy n m).
  unfold matvec. cbn [nrow ncol system_matrix F laplacian]. unfold b.
  apply map_ext_in. intros p Hp. apply in_range_iff in Hp.
  rewrite (map_ext_in _ (fun q => c * csr_get (system_matrix lambda_ F) p q)).
  - rewrite Rsum_map_scal.
    rewrite (map_ext _ (fun q => (if (p =? q)%Z then 1 else 0)
                                 + lambda_ * csr_get F p q)).
    + rewrite Rsum_map_plus, Rsum_map_scal.
      rewrite Rsum_indicator by (apply range_nodup || now apply in_range_iff).
      unfold F. rewrite (@laplacian_row_sum Wx Wy n m p Hm Hp). ring.
    + intros q. rewrite csr_get_system by (cbn; lia).
      unfold in_range. cbn [nrow F laplacian].
      destruct (Z.leb_spec 0 p); [| lia]. destruct (Z.ltb_spec p (n * m)); [| lia].
      now rewrite andb_true_r.
  - intros q Hq. apply in_range_iff in Hq.
    rewrite (@nth_map_lt _ _ _ _ _ _ 0%Z) by (rewrite range_length; lia). ring.
Qed.

End WeightValues.

(** C9. Whenever the call returns, every object that was on the heap at
    entry (the caller's luminance array and kernel among them) is unchanged,
    the result is a new object, and the only objects updated in place are
    Python lists created by the call itself - never an ndarray or a sparse
    matrix. *)
Theorem refine_preserves_inputs
        (s s' : state) (L kernel r : ref) (gamma lambda_ eps : R) :
  refine_illumination_map_linear L gamma lambda_ kernel eps s = Returned (r, s') ->
  (forall a o, nth_error (heap s) a = Some o -> nth_error (heap s') a = Some o) /\
  (length (heap s) <= r)%nat /\
  exists w, log s' = log s ++ w /\
            Forall (fun u => (length (heap s) <= u)%nat /\
                             is_list_object (nth_error (heap s') u)) w.
Proof.
  intros E.
  destruct (@triple_refine (length (heap s)) L gamma lambda_ kernel eps s r s'
              (Nat.le_refl _) E) as [(_ & Hframe & _ & Hlog) Hr].
  split; [| split; [exact Hr | exact Hlog]].
  intros a o Ha. rewrite Hframe; [assumption |].
  apply nth_error_Some. congruence.
Qed.

(** ** Constant luminance maps *)

Section ConstantMaps.
Local Open Scope heap_scope.

Lemma tabulate_ext n m f g :
  (forall i j, (0 <= i < n)%Z -> (0 <= j < m)%Z -> f i j = g i j) ->
  tabulate n m f = tabulate n m g.
Proof.
  intros H. unfold tabulate. apply map_ext_in. intros i Hi. apply in_range_iff in Hi.
  apply map_ext_in. intros j Hj. apply in_range_iff in Hj. now apply H.
Qed.

Lemma grid_map_tabulate f n m g :
  grid_map f (tabulate n m g) = tabulate n m (fun i j => f (g i j)).
Proof.
  unfold grid_map, tabulate. rewrite map_map. apply map_ext. intros i.
  now rewrite map_map.
Qed.

Lemma concat_repeat (c : R) m n : concat (repeat (repeat c m) n) = repeat c (n * m).
Proof.
  induction n as [| n IH]; [reflexivity |]. cbn [repeat concat Nat.mul].
  now rewrite IH, repeat_app.
Qed.

Lemma concat_constant (n m : nat) (c : R) :
  concat (tabulate (Z.of_nat n) (Z.of_nat m) (fun _ _ => c))
  = map (fun _ => c) (range (Z.of_nat n * Z.of_nat m)).
Proof.
  unfold tabulate. rewrite !map_const, !range_length, !Nat2Z.id.
  rewrite concat_repeat. f_equal. lia.
Qed.

(** On a constant map and a non-negative kernel the solver reproduces the
    constant, whatever the weights are. *)
Lemma refine_constant s L kernel Kg c gamma lambda_ eps (n m kh kw : nat) :
  nth_error (heap s) L = Some (Ndarray (tabulate (Z.of_nat n) (Z.of_nat m) (fun _ _ => c))) ->
  nth_error (heap s) kernel = Some (Ndarray Kg) ->
  (0 < n)%nat -> (0 < m)%nat ->
  rect kh kw Kg -> (0 < kh)%nat -> (0 < kw)%nat -> nonneg_grid Kg ->
  (0 < eps)%R -> (0 <= lambda_)%R ->
  exists r s',
    refine_illumination_map_linear L gamma lambda_ kernel eps s = Returned (r, s') /\
    nth_error (heap s') r
    = Some (Ndarray (tabulate (Z.of_nat n) (Z.of_nat m)
                       (fun _ _ => Rpower (clip c eps 1) gamma))).
Proof.
  intros HL HK Hn Hm HKg Hkh Hkw Kpos He Hl.
  set (Lg := tabulate (Z.of_nat n) (Z.of_nat m) (fun _ _ => c)) in *.
  assert (rect n m Lg) as HLg by apply rect_tabulate.
  set (Wx := smoothness_weights Lg 1 Kg eps).
  set (Wy := smoothness_weights Lg 0 Kg eps).
  assert (nonneg_grid Wx) as Px by (now apply (@smoothness_weights_nonneg n m)).
  assert (nonneg_grid Wy) as Py by (now apply (@smoothness_weights_nonneg n m)).
  destruct (@refine_run s L kernel Lg Kg gamma lambda_ eps n m kh kw
              HL HK HLg Hn Hm HKg Hkh Hkw He Hl Px Py)
    as (new & writes & r & x & E & Hx & Hr & _).
  fold Wx Wy in Hx.
  set (A := system_matrix lambda_ (laplacian Wx Wy (Z.of_nat n) (Z.of_nat m))) in *.
  set (b := map (fun _ => c) (range (Z.of_nat n * Z.of_nat m))).
  assert (concat Lg = b) as Eb by apply concat_constant.
  assert (x = b) as ->.
  { destruct (@dominant_unique_solution (n * m) A b) as (z & _ & Hz).
    - replace (n * m)%nat with (Z.to_nat (Z.of_nat n * Z.of_nat m)) by lia.
      apply system_matrix_square. lia.
    - replace (n * m)%nat with (Z.to_nat (Z.of_nat n * Z.of_nat m)) by lia.
      apply system_matrix_dominant; try lia; assumption.
    - unfold b. rewrite length_map, range_length. lia.
    - rewrite Eb in Hx. rewrite <- (Hz x Hx). apply Hz.
      apply constant_solves; lia. }
  exists r, {| heap := heap s ++ new; log := log s ++ writes |}.
  split; [exact E |]. cbn [heap]. rewrite Hr. do 2 f_equal.
  unfold refined_value. rewrite !grid_map_tabulate. apply tabulate_ext.
  intros i j Hi Hj. unfold b.
  rewrite (@nth_map_lt _ _ _ _ _ _ 0%Z) by (rewrite range_length; nia).
  reflexivity.
Qed.

End ConstantMaps.

Lemma refine_preserves_inputs_witness :
  let s := {| heap := [Ndarray [[1 / 2]]; Ndarray [[1]]]%R; log := [] |} in
  exists r s',
    refine_illumination_map_linear 0 (6 / 10) (2 / 10) 1 (1 / 1000) s = Returned (r, s') /\
    nth_error (heap s') 0 = Some (Ndarray [[1 / 2]]%R) /\
    nth_error (heap s') 1 = Some (Ndarray [[1]]%R) /\
    (2 <= r)%nat.
Proof.
  intros s.
  destruct (@refine_constant s 0%nat 1%nat [[1]]%R (1 / 2)%R (6 / 10)%R (2 / 10)%R
              (1 / 1000)%R 1%nat 1%nat 1%nat 1%nat) as (r & s' & E & _);
    try reflexivity; try lia; try lra.
  - split; [reflexivity | repeat constructor].
  - apply grid_nonneg. repeat constructor; lra.
  - destruct (@refine_preserves_inputs s s' 0%nat 1%nat r _ _ _ E) as (Hf & Hr & _).
    exists r, s'. repeat split; try assumption; apply Hf; reflexivity.
Defined.

(** ** The range of the gamma-corrected output *)

Section OutputRange.
Local Open Scope heap_scope.

Lemma exp_monotone x y : (x <= y)%R -> (exp x <= exp y)%R.
Proof.
  intros [H | ->]; [left; now apply exp_increasing | right; reflexivity].
Qed.

Lemma Rpower_one gamma : Rpower 1 gamma = 1%R.
Proof. unfold Rpower. now rewrite ln_1, Rmult_0_r, exp_0. Qed.

Lemma clip_range u eps : (0 < eps <= 1)%R -> (eps <= clip u eps 1 <= 1)%R.
Proof.
  intros He. unfold clip, Rmin, Rmax.
  destruct (Rle_dec u eps); destruct (Rle_dec 1 _); lra.
Qed.

(** [clip(u, eps, 1) ** gamma] lies in [[eps ** gamma, 1]]; that interval is
    inside [[eps, 1]] when [gamma <= 1]. *)
Lemma corrected_range u eps gamma :
  (0 < gamma)%R -> (0 < eps < 1)%R ->
  (Rpower eps gamma <= Rpower (clip u eps 1) gamma <= 1)%R /\
  ((gamma <= 1)%R -> (eps <= Rpower (clip u eps 1) gamma)%R).
Proof.
  intros Hg He. pose proof (@clip_range u eps ltac:(lra)) as Hc.
  assert (Rpower eps gamma <= Rpower (clip u eps 1) gamma)%R as Hlow
      by (apply Rle_Rpower_l; lra).
  assert (Rpower (clip u eps 1) gamma <= 1)%R as Hup.
  { apply Rle_trans with (Rpower 1 gamma); [apply Rle_Rpower_l; lra |].
    rewrite Rpower_one. lra. }
  split; [split; assumption |]. intros Hg1.
  apply Rle_trans with (Rpower eps gamma); [| assumption].
  rewrite <- (exp_ln eps) at 1 by lra. unfold Rpower. apply exp_monotone.
  assert (ln eps < 0)%R by (rewrite <- ln_1; apply ln_increasing; lra).
  nra.
Qed.

End OutputRange.

(** C3 (as amended). For every non-empty luminance map, every non-empty
    kernel without negative entries, every [lambda_ >= 0], [gamma > 0] and
    [eps] in (0, 1), the call returns a grid in which every element lies in
    [[eps ** gamma, 1]]; every element lies in [[eps, 1]] when, in addition,
    [gamma <= 1]. *)
Theorem refine_output_range
        (s : state) (L kernel : ref) (Lg Kg : grid) (gamma lambda_ eps : R)
        (n m kh kw : nat) :
  nth_error (heap s) L = Some (Ndarray Lg) ->
  nth_error (heap s) kernel = Some (Ndarray Kg) ->
  rect n m Lg -> (0 < n)%nat -> (0 < m)%nat ->
  rect kh kw Kg -> (0 < kh)%nat -> (0 < kw)%nat -> nonneg_grid Kg ->
  (0 <= lambda_)%R -> (0 < gamma)%R -> (0 < eps < 1)%R ->
  exists r s' out,
    refine_illumination_map_linear L gamma lambda_ kernel eps s = Returned (r, s') /\
    nth_error (heap s') r = Some (Ndarray out) /\
    Forall (Forall (fun v => (Rpower eps gamma <= v <= 1)%R /\
                             ((gamma <= 1)%R -> (eps <= v)%R))) out.
Proof.
  intros HL HK HLg Hn Hm HKg Hkh Hkw PK Hl Hg He.
  destruct (@refine_run s L kernel Lg Kg gamma lambda_ eps n m kh kw
              HL HK HLg Hn Hm HKg Hkh Hkw ltac:(lra) Hl)
    as (new & writes & r & x & E & _ & Hr & _).
  - apply (@smoothness_weights_nonneg n m); (assumption || lra).
  - apply (@smoothness_weights_nonneg n m); (assumption || lra).
  - eexists r, _, _. split; [exact E |]. split; [exact Hr |].
    unfold refined_value, grid_map. rewrite map_map. apply Forall_forall. intros row Hrow.
    apply in_map_iff in Hrow. destruct Hrow as (r0 & <- & _).
    rewrite map_map. apply Forall_forall. intros v Hv.
    apply in_map_iff in Hv. destruct Hv as (u & <- & _).
    now apply corrected_range.
Qed.

Lemma refine_output_range_witness :
  let s := {| heap := [Ndarray [[1 / 4; 1 / 2; 3 / 4]; [1 / 2; 1 / 2; 1]]; Ndarray [[1]]]%R;
              log := [] |} in
  exists r s' out,
    refine_illumination_map_linear 0%nat (6 / 10) (2 / 10) 1%nat (1 / 1000) s
    = Returned (r, s') /\
    nth_error (heap s') r = Some (Ndarray out) /\
    Forall (Forall (fun v => (1 / 1000 <= v <= 1)%R)) out.
Proof.
  intros s.
  destruct (@refine_output_range
              s 0%nat 1%nat [[1 / 4; 1 / 2; 3 / 4]; [1 / 2; 1 / 2; 1]]%R [[1]]%R
              (6 / 10)%R (2 / 10)%R (1 / 1000)%R 2%nat 3%nat 1%nat 1%nat)
    as (r & s' & out & E & Hout & Hall); try reflexivity; try lia; try lra.
  - split; [reflexivity | repeat constructor].
  - split; [reflexivity | repeat constructor].
  - apply grid_nonneg. repeat constructor; lra.
  - exists r, s', out. split; [exact E |]. split; [exact Hout |].
    eapply Forall_impl; [| exact Hall]. intros row Hrow.
    eapply Forall_impl; [| exact Hrow]. intros v [[_ Hv1] Hv2].
    split; [apply Hv2; lra | exact Hv1].
Defined.

(** C3 as stated fails for gamma > 1: with eps = 1/2 and gamma = 2 the
    1 x 1 map [[0]] is refined to [[1/4]], below eps. *)
Lemma refine_output_below_eps :
  let s := {| heap := [Ndarray [[0]]; Ndarray [[1]]]%R; log := [] |} in
  exists r s',
    refine_illumination_map_linear 0 2 1 1 (1 / 2) s = Returned (r, s') /\
    nth_error (heap s') r = Some (Ndarray [[1 / 4]]%R) /\
    ~ (1 / 2 <= 1 / 4 <= 1)%R.
Proof.
  intros s.
  destruct (@refine_constant s 0%nat 1%nat [[1]]%R 0%R 2%R 1%R
              (1 / 2)%R 1%nat 1%nat 1%nat 1%nat) as (r & s' & E & Hr);
    try reflexivity; try lia; try lra.
  - split; [reflexivity | repeat constructor].
  - apply grid_nonneg. repeat constructor; lra.
  - exists r, s'. split; [exact E |]. split; [| lra].
    rewrite Hr. do 2 f_equal. change (tabulate (Z.of_nat 1) (Z.of_nat 1)
      (fun _ _ => Rpower (clip 0 (1 / 2) 1) 2)) with [[Rpower (clip 0 (1 / 2) 1) 2]].
    do 2 f_equal.
    replace (clip 0 (1 / 2) 1) with (1 / 2)%R
      by (unfold clip, Rmin, Rmax;
          destruct (Rle_dec 0 (1 / 2)); destruct (Rle_dec 1 _); lra).
    replace (1 / 4)%R with ((1 / 2) ^ 2)%R by (simpl; lra).
    rewrite <- Rpower_pow by lra. reflexivity.
Qed.

(** ** Parameters are used as given *)

(** C8 (as amended). No parameter is validated or clamped.
    [create_spacial_affinity_kernel] returns the [size] x [size] kernel
    [exp(-0.5 d^2 / sigma^2)] for every [size >= 0], even included, and
    every [sigma], negative included, with [1e-150 <= |sigma| <= 1e150],
    the range in which [sigma ** 2] is a normal float (above it Python's
    [**] raises OverflowError, at 0 the quotient is not finite).  For every
    real [gamma], non-positive included, [refine_illumination_map_linear]
    on a non-empty map with a non-empty non-negative kernel, [eps > 0] and
    [lambda_ >= 0] returns [clip(x, eps, 1) ** gamma], where [x] is the one
    solution of [(Id + lambda_ * F) x = L.flatten()]. *)
Theorem parameters_are_not_validated
        (sigma : R) (size : Z) (s : state) (L kernel : ref) (Lg Kg : grid)
        (gamma lambda_ eps : R) (n m kh kw : nat) :
  (/ 10 ^ 150 <= Rabs sigma <= 10 ^ 150)%R -> (0 <= size)%Z ->
  nth_error (heap s) L = Some (Ndarray Lg) ->
  nth_error (heap s) kernel = Some (Ndarray Kg) ->
  rect n m Lg -> (0 < n)%nat -> (0 < m)%nat ->
  rect kh kw Kg -> (0 < kh)%nat -> (0 < kw)%nat -> nonneg_grid Kg ->
  (0 < eps)%R -> (0 <= lambda_)%R ->
  create_spacial_affinity_kernel sigma size
  = Returned (tabulate size size (kernel_value sigma size)) /\
  let A := system_matrix lambda_
             (laplacian (smoothness_weights Lg 1 Kg eps) (smoothness_weights Lg 0 Kg eps)
                        (Z.of_nat n) (Z.of_nat m)) in
  exists r s' x,
    refine_illumination_map_linear L gamma lambda_ kernel eps s = Returned (r, s') /\
    solves A (concat Lg) x /\
    (forall y, solves A (concat Lg) y -> y = x) /\
    nth_error (heap s') r
    = Some (Ndarray (grid_map (fun v => Rpower v gamma)
                       (grid_map (fun v => clip v eps 1)
                          (tabulate (Z.of_nat n) (Z.of_nat m)
                             (fun i j => nth (Z.to_nat (i * Z.of_nat m + j)) x 0%R))))).
Proof.
  intros Hs Hsize HL HK HLg Hn Hm HKg Hkh Hkw Kpos He Hl.
  assert (sigma <> 0%R) as Hs0.
  { intros ->. rewrite Rabs_R0 in Hs.
    assert (0 < / 10 ^ 150)%R by (apply Rinv_0_lt_compat, pow_lt; lra). lra. }
  split; [now apply create_spacial_affinity_kernel_returns |].
  intros A.
  assert (nonneg_grid (smoothness_weights Lg 1 Kg eps)) as PWx
    by (now apply (@smoothness_weights_nonneg n m)).
  assert (nonneg_grid (smoothness_weights Lg 0 Kg eps)) as PWy
    by (now apply (@smoothness_weights_nonneg n m)).
  destruct (@refine_run s L kernel Lg Kg gamma lambda_ eps n m kh kw
              HL HK HLg Hn Hm HKg Hkh Hkw He Hl PWx PWy)
    as (new & writes & r & x & E & Hx & Hr & _).
  exists r, {| heap := heap s ++ new; log := log s ++ writes |}, x.
  split; [exact E |]. split; [exact Hx |]. split; [| exact Hr].
  intros y Hy.
  destruct (@dominant_unique_solution (n * m) A (concat Lg)) as (x0 & _ & Huniq).
  - replace (n * m)%nat with (Z.to_nat (Z.of_nat n * Z.of_nat m)) by lia.
    apply system_matrix_square. lia.
  - replace (n * m)%nat with (Z.to_nat (Z.of_nat n * Z.of_nat m)) by lia.
    apply system_matrix_dominant; try lia; assumption.
  - now apply (@concat_length n m).
  - rewrite <- (Huniq x Hx). symmetry. now apply Huniq.
Qed.

Lemma parameters_are_not_validated_witness :
  let Lg := [[1 / 4; 1 / 2; 3 / 4]; [1 / 2; 1 / 2; 1]]%R in
  let s := {| heap := [Ndarray Lg; Ndarray [[1]]%R]; log := [] |} in
  create_spacial_affinity_kernel (-1) 2
  = Returned (tabulate 2 2 (kernel_value (-1) 2)) /\
  exists r s' x,
    refine_illumination_map_linear 0%nat (-1) (2 / 10) 1%nat (1 / 1000) s
    = Returned (r, s') /\
    nth_error (heap s') r
    = Some (Ndarray (grid_map (fun v => Rpower v (-1))
                       (grid_map (fun v => clip v (1 / 1000) 1)
                          (tabulate 2 3 (fun i j => nth (Z.to_nat (i * 3 + j)) x 0%R))))).
Proof.
  intros Lg s.
  destruct (@parameters_are_not_validated (-1)%R 2%Z s 0%nat 1%nat Lg [[1]]%R
              (-1)%R (2 / 10)%R (1 / 1000)%R 2%nat 3%nat 1%nat 1%nat)
    as [Hk (r & s' & x & E & _ & _ & Hr)]; try reflexivity; try lia; try lra.
  - assert (Rabs (-1) = 1)%R as -> by (unfold Rabs; destruct (Rcase_abs (-1)); lra).
    split.
    + apply Rle_trans with (/ 1)%R; [| rewrite Rinv_1; lra].
      apply Rinv_le_contravar; [lra | apply pow_R1_Rle; lra].
    + apply pow_R1_Rle. lra.
  - split; [reflexivity | repeat constructor].
  - split; [reflexivity | repeat constructor].
  - apply grid_nonneg. repeat constructor; lra.
  - split; [exact Hk |]. exists r, s', x. split; [exact E | exact Hr].
Defined.

(** C8 as stated fails: a negative [sigma] with an even [size] raises
    nothing and yields the same kernel as its absolute value. *)
Lemma kernel_accepts_invalid_parameters :
  (forall e, create_spacial_affinity_kernel (-1) 2 <> Raised e) /\
  create_spacial_affinity_kernel (-1) 2 = create_spacial_affinity_kernel 1 2.
Proof.
  rewrite !create_spacial_affinity_kernel_returns by (lra || lia).
  split; [intros e; discriminate |].
  f_equal. apply tabulate_ext. intros i j _ _. unfold kernel_value.
  do 2 f_equal. simpl. lra.
Qed.

(** ** The constant 4 x 4 scenario *)

(** A 4 x 4 array filled with [c], and the 3 x 3 kernel peaked at its centre. *)
Definition constant4 (c : R) : grid :=
  [[c; c; c; c]; [c; c; c; c]; [c; c; c; c]; [c; c; c; c]].

Definition peaked3 : grid := [[0; 0; 0]; [0; 1; 0]; [0; 0; 0]]%R.

Section Scenario.
Local Open Scope R_scope.

Lemma reflect101_range len k :
  (0 < len)%Z -> (-1 <= k <= len)%Z -> (0 <= reflect101 len k < len)%Z.
Proof.
  intros Hlen Hk. unfold reflect101.
  destruct (Z.eqb_spec len 1); [lia |].
  destruct (Z.ltb_spec k 0); [lia |].
  destruct (Z.leb_spec len k); lia.
Qed.

(** Every directional derivative of a constant map is zero. *)
Lemma sobel_constant (n m : nat) c x :
  (0 < n)%nat -> (0 < m)%nat ->
  sobel_value (tabulate (Z.of_nat n) (Z.of_nat m) (fun _ _ => c)) x
  = tabulate (Z.of_nat n) (Z.of_nat m) (fun _ _ => 0).
Proof.
  intros Hn Hm. unfold sobel_value.
  rewrite (shape_rect (rect_tabulate n m _) Hn).
  destruct (x =? 1)%Z; apply tabulate_ext; intros i j Hi Hj.
  - rewrite !item0_tabulate by (try apply reflect101_range; lia). ring.
  - rewrite !item0_tabulate by (try apply reflect101_range; lia). ring.
Qed.

(** Convolution with the peaked kernel leaves every sample unchanged. *)
Lemma conv_peaked g i j : conv_at g peaked3 i j = item0 g i j.
Proof.
  unfold conv_at. change (shape peaked3) with (3, 3)%Z. cbv iota beta.
  change (range 3) with [0; 1; 2]%Z. cbn [map]. rewrite ?Rsum_cons, ?Rsum_nil.
  change (3 / 2)%Z with 1%Z.
  change (item0 peaked3 0 0) with 0. change (item0 peaked3 0 1) with 0.
  change (item0 peaked3 0 2) with 0. change (item0 peaked3 1 0) with 0.
  change (item0 peaked3 1 1) with 1. change (item0 peaked3 1 2) with 0.
  change (item0 peaked3 2 0) with 0. change (item0 peaked3 2 1) with 0.
  change (item0 peaked3 2 2) with 0.
  replace (i + 1 - 1)%Z with i by lia. replace (j + 1 - 1)%Z with j by lia. ring.
Qed.

(** On a constant map the peaked kernel gives the weight [1 / eps / eps]
    everywhere. *)
Lemma weights_constant_peaked (n m : nat) c x eps :
  (0 < n)%nat -> (0 < m)%nat -> 0 < eps ->
  smoothness_weights (tabulate (Z.of_nat n) (Z.of_nat m) (fun _ _ => c)) x peaked3 eps
  = tabulate (Z.of_nat n) (Z.of_nat m) (fun _ _ => 1 / eps / eps).
Proof.
  intros Hn Hm He.
  set (L := tabulate (Z.of_nat n) (Z.of_nat m) (fun _ _ => c)).
  assert (rect n m L) as HL by apply rect_tabulate.
  apply (@grid_ext n m);
    [now apply smoothness_weights_rect | apply rect_tabulate |].
  intros i j Hi Hj.
  rewrite (@item0_smoothness_weights n m) by assumption.
  rewrite !conv_peaked. unfold L. rewrite sobel_constant by assumption.
  unfold ones_like. rewrite (shape_rect (rect_tabulate n m _) Hn).
  rewrite !item0_tabulate by lia. rewrite Rabs_R0, Rplus_0_l. reflexivity.
Qed.

End Scenario.

(** The heap of the scenario: the luminance map at 0, the kernel at 1. *)
Definition scenario : state :=
  {| heap := [Ndarray (constant4 (1 / 2)); Ndarray peaked3]; log := [] |}.

Section ScenarioRun.
Local Open Scope R_scope.

Lemma constant4_tabulate c :
  constant4 c = tabulate (Z.of_nat 4) (Z.of_nat 4) (fun _ _ => c).
Proof. reflexivity. Qed.

Lemma peaked3_rect : rect 3 3 peaked3.
Proof. split; [reflexivity | repeat constructor]. Qed.

Lemma peaked3_nonneg : nonneg_grid peaked3.
Proof. apply grid_nonneg. repeat constructor; lra. Qed.

Lemma scenario_weights x :
  x = 1%Z \/ x = 0%Z ->
  exists r s',
    compute_smoothness_weights 0%nat x 1%nat default_eps scenario = Returned (r, s') /\
    nth_error (heap s') r
    = Some (Ndarray (constant4 (1 / (default_eps * default_eps)))).
Proof.
  intros Hx.
  destruct (@compute_smoothness_weights_run scenario 0%nat 1%nat
              (constant4 (1 / 2)) peaked3 x default_eps 4 4 3 3)
    as (new & r & E & Hr); try reflexivity; try lia; try assumption.
  - rewrite constant4_tabulate. apply rect_tabulate.
  - apply peaked3_rect.
  - unfold default_eps. lra.
  - exists r, {| heap := heap scenario ++ new; log := log scenario |}.
    split; [exact E |]. cbn [heap]. rewrite Hr. do 2 f_equal.
    rewrite (constant4_tabulate (1 / 2)).
    rewrite weights_constant_peaked by (lia || (unfold default_eps; lra)).
    rewrite (constant4_tabulate (1 / (default_eps * default_eps))).
    apply tabulate_ext. intros i j _ _. unfold default_eps. field.
Qed.

End ScenarioRun.

(** C5 (as amended). On the constant 0.5 map of shape 4 x 4 with
    gamma = 0.6, lambda = 0.2, the default eps = 0.001 and the 3 x 3 kernel
    peaked at its centre: both directional derivatives are zero everywhere,
    both smoothness weight maps equal 1 / eps^2 (= 1000000) everywhere, the
    solver returns the constant 0.5 vector, and the call returns the
    constant grid with every entry [0.5 ** 0.6]. *)
Theorem constant_map_scenario :
  let W := constant4 (1 / (default_eps * default_eps)) in
  Sobel (constant4 (1 / 2)) 1 0 = Returned (constant4 0) /\
  Sobel (constant4 (1 / 2)) 0 1 = Returned (constant4 0) /\
  (exists r s',
     compute_smoothness_weights 0 1 1 default_eps scenario = Returned (r, s') /\
     nth_error (heap s') r = Some (Ndarray W)) /\
  (exists r s',
     compute_smoothness_weights 0 0 1 default_eps scenario = Returned (r, s') /\
     nth_error (heap s') r = Some (Ndarray W)) /\
  (1 / (default_eps * default_eps) = 1000000)%R /\
  spsolve (system_matrix (2 / 10) (laplacian W W 4 4)) (concat (constant4 (1 / 2)))
  = Returned (concat (constant4 (1 / 2))) /\
  exists r s',
    refine_illumination_map_linear 0 (6 / 10) (2 / 10) 1 default_eps scenario
    = Returned (r, s') /\
    nth_error (heap s') r = Some (Ndarray (constant4 (Rpower (1 / 2) (6 / 10)))).
Proof.
  intros W.
  assert (rect 4 4 (constant4 (1 / 2))) as HL
      by (rewrite constant4_tabulate; apply rect_tabulate).
  assert (1 / (default_eps * default_eps) = 1000000)%R as HW
      by (unfold default_eps; field).
  split; [| split; [| split; [| split; [| split; [| split]]]]].
  - change (Sobel (constant4 (1 / 2)) (if (1 =? 1)%Z then 1 else 0)%Z
                  (if (1 =? 0)%Z then 1 else 0)%Z = Returned (constant4 0)).
    rewrite (@Sobel_returns 4 4) by (assumption || lia || now left).
    rewrite (constant4_tabulate (1 / 2)), sobel_constant by lia. reflexivity.
  - change (Sobel (constant4 (1 / 2)) (if (0 =? 1)%Z then 1 else 0)%Z
                  (if (0 =? 0)%Z then 1 else 0)%Z = Returned (constant4 0)).
    rewrite (@Sobel_returns 4 4) by (assumption || lia || now right).
    rewrite (constant4_tabulate (1 / 2)), sobel_constant by lia. reflexivity.
  - apply scenario_weights. now left.
  - apply scenario_weights. now right.
  - exact HW.
  - apply (@spsolve_is_the_solution 16).
    + apply (@system_matrix_square (2 / 10)%R _ _ 4 4). lia.
    + apply (@system_matrix_dominant _ _ 4 4); try lia; try lra;
        apply grid_nonneg; unfold W; rewrite HW; repeat constructor; lra.
    + reflexivity.
    + rewrite (constant4_tabulate (1 / 2)), concat_constant.
      apply constant_solves; lia.
  - destruct (@refine_constant scenario 0%nat 1%nat peaked3 (1 / 2)%R (6 / 10)%R
                (2 / 10)%R default_eps 4 4 3 3) as (r & s' & E & Hr);
      try reflexivity; try lia; try lra.
    + apply peaked3_rect.
    + apply peaked3_nonneg.
    + unfold default_eps. lra.
    + exists r, s'. split; [exact E |]. rewrite Hr. do 2 f_equal.
      rewrite constant4_tabulate. apply tabulate_ext. intros i j _ _. f_equal.
      unfold clip, default_eps, Rmin, Rmax.
      destruct (Rle_dec (1 / 2) (1 / 1000)); destruct (Rle_dec 1 _); lra.
Qed.

(** C5 as stated fails in one point: the weights are 1 / eps^2, not 1 / eps. *)
Lemma scenario_weights_differ_from_reciprocal_eps :
  exists r s',
    compute_smoothness_weights 0 1 1 default_eps scenario = Returned (r, s') /\
    nth_error (heap s') r
    = Some (Ndarray (constant4 (1 / (default_eps * default_eps)))) /\
    constant4 (1 / (default_eps * default_eps)) <> constant4 (1 / default_eps).
Proof.
  destruct (@scenario_weights 1%Z (or_introl eq_refl)) as (r & s' & E & Hr).
  exists r, s'. split; [exact E |]. split; [exact Hr |].
  intros H. inversion H as [H0]. unfold default_eps in H0.
  assert (1 / (1 / 1000 * (1 / 1000)) = 1000000)%R by field.
  assert (1 / (1 / 1000) = 1000)%R by field. lra.
Qed.

(* ================================================================= *)
(** * Part III: further properties of the code *)
(* ================================================================= *)

(** ** Degrees in the four-neighbourhood *)

(** X1. The dictionary holds one entry per existing neighbour and no other:
    its size is the number of the four directions in which the grid
    continues, so 4 in the interior, 3 on an edge and 2 in a corner. *)
Theorem get_sparse_neighbor_degree (n m p : Z) :
  (1 <= m)%Z -> (0 <= p < n * m)%Z ->
  exists d, get_sparse_neighbor p n m = Returned d /\
    Z.of_nat (length d)
    = ((if 0 <? p / m then 1 else 0) + (if p / m <? n - 1 then 1 else 0)
       + (if 0 <? p mod m then 1 else 0) + (if p mod m <? m - 1 then 1 else 0))%Z.
Proof.
  intros Hm Hp. exists (neighbor_dict p n m). unfold get_sparse_neighbor.
  destruct (Z.eqb_spec m 0); [lia |]. split; [reflexivity |].
  rewrite neighbor_dict_flat by lia. unfold up, down, left, right.
  rewrite !Z.geb_leb, !length_app.
  destruct (Z.leb_spec 0 (p / m - 1)); destruct (Z.ltb_spec (p / m + 1) n);
    destruct (Z.leb_spec 0 (p mod m - 1)); destruct (Z.ltb_spec (p mod m + 1) m);
    destruct (Z.ltb_spec 0 (p / m)); destruct (Z.ltb_spec (p / m) (n - 1));
    destruct (Z.ltb_spec 0 (p mod m)); destruct (Z.ltb_spec (p mod m) (m - 1));
    cbn [length]; lia.
Qed.

Lemma get_sparse_neighbor_degree_witness :
  exists d, get_sparse_neighbor 4 3 3 = Returned d /\ Z.of_nat (length d) = 4%Z.
Proof.
  destruct (@get_sparse_neighbor_degree 3 3 4) as (d & E & Hl); [lia | lia |].
  exists d. split; [exact E | exact Hl].
Defined.

(** ** Shape of the Gaussian kernel *)

Section KernelShape.
Local Open Scope R_scope.

Lemma euclidean_sq (i j c : Z) :
  euclidean (i, j) (c, c) ^ 2 = (IZR i - IZR c) ^ 2 + (IZR j - IZR c) ^ 2.
Proof.
  unfold euclidean. cbn [fst snd].
  set (s := (IZR i - IZR c) ^ 2 + (IZR j - IZR c) ^ 2).
  assert (0 <= s)
    by (unfold s; pose proof (pow2_ge_0 (IZR i - IZR c));
        pose proof (pow2_ge_0 (IZR j - IZR c)); lra).
  replace (sqrt s ^ 2) with (sqrt s * sqrt s) by (simpl; ring).
  now apply sqrt_sqrt.
Qed.

(** The stored value as a function of the squared distance to the centre. *)
Lemma kernel_value_exp sigma size i j :
  kernel_value sigma size i j
  = exp (- (1 / 2) * ((IZR i - IZR (size / 2)) ^ 2 + (IZR j - IZR (size / 2)) ^ 2)
         / sigma ^ 2).
Proof. unfold kernel_value. now rewrite euclidean_sq. Qed.

Lemma kernel_value_range sigma size i j :
  sigma <> 0 ->
  0 < kernel_value sigma size i j <= 1 /\
  (kernel_value sigma size i j = 1 <-> i = (size / 2)%Z /\ j = (size / 2)%Z).
Proof.
  intros Hs. rewrite kernel_value_exp.
  set (c := (size / 2)%Z).
  set (a := IZR i - IZR c). set (b := IZR j - IZR c).
  assert (0 < sigma ^ 2) as Hs2 by (simpl; nra).
  assert (0 <= a ^ 2 + b ^ 2) as Hd by (simpl; nra).
  set (e := - (1 / 2) * (a ^ 2 + b ^ 2) / sigma ^ 2).
  assert (e <= 0) as He.
  { unfold e, Rdiv. rewrite Rmult_assoc.
    assert (0 <= (a ^ 2 + b ^ 2) * / sigma ^ 2)
      by (apply Rmult_le_pos; [assumption | left; now apply Rinv_0_lt_compat]).
    lra. }
  split; [split; [apply exp_pos |] |].
  - rewrite <- exp_0. now apply exp_monotone.
  - split.
    + intros E. rewrite <- exp_0 in E. apply exp_inv in E.
      assert (a ^ 2 + b ^ 2 = 0) as Z0.
      { unfold e in E. apply (Rmult_eq_compat_r (sigma ^ 2)) in E.
        unfold Rdiv in E. rewrite Rmult_assoc, Rinv_l, Rmult_1_r, Rmult_0_l in E by lra.
        lra. }
      assert (a = 0 /\ b = 0) as [Ha Hb] by (simpl in Z0; split; nra).
      unfold a, b in *. split; apply eq_IZR; lra.
    + intros [-> ->]. unfold e, a, b.
      replace (IZR c - IZR c) with 0 by ring.
      replace (- (1 / 2) * (0 ^ 2 + 0 ^ 2) / sigma ^ 2) with 0
        by (unfold Rdiv; simpl; ring).
      apply exp_0.
Qed.

Lemma kernel_value_separable sigma size i j :
  kernel_value sigma size i j
  = kernel_value sigma size i (size / 2) * kernel_value sigma size (size / 2) j.
Proof.
  rewrite !kernel_value_exp, <- exp_plus. f_equal.
  replace (IZR (size / 2) - IZR (size / 2)) with 0 by ring.
  unfold Rdiv. simpl. ring.
Qed.

Lemma kernel_value_transpose sigma size i j :
  kernel_value sigma size i j = kernel_value sigma size j i.
Proof. rewrite !kernel_value_exp. f_equal. unfold Rdiv. ring. Qed.

Lemma kernel_value_antitone sigma size i j i' j' :
  sigma <> 0 ->
  let c := (size / 2)%Z in
  ((i' - c) * (i' - c) + (j' - c) * (j' - c)
   <= (i - c) * (i - c) + (j - c) * (j - c))%Z ->
  kernel_value sigma size i j <= kernel_value sigma size i' j'.
Proof.
  intros Hs c Hd. rewrite !kernel_value_exp. fold c. apply exp_monotone.
  apply IZR_le in Hd. rewrite !plus_IZR, !mult_IZR, !minus_IZR in Hd.
  assert (0 < / sigma ^ 2) as Hinv by (apply Rinv_0_lt_compat; simpl; nra).
  unfold Rdiv. simpl. simpl in Hinv.
  set (S := (IZR i - IZR c) * ((IZR i - IZR c) * 1)
            + (IZR j - IZR c) * ((IZR j - IZR c) * 1)).
  set (S' := (IZR i' - IZR c) * ((IZR i' - IZR c) * 1)
             + (IZR j' - IZR c) * ((IZR j' - IZR c) * 1)).
  assert (S' <= S) by (unfold S, S'; lra).
  set (k := / (sigma * (sigma * 1))) in *.
  assert (S' * k <= S * k) by (apply Rmult_le_compat_r; lra).
  lra.
Qed.

End KernelShape.

(** X2. For every non-zero [sigma] and every [size >= 0], odd or even, all
    entries of the returned kernel lie in [[0, 1]], the entry at the centre
    cell [(size // 2, size // 2)] is 1, and an entry is never larger than
    an entry that is nearer to the centre (or as near). *)
Theorem kernel_entries_in_unit_interval (sigma : R) (size : Z) :
  sigma <> 0%R -> (0 <= size)%Z ->
  exists kernel,
    create_spacial_affinity_kernel sigma size = Returned kernel /\
    (forall i j, (0 <= i < size)%Z -> (0 <= j < size)%Z ->
       exists v, getitem kernel i j = Returned v /\ (0 <= v <= 1)%R /\
                 (i = (size / 2)%Z /\ j = (size / 2)%Z -> v = 1%R)) /\
    (forall i j i' j', (0 <= i < size)%Z -> (0 <= j < size)%Z ->
       (0 <= i' < size)%Z -> (0 <= j' < size)%Z ->
       let c := (size / 2)%Z in
       ((i' - c) * (i' - c) + (j' - c) * (j' - c)
        <= (i - c) * (i - c) + (j - c) * (j - c))%Z ->
       exists v v', getitem kernel i j = Returned v /\
                    getitem kernel i' j' = Returned v' /\ (v <= v')%R).
Proof.
  intros Hs Hsize. exists (tabulate size size (kernel_value sigma size)).
  split; [now apply create_spacial_affinity_kernel_returns |]. split.
  - intros i j Hi Hj. exists (kernel_value sigma size i j).
    split; [now apply getitem_tabulate |].
    destruct (@kernel_value_range sigma size i j Hs) as [[H0 H1] Hc].
    split; [lra | apply Hc].
  - intros i j i' j' Hi Hj Hi' Hj' c Hd.
    exists (kernel_value sigma size i j), (kernel_value sigma size i' j').
    rewrite !getitem_tabulate by assumption.
    split; [reflexivity |]. split; [reflexivity |].
    now apply kernel_value_antitone.
Qed.

Lemma kernel_entries_in_unit_interval_witness :
  exists kernel,
    create_spacial_affinity_kernel (-3) 4 = Returned kernel /\
    (exists v, getitem kernel 0 3 = Returned v /\ (0 <= v <= 1)%R) /\
    (exists v v', getitem kernel 0 3 = Returned v /\
                  getitem kernel 1 2 = Returned v' /\ (v <= v')%R).
Proof.
  destruct (@kernel_entries_in_unit_interval (-3)%R 4%Z) as (k & E & H & Hm); [lra | lia |].
  exists k. split; [exact E |]. split.
  - destruct (H 0%Z 3%Z) as (v & Hv & Hr & _); [lia | lia |].
    exists v. split; [exact Hv | exact Hr].
  - apply (Hm 0%Z 3%Z 1%Z 2%Z); lia.
Defined.

(** X3. For every non-zero [sigma] and every [size >= 0] the returned kernel
    equals its transpose and is separable: the entry at [(i, j)] is the
    product of the entries at [(i, c)] and [(c, j)] of the centre column and
    centre row, [c = size // 2]. *)
Theorem kernel_separable_and_transposed (sigma : R) (size : Z) :
  sigma <> 0%R -> (0 <= size)%Z ->
  exists kernel,
    create_spacial_affinity_kernel sigma size = Returned kernel /\
    forall i j, (0 <= i < size)%Z -> (0 <= j < size)%Z ->
      exists v a b,
        getitem kernel i j = Returned v /\ getitem kernel j i = Returned v /\
        getitem kernel i (size / 2) = Returned a /\
        getitem kernel (size / 2) j = Returned b /\ v = (a * b)%R.
Proof.
  intros Hs Hsize. exists (tabulate size size (kernel_value sigma size)).
  split; [now apply create_spacial_affinity_kernel_returns |].
  intros i j Hi Hj.
  assert (0 <= size / 2 < size)%Z
    by (split; [apply Z.div_pos; lia | apply Z.div_lt; lia]).
  exists (kernel_value sigma size i j), (kernel_value sigma size i (size / 2)),
    (kernel_value sigma size (size / 2) j).
  rewrite !getitem_tabulate by lia.
  rewrite (kernel_value_transpose sigma size j i).
  repeat split. apply kernel_value_separable.
Qed.

Lemma kernel_separable_and_transposed_witness :
  exists kernel,
    create_spacial_affinity_kernel 3 default_size = Returned kernel /\
    exists v, getitem kernel 2 5 = Returned v /\ getitem kernel 5 2 = Returned v.
Proof.
  destruct (@kernel_separable_and_transposed 3%R default_size) as (k & E & H);
    [lra | unfold default_size; lia |].
  exists k. split; [exact E |].
  destruct (H 2%Z 5%Z) as (v & _ & _ & H1 & H2 & _);
    [unfold default_size; lia | unfold default_size; lia |].
  exists v. split; assumption.
Defined.

(** ** Inputs that OpenCV rejects *)

Section RejectedInputs.
Local Open Scope heap_scope.

Lemma bind_raised {A B : Type} (c : M A) (f : A -> M B) s e :
  c s = Raised e -> bind c f s = Raised e.
Proof. intros E. unfold bind. now rewrite E. Qed.

Lemma Sobel_rejects g x :
  (fst (shape g) = 0 \/ snd (shape g) = 0 \/ (x <> 1 /\ x <> 0))%Z ->
  Sobel g (if (x =? 1)%Z then 1 else 0)%Z (if (x =? 0)%Z then 1 else 0)%Z
  = Raised Cv2Error.
Proof.
  intros H. unfold Sobel. destruct (shape g) as [n m]. cbn [fst snd] in H.
  destruct (Z.eqb_spec n 0); [reflexivity |].
  destruct (Z.eqb_spec m 0); [reflexivity |]. cbn [orb].
  destruct (Z.eqb_spec x 1); destruct (Z.eqb_spec x 0); cbn; try reflexivity; lia.
Qed.

Lemma cv2_Sobel_raises s src g dx dy e :
  nth_error (heap s) src = Some (Ndarray g) -> Sobel g dx dy = Raised e ->
  cv2_Sobel src dx dy s = Raised e.
Proof.
  intros H E. unfold cv2_Sobel.
  erewrite bind_returned by (apply load_ndarray_run; eassumption).
  apply bind_raised. unfold lift. now rewrite E.
Qed.

End RejectedInputs.

(** X4. [compute_smoothness_weights] validates nothing itself: a direction
    [x] other than 0 and 1 makes both derivative orders 0, and an array with
    no rows or no columns has nothing to differentiate; in both cases the
    call ends with the error of [cv2.Sobel], whatever the kernel and [eps]
    are. *)
Theorem compute_smoothness_weights_rejects s L kernel Lg (x : Z) (eps : R) :
  nth_error (heap s) L = Some (Ndarray Lg) ->
  (fst (shape Lg) = 0 \/ snd (shape Lg) = 0 \/ (x <> 1 /\ x <> 0))%Z ->
  compute_smoothness_weights L x kernel eps s = Raised Cv2Error.
Proof.
  intros HL H. unfold compute_smoothness_weights. apply bind_raised.
  apply (@cv2_Sobel_raises s L Lg); [exact HL |]. now apply Sobel_rejects.
Qed.

Lemma compute_smoothness_weights_rejects_witness :
  compute_smoothness_weights 0%nat 2 1%nat default_eps
    {| heap := [Ndarray [[1; 2]; [3; 4]]%R]; log := [] |} = Raised Cv2Error.
Proof.
  apply (@compute_smoothness_weights_rejects _ _ _ [[1; 2]; [3; 4]]%R);
    [reflexivity | right; right; lia].
Defined.

(** X5. On a luminance map with no rows or no columns
    [refine_illumination_map_linear] raises the error of [cv2.Sobel] in its
    first statement, for every [gamma], [lambda_], kernel and [eps]: no
    empty result is returned. *)
Theorem refine_rejects_empty_map s L kernel Lg (gamma lambda_ eps : R) :
  nth_error (heap s) L = Some (Ndarray Lg) ->
  (fst (shape Lg) = 0 \/ snd (shape Lg) = 0)%Z ->
  refine_illumination_map_linear L gamma lambda_ kernel eps s = Raised Cv2Error.
Proof.
  intros HL H. unfold refine_illumination_map_linear. apply bind_raised.
  unfold compute_smoothness_weights. apply bind_raised.
  apply (@cv2_Sobel_raises s L Lg); [exact HL |].
  apply (@Sobel_rejects Lg 1). tauto.
Qed.

Lemma refine_rejects_empty_map_witness :
  refine_illumination_map_linear 0%nat (6 / 10) (2 / 10) 1%nat default_eps
    {| heap := [Ndarray [[]; []]; Ndarray [[1%R]]]; log := [] |} = Raised Cv2Error.
Proof.
  apply (@refine_rejects_empty_map _ _ _ [[]; []]); [reflexivity | right; reflexivity].
Defined.

(** ** Positive weights *)

Section PositiveWeights.
Local Open Scope R_scope.

Lemma Rsum_pos_term {A : Type} (f : A -> R) l a :
  (forall x, In x l -> 0 <= f x) -> In a l -> 0 < f a -> 0 < Rsum (map f l).
Proof.
  induction l as [| x l IH]; intros Hf Ha Hp; [destruct Ha |].
  cbn [map]. rewrite Rsum_cons.
  assert (0 <= Rsum (map f l)).
  { rewrite <- (Rsum_map_zero l). apply Rsum_map_le. intros y Hy. apply Hf. now right. }
  destruct Ha as [-> | Ha].
  - lra.
  - pose proof (Hf x (or_introl eq_refl)).
    pose proof (IH (fun y Hy => Hf y (or_intror Hy)) Ha Hp). lra.
Qed.

Lemma item0_ones_like n m L i j :
  rect n m L -> (0 < n)%nat ->
  (0 <= i < Z.of_nat n)%Z -> (0 <= j < Z.of_nat m)%Z -> item0 (ones_like L) i j = 1.
Proof.
  intros HL Hn Hi Hj. unfold ones_like. rewrite (shape_rect HL Hn).
  now rewrite item0_tabulate.
Qed.

Lemma ones_like_nonneg L : nonneg_grid (ones_like L).
Proof.
  unfold ones_like. destruct (shape L). apply tabulate_nonneg. intros. lra.
Qed.

(** The kernel centre alone makes the convolution of the all-ones array
    positive at every pixel. *)
Lemma conv_at_ones_pos n m kh kw L K i j :
  rect n m L -> (0 < n)%nat -> rect kh kw K -> (0 < kh)%nat -> (0 < kw)%nat ->
  nonneg_grid K -> 0 < item0 K (Z.of_nat kh / 2) (Z.of_nat kw / 2) ->
  (0 <= i < Z.of_nat n)%Z -> (0 <= j < Z.of_nat m)%Z ->
  0 < conv_at (ones_like L) K i j.
Proof.
  intros HL Hn HK Hkh Hkw PK Pc Hi Hj. unfold conv_at. rewrite (shape_rect HK Hkh).
  assert (0 <= Z.of_nat kh / 2 < Z.of_nat kh)%Z
    by (split; [apply Z.div_pos; lia | apply Z.div_lt; lia]).
  assert (0 <= Z.of_nat kw / 2 < Z.of_nat kw)%Z
    by (split; [apply Z.div_pos; lia | apply Z.div_lt; lia]).
  assert (forall a b, 0 <= item0 K a b * item0 (ones_like L) (i + Z.of_nat kh / 2 - a)
                                                 (j + Z.of_nat kw / 2 - b)) as Pt
    by (intros; apply Rmult_le_pos; [apply PK | apply ones_like_nonneg]).
  apply Rsum_pos_term with (a := (Z.of_nat kh / 2)%Z).
  - intros a _. rewrite <- (Rsum_map_zero (range (Z.of_nat kw))).
    apply Rsum_map_le. intros b _. apply Pt.
  - now apply in_range_iff.
  - apply Rsum_pos_term with (a := (Z.of_nat kw / 2)%Z).
    + intros b _. apply Pt.
    + now apply in_range_iff.
    + replace (i + Z.of_nat kh / 2 - Z.of_nat kh / 2)%Z with i by lia.
      replace (j + Z.of_nat kw / 2 - Z.of_nat kw / 2)%Z with j by lia.
      rewrite (@item0_ones_like n m L i j) by assumption. lra.
Qed.

Lemma smoothness_weights_pos n m kh kw L x K eps i j :
  rect n m L -> (0 < n)%nat -> rect kh kw K -> (0 < kh)%nat -> (0 < kw)%nat ->
  nonneg_grid K -> 0 < item0 K (Z.of_nat kh / 2) (Z.of_nat kw / 2) -> 0 < eps ->
  (0 <= i < Z.of_nat n)%Z -> (0 <= j < Z.of_nat m)%Z ->
  0 < item0 (smoothness_weights L x K eps) i j.
Proof.
  intros HL Hn HK Hkh Hkw PK Pc He Hi Hj.
  rewrite (@item0_smoothness_weights n m) by assumption.
  pose proof (@conv_at_ones_pos n m kh kw L K i j HL Hn HK Hkh Hkw PK Pc Hi Hj).
  pose proof (Rabs_pos (conv_at (sobel_value L x) K i j)).
  pose proof (Rabs_pos (item0 (sobel_value L x) i j)).
  apply Rdiv_lt_0_compat; [apply Rdiv_lt_0_compat |]; lra.
Qed.

End PositiveWeights.

(** X6. For a non-empty map [L], a direction [x] in {0, 1}, [eps > 0] and a
    non-negative kernel whose centre entry is positive,
    [compute_smoothness_weights] returns a new array of the shape of [L]
    whose entries are all strictly positive; it only allocates: the objects
    on the heap before the call are unchanged and nothing is updated in
    place. *)
Theorem compute_smoothness_weights_positive
  s L kernel Lg Kg (x : Z) (eps : R) (n m kh kw : nat) :
  nth_error (heap s) L = Some (Ndarray Lg) ->
  nth_error (heap s) kernel = Some (Ndarray Kg) ->
  rect n m Lg -> (0 < n)%nat -> (0 < m)%nat ->
  rect kh kw Kg -> (0 < kh)%nat -> (0 < kw)%nat ->
  nonneg_grid Kg -> (0 < item0 Kg (Z.of_nat kh / 2) (Z.of_nat kw / 2))%R ->
  (0 < eps)%R -> x = 1%Z \/ x = 0%Z ->
  exists new r W,
    compute_smoothness_weights L x kernel eps s
    = Returned (r, {| heap := heap s ++ new; log := log s |}) /\
    nth_error (heap s ++ new) r = Some (Ndarray W) /\
    shape W = shape Lg /\
    forall i j, (0 <= i < Z.of_nat n)%Z -> (0 <= j < Z.of_nat m)%Z ->
      exists w, getitem W i j = Returned w /\ (0 < w)%R.
Proof.
  intros HL HK HLg Hn Hm HKg Hkh Hkw PK Pc He Hx.
  destruct (@compute_smoothness_weights_run s L kernel Lg Kg x eps n m kh kw)
    as (new & r & E & Hr); try assumption.
  assert (rect n m (smoothness_weights Lg x Kg eps)) as HW
    by (now apply smoothness_weights_rect).
  exists new, r, (smoothness_weights Lg x Kg eps).
  split; [exact E |]. split; [exact Hr |]. split.
  - now rewrite (shape_rect HW Hn), (shape_rect HLg Hn).
  - intros i j Hi Hj. eexists. split; [now apply (@getitem_in_range n m) |].
    now apply (@smoothness_weights_pos n m kh kw).
Qed.

Lemma compute_smoothness_weights_positive_witness :
  let s := {| heap := [Ndarray [[1; 2]]; Ndarray [[1]]]%R; log := [] |} in
  exists new r W,
    compute_smoothness_weights 0%nat 1 1%nat default_eps s
    = Returned (r, {| heap := heap s ++ new; log := [] |}) /\
    nth_error (heap s ++ new) r = Some (Ndarray W) /\
    shape W = (1, 2)%Z /\
    exists w, getitem W 0 1 = Returned w /\ (0 < w)%R.
Proof.
  intros s.
  destruct (@compute_smoothness_weights_positive
              s 0%nat 1%nat [[1; 2]]%R [[1]]%R 1%Z default_eps 1%nat 2%nat 1%nat 1%nat)
    as (new & r & W & E & Hr & Hs & Hp); try reflexivity; try lia.
  - split; [reflexivity | repeat constructor].
  - split; [reflexivity | repeat constructor].
  - apply grid_nonneg. repeat constructor; lra.
  - unfold item0. cbn. lra.
  - unfold default_eps. lra.
  - exists new, r, W. split; [exact E |]. split; [exact Hr |]. split; [exact Hs |].
    apply Hp; lia.
Defined.

(** ** Entries of the Laplacian *)

Section LaplacianEntries.
Local Open Scope R_scope.

Lemma filter_key_none (d : dict) q :
  ~ In q (keys d) -> filter (fun e : entry => (fst e =? q)%Z) d = [].
Proof.
  induction d as [| e d IH]; intros H; [reflexivity |]. cbn [filter].
  destruct (Z.eqb_spec (fst e) q) as [E | E].
  - exfalso. apply H. left. exact E.
  - apply IH. intros Hq. apply H. now right.
Qed.

Lemma filter_key_unique (d : dict) q v :
  NoDup (keys d) -> In (q, v) d -> filter (fun e : entry => (fst e =? q)%Z) d = [(q, v)].
Proof.
  induction d as [| e d IH]; intros Hd Hin; [destruct Hin |].
  cbn [keys map] in Hd. inversion Hd as [| ? ? Hnot Hd']; subst. cbn [filter].
  destruct Hin as [-> | Hin].
  - cbn [fst]. rewrite Z.eqb_refl. f_equal. now apply filter_key_none.
  - destruct (Z.eqb_spec (fst e) q) as [E | E].
    + exfalso. apply Hnot. subst q. change (fst e) with (fst (fst e, v)).
      now apply in_map.
    + now apply IH.
Qed.

Lemma off_triples_filter Wx Wy p (d : dict) q :
  filter (fun t => (snd (fst t) =? q)%Z) (off_triples Wx Wy p d)
  = off_triples Wx Wy p (filter (fun e : entry => (fst e =? q)%Z) d).
Proof.
  unfold off_triples. induction d as [| e d IH]; [reflexivity |].
  cbn [map filter fst snd]. destruct (fst e =? q)%Z; cbn [map]; now rewrite IH.
Qed.

(** Off the diagonal, row [p] holds minus the weight read at each neighbour
    [q] of [p], from [wx] for a neighbour in the same row and from [wy] for
    one in the same column, and nothing else. *)
Lemma laplacian_entry Wx Wy n m p q :
  (0 < m)%Z -> (0 <= p < n * m)%Z -> (0 <= q < n * m)%Z -> q <> p ->
  csr_get (laplacian Wx Wy n m) p q
  = if (Z.abs (q / m - p / m) + Z.abs (q mod m - p mod m) =? 1)%Z
    then - item0 (if (q mod m =? p mod m)%Z then Wy else Wx) (q / m) (q mod m)
    else 0.
Proof.
  intros Hm Hp Hq Hne. rewrite laplacian_off_diag by assumption.
  rewrite off_triples_filter.
  destruct (Z.eqb_spec (Z.abs (q / m - p / m) + Z.abs (q mod m - p mod m)) 1) as [A | A].
  - apply (@keys_adjacent p n m q Hm Hp Hq) in A. unfold keys in A. apply in_map_iff in A.
    destruct A as ([q' [[k l] x]] & Eq & Hin). cbn [fst] in Eq. subst q'.
    rewrite (@filter_key_unique _ q (k, l, x)) by (now apply keys_nodup || assumption).
    destruct (@neighbor_cell p n m q k l x Hm Hp Hin) as (_ & -> & -> & Hx).
    unfold off_triples. cbn [map snd fst]. rewrite Rsum_cons, Rsum_nil.
    unfold edge_weight.
    destruct Hx as [(-> & Hc & _) | (-> & Hr & Hc)].
    + rewrite Hc, !Z.eqb_refl. ring.
    + destruct (Z.eqb_spec (q mod m) (p mod m)); [lia |]. cbn. ring.
  - rewrite filter_key_none; [reflexivity |].
    intros Hin. apply A. now apply (@keys_adjacent p n m q Hm Hp Hq).
Qed.

End LaplacianEntries.

(** X7. The assembled matrix has the five-point pattern: for pixels
    [p <> q], the entry at [(p, q)] is zero unless [q] is one of the four
    neighbours of [p], and then it is minus the weight read at the cell of
    [q], from [wy] for a neighbour in the same column and from [wx] for one
    in the same row. *)
Theorem laplacian_five_point_pattern
        (s : state) (wx wy : ref) (Wx Wy : grid) (n m : nat) (p q : Z) :
  nth_error (heap s) wx = Some (Ndarray Wx) ->
  nth_error (heap s) wy = Some (Ndarray Wy) ->
  rect n m Wx -> rect n m Wy ->
  (0 <= p < Z.of_nat n * Z.of_nat m)%Z -> (0 <= q < Z.of_nat n * Z.of_nat m)%Z ->
  q <> p ->
  exists F s' M,
    assemble_laplacian wx wy (Z.of_nat n) (Z.of_nat m) s = Returned (F, s') /\
    nth_error (heap s') F = Some (Sparse M) /\
    csr_get M p q
    = (let m := Z.of_nat m in
       if (Z.abs (q / m - p / m) + Z.abs (q mod m - p mod m) =? 1)%Z
       then - item0 (if (q mod m =? p mod m)%Z then Wy else Wx) (q / m) (q mod m)
       else 0)%R.
Proof.
  intros Hwx Hwy HWx HWy Hp Hq Hne.
  assert (0 < m)%nat as Hm by nia.
  pose proof (@assemble_laplacian_run s wx wy Wx Wy n m Hwx Hwy HWx HWy Hm) as E.
  cbv zeta in E.
  eexists _, _, _. split; [exact E |]. cbn [heap]. split.
  - apply lookup_assembled.
  - cbv zeta. apply laplacian_entry; [lia | assumption | assumption | assumption].
Qed.

Lemma laplacian_five_point_pattern_witness :
  exists F s' M,
    assemble_laplacian 0%nat 1%nat 2 2
      {| heap := [Ndarray [[1; 2]; [3; 4]]; Ndarray [[5; 6]; [7; 8]]]%R; log := [] |}
    = Returned (F, s') /\
    nth_error (heap s') F = Some (Sparse M) /\
    csr_get M 0 1 = (- 2)%R /\ csr_get M 0 2 = (- 7)%R /\ csr_get M 0 3 = 0%R.
Proof.
  set (s := {| heap := [Ndarray [[1; 2]; [3; 4]]; Ndarray [[5; 6]; [7; 8]]]%R; log := [] |}).
  assert (rect 2 2 [[1; 2]; [3; 4]]%R) as R1 by (split; [reflexivity | repeat constructor]).
  assert (rect 2 2 [[5; 6]; [7; 8]]%R) as R2 by (split; [reflexivity | repeat constructor]).
  destruct (@laplacian_five_point_pattern s 0%nat 1%nat _ _ 2%nat 2%nat 0%Z 1%Z
              eq_refl eq_refl R1 R2) as (F & s' & M & E & HM & H1); [lia | lia | lia |].
  destruct (@laplacian_five_point_pattern s 0%nat 1%nat _ _ 2%nat 2%nat 0%Z 2%Z
              eq_refl eq_refl R1 R2) as (F2 & s2 & M2 & E2 & HM2 & H2); [lia | lia | lia |].
  destruct (@laplacian_five_point_pattern s 0%nat 1%nat _ _ 2%nat 2%nat 0%Z 3%Z
              eq_refl eq_refl R1 R2) as (F3 & s3 & M3 & E3 & HM3 & H3); [lia | lia | lia |].
  rewrite E in E2, E3. inversion E2; subst F2 s2. inversion E3; subst F3 s3.
  rewrite HM in HM2, HM3. inversion HM2; subst M2. inversion HM3; subst M3.
  exists F, s', M. split; [exact E |]. split; [exact HM |].
  split; [| split]; [rewrite H1 | rewrite H2 | rewrite H3]; reflexivity.
Defined.

(** X8. When each of the two weight maps is constant, the assembled matrix
    is symmetric: the entries at [(p, q)] and [(q, p)] agree for all pixels.
    (Weights that differ between two adjacent cells break the symmetry.) *)
Theorem laplacian_symmetric_for_constant_weights
        (s : state) (wx wy : ref) (a b : R) (n m : nat) (p q : Z) :
  nth_error (heap s) wx
  = Some (Ndarray (tabulate (Z.of_nat n) (Z.of_nat m) (fun _ _ => a))) ->
  nth_error (heap s) wy
  = Some (Ndarray (tabulate (Z.of_nat n) (Z.of_nat m) (fun _ _ => b))) ->
  (0 <= p < Z.of_nat n * Z.of_nat m)%Z -> (0 <= q < Z.of_nat n * Z.of_nat m)%Z ->
  exists F s' M,
    assemble_laplacian wx wy (Z.of_nat n) (Z.of_nat m) s = Returned (F, s') /\
    nth_error (heap s') F = Some (Sparse M) /\
    csr_get M p q = csr_get M q p.
Proof.
  intros Hwx Hwy Hp Hq.
  assert (0 < m)%nat as Hm by nia.
  pose proof (@assemble_laplacian_run s wx wy _ _ n m Hwx Hwy
                (rect_tabulate n m _) (rect_tabulate n m _) Hm) as E.
  cbv zeta in E.
  eexists _, _, _. split; [exact E |]. cbn [heap]. split; [apply lookup_assembled |].
  destruct (Z.eq_dec q p) as [-> | Hne]; [reflexivity |].
  rewrite !laplacian_entry by (assumption || lia || congruence).
  set (M := Z.of_nat m) in *.
  assert (0 <= p / M < Z.of_nat n)%Z
    by (split; [apply Z.div_pos; lia | apply Z.div_lt_upper_bound; lia]).
  assert (0 <= q / M < Z.of_nat n)%Z
    by (split; [apply Z.div_pos; lia | apply Z.div_lt_upper_bound; lia]).
  assert (0 <= p mod M < M)%Z by (apply Z.mod_pos_bound; lia).
  assert (0 <= q mod M < M)%Z by (apply Z.mod_pos_bound; lia).
  replace (Z.abs (p / M - q / M) + Z.abs (p mod M - q mod M))%Z
    with (Z.abs (q / M - p / M) + Z.abs (q mod M - p mod M))%Z by lia.
  rewrite (Z.eqb_sym (p mod M) (q mod M)).
  destruct (_ =? 1)%Z; [| reflexivity].
  destruct (q mod M =? p mod M)%Z; now rewrite !item0_tabulate by assumption.
Qed.

Lemma laplacian_symmetric_for_constant_weights_witness :
  exists F s' M,
    assemble_laplacian 0%nat 1%nat 2 2
      {| heap := [Ndarray [[2; 2]; [2; 2]]; Ndarray [[3; 3]; [3; 3]]]%R; log := [] |}
    = Returned (F, s') /\
    nth_error (heap s') F = Some (Sparse M) /\
    csr_get M 1 3 = csr_get M 3 1.
Proof.
  apply (@laplacian_symmetric_for_constant_weights
           {| heap := [Ndarray [[2; 2]; [2; 2]]; Ndarray [[3; 3]; [3; 3]]]%R; log := [] |}
           0%nat 1%nat 2%R 3%R 2%nat 2%nat 1%Z 3%Z); try reflexivity; lia.
Defined.

(** ** The solution stays between the bounds of the right-hand side *)

Section MaximumPrinciple.
Local Open Scope R_scope.

Lemma exists_argmax (N : nat) (f : nat -> R) :
  (0 < N)%nat -> exists p, (p < N)%nat /\ forall q, (q < N)%nat -> f q <= f p.
Proof.
  induction N as [| N IH]; intros HN; [lia |].
  destruct N as [| N'].
  - exists 0%nat. split; [lia |]. intros q Hq. replace q with 0%nat by lia. lra.
  - destruct IH as (p & Hp & Hmax); [lia |].
    destruct (Rle_dec (f (S N')) (f p)) as [Hle | Hgt].
    + exists p. split; [lia |]. intros q Hq.
      destruct (Nat.eq_dec q (S N')) as [-> | Hne]; [exact Hle | apply Hmax; lia].
    + exists (S N'). split; [lia |]. intros q Hq.
      destruct (Nat.eq_dec q (S N')) as [-> | Hne]; [lra |].
      specialize (Hmax q ltac:(lia)). lra.
Qed.

Lemma Rsum_map_nonneg_in {T : Type} (f : T -> R) l :
  (forall x, In x l -> 0 <= f x) -> 0 <= Rsum (map f l).
Proof.
  intros H. apply Rle_trans with (Rsum (map (fun _ => 0) l)).
  - rewrite Rsum_map_zero. lra.
  - now apply Rsum_map_le.
Qed.

Lemma Rsum_map_nonpos_in {T : Type} (f : T -> R) l :
  (forall x, In x l -> f x <= 0) -> Rsum (map f l) <= 0.
Proof.
  intros H. apply Rle_trans with (Rsum (map (fun _ => 0) l)).
  - now apply Rsum_map_le.
  - rewrite Rsum_map_zero. lra.
Qed.

Variables (Wx Wy : grid) (n m : Z) (lambda_ : R).
Hypotheses (Hm : (0 < m)%Z) (Hn : (0 <= n)%Z).
Hypotheses (PWx : nonneg_grid Wx) (PWy : nonneg_grid Wy) (Hl : 0 <= lambda_).

Let A := system_matrix lambda_ (laplacian Wx Wy n m).

Lemma system_entry p q :
  (0 <= p < n * m)%Z ->
  csr_get A p q = (if (p =? q)%Z then 1 else 0) + lambda_ * csr_get (laplacian Wx Wy n m) p q.
Proof.
  intros Hp. unfold A. rewrite csr_get_system by (cbn; lia).
  unfold in_range. cbn [nrow laplacian].
  destruct (Z.leb_spec 0 p); [| lia]. destruct (Z.ltb_spec p (n * m)); [| lia].
  now rewrite andb_true_r.
Qed.

Lemma system_row_sum p :
  (0 <= p < n * m)%Z -> Rsum (map (csr_get A p) (range (n * m))) = 1.
Proof.
  intros Hp.
  rewrite (map_ext _ (fun q => (if (p =? q)%Z then 1 else 0)
                               + lambda_ * csr_get (laplacian Wx Wy n m) p q))
    by (intros q; now apply system_entry).
  rewrite Rsum_map_plus, Rsum_map_scal.
  rewrite Rsum_indicator by (apply range_nodup || now apply in_range_iff).
  rewrite (@laplacian_row_sum Wx Wy n m p Hm Hp). ring.
Qed.

Lemma system_off_diagonal_nonpos p q :
  (0 <= p < n * m)%Z -> (0 <= q < n * m)%Z -> q <> p -> csr_get A p q <= 0.
Proof.
  intros Hp Hq Hne. rewrite system_entry by assumption.
  destruct (Z.eqb_spec p q); [congruence |].
  rewrite laplacian_entry by assumption.
  assert (forall W, nonneg_grid W -> lambda_ * - item0 W (q / m) (q mod m) <= 0) as H.
  { intros W HW. specialize (HW (q / m)%Z (q mod m)%Z).
    pose proof (Rmult_le_pos _ _ Hl HW). lra. }
  destruct (_ =? 1)%Z; [| lra].
  destruct (q mod m =? p mod m)%Z; [specialize (H Wy PWy) | specialize (H Wx PWx)]; lra.
Qed.

(** Row [p] of [A x], as a weighted sum with weights adding up to 1. *)
Lemma system_row (x : list R) p :
  (0 <= p < n * m)%Z ->
  nth (Z.to_nat p) (matvec A x) 0
  = nth (Z.to_nat p) x 0
    + Rsum (map (fun q => csr_get A p q * (nth (Z.to_nat q) x 0 - nth (Z.to_nat p) x 0))
                (range (n * m))).
Proof.
  intros Hp. rewrite matvec_nth by (cbn; lia). cbn [ncol A system_matrix laplacian].
  rewrite (map_ext (fun q => csr_get A p q * (nth (Z.to_nat q) x 0 - nth (Z.to_nat p) x 0))
                   (fun q => csr_get A p q * nth (Z.to_nat q) x 0
                             + - nth (Z.to_nat p) x 0 * csr_get A p q))
    by (intros; ring).
  rewrite Rsum_map_plus, Rsum_map_scal, system_row_sum by assumption. ring.
Qed.

Lemma row_at_maximum (x : list R) p :
  (0 <= p < n * m)%Z ->
  (forall q, (0 <= q < n * m)%Z -> nth (Z.to_nat q) x 0 <= nth (Z.to_nat p) x 0) ->
  nth (Z.to_nat p) x 0 <= nth (Z.to_nat p) (matvec A x) 0.
Proof.
  intros Hp Hmax. rewrite system_row by assumption.
  assert (0 <= Rsum (map (fun q => csr_get A p q
                                   * (nth (Z.to_nat q) x 0 - nth (Z.to_nat p) x 0))
                         (range (n * m)))); [| lra].
  apply Rsum_map_nonneg_in.
  intros q Hq. apply in_range_iff in Hq.
  destruct (Z.eq_dec q p) as [-> | Hne]; [lra |].
  pose proof (system_off_diagonal_nonpos Hp Hq Hne). specialize (Hmax q Hq). nra.
Qed.

Lemma row_at_minimum (x : list R) p :
  (0 <= p < n * m)%Z ->
  (forall q, (0 <= q < n * m)%Z -> nth (Z.to_nat p) x 0 <= nth (Z.to_nat q) x 0) ->
  nth (Z.to_nat p) (matvec A x) 0 <= nth (Z.to_nat p) x 0.
Proof.
  intros Hp Hmin. rewrite system_row by assumption.
  assert (Rsum (map (fun q => csr_get A p q
                              * (nth (Z.to_nat q) x 0 - nth (Z.to_nat p) x 0))
                    (range (n * m))) <= 0); [| lra].
  apply Rsum_map_nonpos_in.
  intros q Hq. apply in_range_iff in Hq.
  destruct (Z.eq_dec q p) as [-> | Hne]; [lra |].
  pose proof (system_off_diagonal_nonpos Hp Hq Hne). specialize (Hmin q Hq). nra.
Qed.

(** The discrete maximum principle for [Id + lambda_ * F]. *)
Lemma solution_bounds (b x : list R) (lo hi : R) :
  solves A b x -> Forall (fun v => lo <= v <= hi) b -> Forall (fun v => lo <= v <= hi) x.
Proof.
  intros [Hlen Hmv] Hb.
  assert (length b = Z.to_nat (n * m)) as HN
    by (rewrite <- Hmv, matvec_length; reflexivity).
  rewrite Forall_forall in Hb.
  assert (forall k, (k < Z.to_nat (n * m))%nat -> lo <= nth k b 0 <= hi) as Hbk
    by (intros k Hk; apply Hb, nth_In; lia).
  apply Forall_forall. intros v Hv.
  destruct (In_nth x v 0 Hv) as (k & Hk & <-).
  assert (0 < Z.to_nat (n * m))%nat as Hpos by lia.
  destruct (exists_argmax (fun q => nth q x 0) Hpos) as (pM & HpM & Hmax).
  destruct (exists_argmax (fun q => - nth q x 0) Hpos) as (pm & Hpm & Hmin).
  pose proof (@row_at_maximum x (Z.of_nat pM) ltac:(lia)) as UM.
  pose proof (@row_at_minimum x (Z.of_nat pm) ltac:(lia)) as Um.
  rewrite Hmv, Nat2Z.id in UM, Um.
  assert (nth pM x 0 <= nth pM b 0)
    by (apply UM; intros q Hq; apply Hmax; lia).
  assert (nth pm b 0 <= nth pm x 0)
    by (apply Um; intros q Hq; specialize (Hmin (Z.to_nat q) ltac:(lia)); lra).
  pose proof (Hbk pM HpM). pose proof (Hbk pm Hpm).
  pose proof (Hmax k ltac:(lia)). pose proof (Hmin k ltac:(lia)). lra.
Qed.

End MaximumPrinciple.

(** ** Further runs of [refine_illumination_map_linear] *)

Section RefineMore.
Local Open Scope heap_scope.

(** The run of the function for any weights that leave [Id + lambda_ * F]
    strictly diagonally dominant. *)
Lemma refine_run_dominant s L kernel Lg Kg gamma lambda_ eps (n m kh kw : nat) :
  nth_error (heap s) L = Some (Ndarray Lg) ->
  nth_error (heap s) kernel = Some (Ndarray Kg) ->
  rect n m Lg -> (0 < n)%nat -> (0 < m)%nat ->
  rect kh kw Kg -> (0 < kh)%nat -> (0 < kw)%nat ->
  (0 < eps)%R ->
  let A := system_matrix lambda_
             (laplacian (smoothness_weights Lg 1 Kg eps) (smoothness_weights Lg 0 Kg eps)
                        (Z.of_nat n) (Z.of_nat m)) in
  diag_dominant (n * m) (dense A) ->
  exists r s' x,
    refine_illumination_map_linear L gamma lambda_ kernel eps s = Returned (r, s') /\
    solves A (concat Lg) x /\
    nth_error (heap s') r
    = Some (Ndarray (refined_value x (Z.of_nat n) (Z.of_nat m) eps gamma)).
Proof.
  intros HL HK HLg Hn Hm HKg Hkh Hkw He A Hdom.
  set (Wx := smoothness_weights Lg 1 Kg eps) in *.
  set (Wy := smoothness_weights Lg 0 Kg eps) in *.
  set (F := laplacian Wx Wy (Z.of_nat n) (Z.of_nat m)) in *.
  destruct (@compute_smoothness_weights_run s L kernel Lg Kg 1%Z eps n m kh kw)
    as (new1 & wx & E1 & H1); try assumption; [now left |].
  destruct (@compute_smoothness_weights_run
              {| heap := heap s ++ new1; log := log s |} L kernel Lg Kg 0%Z eps n m kh kw)
    as (new2 & wy & E2 & H2); try assumption; try lookup; [now right |].
  cbn [heap log] in E2, H2. fold Wx in H1. fold Wy in H2.
  assert (rect n m Wx) as HWx by (now apply smoothness_weights_rect).
  assert (rect n m Wy) as HWy by (now apply smoothness_weights_rect).
  assert (length (concat Lg) = (n * m)%nat) as Hb by (now apply (@concat_length n m)).
  destruct (@spsolve_dominant (n * m) A (concat Lg)) as (x & Ex & Hx); try assumption.
  { replace (n * m)%nat with (Z.to_nat (Z.of_nat n * Z.of_nat m)) by lia.
    apply system_matrix_square. lia. }
  assert (length x = (n * m)%nat) as Hxl by (destruct Hx; congruence).
  assert (csr_add (diags (map (fun _ => 1%R) (range (Z.of_nat n * Z.of_nat m))))
                  (csr_scale lambda_ F) = Returned A) as EA
      by (apply (@csr_add_system lambda_ F); cbn; [lia | reflexivity]).
  eassert (refine_illumination_map_linear L gamma lambda_ kernel eps s
           = Returned (_, _)) as E.
  { unfold refine_illumination_map_linear.
    rewrite (@bind_returned _ _ _ _ _ _ _ E1).
    rewrite (@bind_returned _ _ _ _ _ _ _ E2).
    step ltac:(apply ndarray_shape_run; lookup).
    rewrite (shape_rect HLg Hn). cbv iota beta.
    step ltac:(unfold ndarray_copy; run_pure).
    step ltac:(unfold ndarray_flatten; run_pure).
    step ltac:(apply (@assemble_laplacian_run _ wx wy Wx Wy n m);
               [lookup | lookup | assumption | assumption | assumption]).
    fold F.
    match goal with
    | |- context [appends (length ?h) _] =>
        pose proof (@lookup_assembled h (triples F) (Sparse F)) as HF
    end.
    step ltac:(unfold np_ones, alloc; reflexivity).
    step ltac:(unfold sparse_diags; run_pure).
    step ltac:(unfold sparse_scale; run_pure).
    step ltac:(unfold sparse_add; run_with EA).
    step ltac:(unfold sparse_copy; run_pure).
    step ltac:(unfold sparse_spsolve; run_with Ex).
    step ltac:(unfold ndarray_reshape; run_with (@reshape_returns x n m Hxl)).
    step ltac:(unfold np_clip; run_pure).
    step ltac:(unfold np_power; run_with (fun g => @power_clipped g eps gamma He)).
    reflexivity. }
  eexists _, _, x. split; [exact E |]. split; [exact Hx |]. cbn [heap].
  apply lookup_snoc.
Qed.

Lemma refine_run_nonneg s L kernel Lg Kg gamma lambda_ eps (n m kh kw : nat) :
  nth_error (heap s) L = Some (Ndarray Lg) ->
  nth_error (heap s) kernel = Some (Ndarray Kg) ->
  rect n m Lg -> (0 < n)%nat -> (0 < m)%nat ->
  rect kh kw Kg -> (0 < kh)%nat -> (0 < kw)%nat -> nonneg_grid Kg ->
  (0 < eps)%R -> (0 <= lambda_)%R ->
  let Wx := smoothness_weights Lg 1 Kg eps in
  let Wy := smoothness_weights Lg 0 Kg eps in
  let A := system_matrix lambda_ (laplacian Wx Wy (Z.of_nat n) (Z.of_nat m)) in
  exists r s' x,
    refine_illumination_map_linear L gamma lambda_ kernel eps s = Returned (r, s') /\
    solves A (concat Lg) x /\
    nth_error (heap s') r
    = Some (Ndarray (refined_value x (Z.of_nat n) (Z.of_nat m) eps gamma)) /\
    nonneg_grid Wx /\ nonneg_grid Wy.
Proof.
  intros HL HK HLg Hn Hm HKg Hkh Hkw PK He Hl Wx Wy A.
  assert (nonneg_grid Wx) as PWx by (now apply (@smoothness_weights_nonneg n m)).
  assert (nonneg_grid Wy) as PWy by (now apply (@smoothness_weights_nonneg n m)).
  destruct (@refine_run_dominant s L kernel Lg Kg gamma lambda_ eps n m kh kw)
    as (r & s' & x & E & Hx & Hr); try assumption.
  { replace (n * m)%nat with (Z.to_nat (Z.of_nat n * Z.of_nat m)) by lia.
    apply system_matrix_dominant; try lia; assumption. }
  exists r, s', x. split; [exact E |]. split; [exact Hx |]. split; [exact Hr |].
  split; assumption.
Qed.

End RefineMore.

Section RefinedValues.
Local Open Scope R_scope.

Lemma Forall_tabulate (P : R -> Prop) n m f :
  (forall i j, (0 <= i < n)%Z -> (0 <= j < m)%Z -> P (f i j)) ->
  Forall (Forall P) (tabulate n m f).
Proof.
  intros H. unfold tabulate. apply Forall_forall. intros r Hr.
  apply in_map_iff in Hr. destruct Hr as (i & <- & Hi). apply in_range_iff in Hi.
  apply Forall_forall. intros v Hv. apply in_map_iff in Hv.
  destruct Hv as (j & <- & Hj). apply in_range_iff in Hj. now apply H.
Qed.

Lemma refined_value_tabulate x n m eps gamma :
  refined_value x n m eps gamma
  = tabulate n m (fun i j => Rpower (clip (nth (Z.to_nat (i * m + j)) x 0) eps 1) gamma).
Proof. unfold refined_value. now rewrite !grid_map_tabulate. Qed.

Lemma clip_monotone a b lo hi : a <= b -> clip a lo hi <= clip b lo hi.
Proof.
  intros H. unfold clip. apply Rle_min_compat_l. now apply Rle_max_compat_r.
Qed.

Lemma corrected_monotone a b eps gamma :
  0 < eps -> 0 <= gamma -> a <= b ->
  Rpower (clip a eps 1) gamma <= Rpower (clip b eps 1) gamma.
Proof.
  intros He Hg H. apply Rle_Rpower_l; [assumption |].
  split; [now apply clip_bounds | now apply clip_monotone].
Qed.

Lemma nth_concat_rect n m (g : grid) i j :
  rect n m g -> (i < n)%nat -> (j < m)%nat ->
  nth (i * m + j) (concat g) 0 = nth j (nth i g []) 0.
Proof.
  revert n i. induction g as [| r g IH]; intros n i [Hn Hr] Hi Hj.
  - cbn in Hn. lia.
  - inversion Hr as [| ? ? Hlen Hr']; subst. cbn [concat length] in *.
    destruct i as [| i].
    + cbn [Nat.mul Nat.add nth]. now rewrite app_nth1 by lia.
    + cbn [nth]. rewrite app_nth2 by lia.
      replace (S i * length r + j - length r)%nat with (i * length r + j)%nat by lia.
      apply (IH (length g)); [split; [reflexivity | assumption] | lia | lia].
Qed.

(** [flatten] followed by [reshape] to the original shape gives the array
    back. *)
Lemma tabulate_flatten n m (g : grid) :
  rect n m g ->
  tabulate (Z.of_nat n) (Z.of_nat m)
           (fun i j => nth (Z.to_nat (i * Z.of_nat m + j)) (concat g) 0) = g.
Proof.
  intros Hg. apply (@grid_ext n m); [apply rect_tabulate | assumption |].
  intros i j Hi Hj. rewrite item0_tabulate, item0_nth by lia.
  replace (Z.to_nat (i * Z.of_nat m + j)) with (Z.to_nat i * m + Z.to_nat j)%nat by nia.
  apply (@nth_concat_rect n m); [assumption | lia | lia].
Qed.

Lemma bigsum_zero N : bigsum N (fun _ => 0) = 0.
Proof. induction N as [| N IH]; cbn; [reflexivity | rewrite IH; ring]. Qed.

(** With [lambda_ = 0] the system matrix is the identity, whatever the
    weights are. *)
Lemma system_zero_entry Wx Wy n m p q :
  (0 <= p < n * m)%Z ->
  csr_get (system_matrix 0 (laplacian Wx Wy n m)) p q = if (p =? q)%Z then 1 else 0.
Proof.
  intros Hp. rewrite csr_get_system by (cbn; lia).
  unfold in_range. cbn [nrow laplacian].
  destruct (Z.leb_spec 0 p); [| lia]. destruct (Z.ltb_spec p (n * m)); [| lia].
  rewrite andb_true_r. ring.
Qed.

Lemma system_zero_dominant Wx Wy n m :
  diag_dominant (Z.to_nat (n * m)) (dense (system_matrix 0 (laplacian Wx Wy n m))).
Proof.
  intros p Hp. unfold off_diagonal, dense.
  rewrite (@bigsum_ext _ _ (fun _ => 0)).
  - rewrite bigsum_zero, system_zero_entry, Z.eqb_refl, Rabs_R1 by lia. lra.
  - intros q Hq. destruct (Nat.eqb_spec q p); [reflexivity |].
    rewrite system_zero_entry by lia.
    destruct (Z.eqb_spec (Z.of_nat p) (Z.of_nat q)); [lia | apply Rabs_R0].
Qed.

Lemma matvec_system_zero Wx Wy n m (x : list R) :
  length x = Z.to_nat (n * m) ->
  matvec (system_matrix 0 (laplacian Wx Wy n m)) x = x.
Proof.
  intros Hx. apply (@list_ext _ 0).
  - now rewrite matvec_length.
  - intros k Hk. rewrite matvec_length in Hk. cbn [nrow system_matrix laplacian] in Hk.
    rewrite <- (Nat2Z.id k) at 1. rewrite matvec_nth by (cbn; lia).
    cbn [ncol system_matrix laplacian].
    rewrite (map_ext_in _ (fun q => if (Z.of_nat k =? q)%Z then nth k x 0 else 0)).
    + apply Rsum_indicator; [apply range_nodup | apply in_range_iff; lia].
    + intros q Hq. rewrite system_zero_entry by lia.
      destruct (Z.eqb_spec (Z.of_nat k) q) as [<- |]; [rewrite Nat2Z.id |]; ring.
Qed.

End RefinedValues.

(** ** A singular system *)

Section SingularSystem.
Local Open Scope heap_scope.
Local Open Scope R_scope.

Lemma spsolve_singular N M b :
  square N M -> length b = N -> ~ (exists! x, solves M b x) ->
  spsolve M b = Raised NotFinite.
Proof.
  intros [Hr Hc] Hb Hno. unfold spsolve.
  rewrite Hr, Hc, Hb, !Z.eqb_refl. cbn [andb negb].
  destruct (excluded_middle_informative (exists! x, solves M b x)); [contradiction |].
  reflexivity.
Qed.

(** The run of the function when [Id + lambda_ * F] has no solution or more
    than one: the solver's result is not finite. *)
Lemma refine_run_singular s L kernel Lg Kg gamma lambda_ eps (n m kh kw : nat) :
  nth_error (heap s) L = Some (Ndarray Lg) ->
  nth_error (heap s) kernel = Some (Ndarray Kg) ->
  rect n m Lg -> (0 < n)%nat -> (0 < m)%nat ->
  rect kh kw Kg -> (0 < kh)%nat -> (0 < kw)%nat ->
  (0 < eps)%R ->
  let A := system_matrix lambda_
             (laplacian (smoothness_weights Lg 1 Kg eps) (smoothness_weights Lg 0 Kg eps)
                        (Z.of_nat n) (Z.of_nat m)) in
  ~ (exists! x, solves A (concat Lg) x) ->
  refine_illumination_map_linear L gamma lambda_ kernel eps s = Raised NotFinite.
Proof.
  intros HL HK HLg Hn Hm HKg Hkh Hkw He A Hno.
  set (Wx := smoothness_weights Lg 1 Kg eps) in *.
  set (Wy := smoothness_weights Lg 0 Kg eps) in *.
  set (F := laplacian Wx Wy (Z.of_nat n) (Z.of_nat m)) in *.
  destruct (@compute_smoothness_weights_run s L kernel Lg Kg 1%Z eps n m kh kw)
    as (new1 & wx & E1 & H1); try assumption; [now left |].
  destruct (@compute_smoothness_weights_run
              {| heap := heap s ++ new1; log := log s |} L kernel Lg Kg 0%Z eps n m kh kw)
    as (new2 & wy & E2 & H2); try assumption; try lookup; [now right |].
  cbn [heap log] in E2, H2. fold Wx in H1. fold Wy in H2.
  assert (rect n m Wx) as HWx by (now apply smoothness_weights_rect).
  assert (rect n m Wy) as HWy by (now apply smoothness_weights_rect).
  assert (length (concat Lg) = (n * m)%nat) as Hb by (now apply (@concat_length n m)).
  assert (spsolve A (concat Lg) = Raised NotFinite) as Ex.
  { apply (@spsolve_singular (n * m)); try assumption.
    replace (n * m)%nat with (Z.to_nat (Z.of_nat n * Z.of_nat m)) by lia.
    apply system_matrix_square. lia. }
  assert (csr_add (diags (map (fun _ => 1%R) (range (Z.of_nat n * Z.of_nat m))))
                  (csr_scale lambda_ F) = Returned A) as EA
      by (apply (@csr_add_system lambda_ F); cbn; [lia | reflexivity]).
  unfold refine_illumination_map_linear.
  rewrite (@bind_returned _ _ _ _ _ _ _ E1).
  rewrite (@bind_returned _ _ _ _ _ _ _ E2).
  step ltac:(apply ndarray_shape_run; lookup).
  rewrite (shape_rect HLg Hn). cbv iota beta.
  step ltac:(unfold ndarray_copy; run_pure).
  step ltac:(unfold ndarray_flatten; run_pure).
  step ltac:(apply (@assemble_laplacian_run _ wx wy Wx Wy n m);
             [lookup | lookup | assumption | assumption | assumption]).
  fold F.
  match goal with
  | |- context [appends (length ?h) _] =>
      pose proof (@lookup_assembled h (triples F) (Sparse F)) as HF
  end.
  step ltac:(unfold np_ones, alloc; reflexivity).
  step ltac:(unfold sparse_diags; run_pure).
  step ltac:(unfold sparse_scale; run_pure).
  step ltac:(unfold sparse_add; run_with EA).
  step ltac:(unfold sparse_copy; run_pure).
  apply bind_raised. unfold sparse_spsolve.
  cbn [heap log]. repeat (erewrite bind_returned; [| loads]).
  apply bind_raised. unfold lift. now rewrite Ex.
Qed.

(** Convolution with the 1 x 1 kernel [[1]] leaves every sample unchanged. *)
Lemma conv_unit g i j : conv_at g [[1]] i j = item0 g i j.
Proof.
  unfold conv_at. change (shape [[1]]) with (1, 1)%Z. cbv iota beta.
  change (range 1) with [0%Z]. cbn [map]. rewrite ?Rsum_cons, ?Rsum_nil.
  change (1 / 2)%Z with 0%Z. change (item0 [[1]] 0 0) with 1.
  replace (i + 0 - 0)%Z with i by lia. replace (j + 0 - 0)%Z with j by lia. ring.
Qed.

Lemma weights_constant_unit (n m : nat) c x eps :
  (0 < n)%nat -> (0 < m)%nat -> 0 < eps ->
  smoothness_weights (tabulate (Z.of_nat n) (Z.of_nat m) (fun _ _ => c)) x [[1]] eps
  = tabulate (Z.of_nat n) (Z.of_nat m) (fun _ _ => 1 / eps / eps).
Proof.
  intros Hn Hm He.
  set (L := tabulate (Z.of_nat n) (Z.of_nat m) (fun _ _ => c)).
  assert (rect n m L) as HL by apply rect_tabulate.
  apply (@grid_ext n m);
    [now apply smoothness_weights_rect | apply rect_tabulate |].
  intros i j Hi Hj.
  rewrite (@item0_smoothness_weights n m) by assumption.
  rewrite !conv_unit. unfold L. rewrite sobel_constant by assumption.
  unfold ones_like. rewrite (shape_rect (rect_tabulate n m _) Hn).
  rewrite !item0_tabulate by lia. rewrite Rabs_R0, Rplus_0_l. reflexivity.
Qed.

(** The bounds on [lambda_] and on the kernel are needed for the result to
    be a grid of numbers: on the constant map [[0.5, 0.5]] with the kernel
    [[1]] and [eps = 0.5] both weights are 4, so with [lambda_ = -0.125]
    the system matrix is [[0.5, 0.5], [0.5, 0.5]], which is singular, and
    the result of the solver, and with it of the call, is not finite. *)
Lemma refine_singular_for_negative_lambda :
  refine_illumination_map_linear 0%nat 1 (- (1 / 8)) 1%nat (1 / 2)
    {| heap := [Ndarray [[1 / 2; 1 / 2]]; Ndarray [[1]]]; log := [] |}
  = Raised NotFinite.
Proof.
  set (Lg := tabulate (Z.of_nat 1) (Z.of_nat 2) (fun _ _ => 1 / 2)).
  apply (@refine_run_singular _ 0%nat 1%nat Lg [[1]] 1 (- (1 / 8)) (1 / 2)
           1%nat 2%nat 1%nat 1%nat); try reflexivity; try lia; try lra.
  - apply rect_tabulate.
  - split; [reflexivity | repeat constructor].
  - unfold Lg. rewrite !weights_constant_unit by (lia || lra).
    set (W := tabulate (Z.of_nat 1) (Z.of_nat 2) (fun _ _ => 1 / (1 / 2) / (1 / 2))).
    set (A := system_matrix (- (1 / 8)) (laplacian W W (Z.of_nat 1) (Z.of_nat 2))).
    set (b := concat (tabulate (Z.of_nat 1) (Z.of_nat 2) (fun _ _ => 1 / 2))).
    assert (forall p q, (0 <= p < 2)%Z -> (0 <= q < 2)%Z -> q <> p ->
              csr_get A p q = 1 / 2) as Hoff.
    { intros p q Hp Hq Hne. unfold A.
      rewrite system_entry by (cbn; lia).
      destruct (Z.eqb_spec p q); [congruence |].
      rewrite laplacian_entry by (cbn; lia).
      assert ((p = 0 /\ q = 1) \/ (p = 1 /\ q = 0))%Z as [[-> ->] | [-> ->]] by lia;
        cbn [Z.of_nat Pos.of_succ_nat Pos.succ];
        [change (Z.abs (1 / 2 - 0 / 2) + Z.abs (1 mod 2 - 0 mod 2) =? 1)%Z with true;
         change (1 mod 2 =? 0 mod 2)%Z with false; change (1 / 2)%Z with 0%Z;
         change (1 mod 2)%Z with 1%Z
        |change (Z.abs (0 / 2 - 1 / 2) + Z.abs (0 mod 2 - 1 mod 2) =? 1)%Z with true;
         change (0 mod 2 =? 1 mod 2)%Z with false; change (0 / 2)%Z with 0%Z;
         change (0 mod 2)%Z with 0%Z];
        unfold W; rewrite item0_tabulate by lia; field. }
    assert (forall u v, matvec A [u; v] = [u + 1 / 2 * (v - u); v + 1 / 2 * (u - v)]) as Hmv.
    { intros u v. apply (@list_ext _ 0).
      - now rewrite matvec_length.
      - intros k Hk. rewrite matvec_length in Hk.
        assert (k = 0 \/ k = 1)%nat as [-> | ->] by (cbn in Hk; lia).
        + change 0%nat with (Z.to_nat 0) at 1. unfold A.
          rewrite system_row by (cbn; lia). fold A.
          change (range (Z.of_nat 1 * Z.of_nat 2)) with [0; 1]%Z.
          cbn [map]. rewrite ?Rsum_cons, ?Rsum_nil.
          rewrite (Hoff 0%Z 1%Z) by lia.
          change (Z.to_nat 1) with 1%nat. change (Z.to_nat 0) with 0%nat.
          cbn [nth]. ring.
        + change 1%nat with (Z.to_nat 1) at 1. unfold A.
          rewrite system_row by (cbn; lia). fold A.
          change (range (Z.of_nat 1 * Z.of_nat 2)) with [0; 1]%Z.
          cbn [map]. rewrite ?Rsum_cons, ?Rsum_nil.
          rewrite (Hoff 1%Z 0%Z) by lia.
          change (Z.to_nat 1) with 1%nat. change (Z.to_nat 0) with 0%nat.
          cbn [nth]. ring. }
    change b with [1 / 2; 1 / 2].
    intros (x0 & _ & Huniq).
    assert (solves A [1 / 2; 1 / 2] [1; 0]) as S1
      by (split; [reflexivity | rewrite Hmv; f_equal; [lra | f_equal; lra]]).
    assert (solves A [1 / 2; 1 / 2] [0; 1]) as S2
      by (split; [reflexivity | rewrite Hmv; f_equal; [lra | f_equal; lra]]).
    pose proof (Huniq _ S1) as E1. pose proof (Huniq _ S2) as E2.
    rewrite E1 in E2. inversion E2. lra.
Qed.

End SingularSystem.

(** X9. For a non-empty map, a non-negative kernel, [eps > 0],
    [lambda_ >= 0] and [gamma >= 0], the result has the shape of [L], and
    the smoothing creates no new extremes: when all entries of [L] lie in
    [[lo, hi]], all entries of the result lie between
    [clip(lo, eps, 1) ** gamma] and [clip(hi, eps, 1) ** gamma]. *)
Theorem refine_output_within_input_bounds
  s L kernel Lg Kg (gamma lambda_ eps lo hi : R) (n m kh kw : nat) :
  nth_error (heap s) L = Some (Ndarray Lg) ->
  nth_error (heap s) kernel = Some (Ndarray Kg) ->
  rect n m Lg -> (0 < n)%nat -> (0 < m)%nat ->
  rect kh kw Kg -> (0 < kh)%nat -> (0 < kw)%nat -> nonneg_grid Kg ->
  (0 < eps)%R -> (0 <= lambda_)%R -> (0 <= gamma)%R ->
  Forall (Forall (fun v => lo <= v <= hi)%R) Lg ->
  exists r s' out,
    refine_illumination_map_linear L gamma lambda_ kernel eps s = Returned (r, s') /\
    nth_error (heap s') r = Some (Ndarray out) /\
    shape out = shape Lg /\
    Forall (Forall (fun v => Rpower (clip lo eps 1) gamma <= v
                             <= Rpower (clip hi eps 1) gamma)%R) out.
Proof.
  intros HL HK HLg Hn Hm HKg Hkh Hkw PK He Hl Hg Hb.
  destruct (@refine_run_nonneg s L kernel Lg Kg gamma lambda_ eps n m kh kw)
    as (r & s' & x & E & Hx & Hr & PWx & PWy); try assumption.
  exists r, s', (refined_value x (Z.of_nat n) (Z.of_nat m) eps gamma).
  split; [exact E |]. split; [exact Hr |].
  rewrite refined_value_tabulate. split.
  - now rewrite (shape_rect (rect_tabulate n m _) Hn), (shape_rect HLg Hn).
  - assert (Forall (fun v => lo <= v <= hi)%R x) as Hxb.
    { assert (0 < Z.of_nat m)%Z as HmZ by lia.
      apply (solution_bounds HmZ PWx PWy Hl Hx). now apply Forall_concat. }
    assert (length x = (n * m)%nat) as Hxl
      by (destruct Hx as [-> _]; now apply (@concat_length n m)).
    apply Forall_tabulate. intros i j Hi Hj.
    rewrite Forall_forall in Hxb.
    assert (Z.to_nat (i * Z.of_nat m + j) < length x)%nat as Hk
      by (rewrite Hxl; clear - Hi Hj; nia).
    destruct (Hxb (nth (Z.to_nat (i * Z.of_nat m + j)) x 0%R)) as [Hlo Hhi];
      [now apply nth_In |].
    split; now apply corrected_monotone.
Qed.

Lemma refine_output_within_input_bounds_witness :
  let s := {| heap := [Ndarray [[1 / 4; 3 / 4]]; Ndarray [[1]]]%R; log := [] |} in
  exists r s' out,
    refine_illumination_map_linear 0%nat (6 / 10) (2 / 10) 1%nat default_eps s
    = Returned (r, s') /\
    nth_error (heap s') r = Some (Ndarray out) /\
    shape out = (1, 2)%Z /\
    Forall (Forall (fun v => Rpower (clip (1 / 4) default_eps 1) (6 / 10) <= v
                             <= Rpower (clip (3 / 4) default_eps 1) (6 / 10))%R) out.
Proof.
  intros s.
  apply (@refine_output_within_input_bounds
           s 0%nat 1%nat [[1 / 4; 3 / 4]]%R [[1]]%R (6 / 10)%R (2 / 10)%R default_eps
           (1 / 4)%R (3 / 4)%R 1%nat 2%nat 1%nat 1%nat);
    try reflexivity; try lia; try (unfold default_eps; lra).
  - split; [reflexivity | repeat constructor].
  - split; [reflexivity | repeat constructor].
  - apply grid_nonneg. repeat constructor; lra.
  - repeat constructor; lra.
Defined.

(** X10. With [lambda_ = 0] the system matrix is the identity and the call
    returns [np.clip(L, eps, 1) ** gamma] entry by entry, for every kernel
    (of any sign) and every [gamma]. *)
Theorem refine_without_regularisation
  s L kernel Lg Kg (gamma eps : R) (n m kh kw : nat) :
  nth_error (heap s) L = Some (Ndarray Lg) ->
  nth_error (heap s) kernel = Some (Ndarray Kg) ->
  rect n m Lg -> (0 < n)%nat -> (0 < m)%nat ->
  rect kh kw Kg -> (0 < kh)%nat -> (0 < kw)%nat ->
  (0 < eps)%R ->
  exists r s',
    refine_illumination_map_linear L gamma 0 kernel eps s = Returned (r, s') /\
    nth_error (heap s') r
    = Some (Ndarray (grid_map (fun v => Rpower v gamma)
                       (grid_map (fun v => clip v eps 1) Lg))).
Proof.
  intros HL HK HLg Hn Hm HKg Hkh Hkw He.
  destruct (@refine_run_dominant s L kernel Lg Kg gamma 0%R eps n m kh kw)
    as (r & s' & x & E & [Hlen Hx] & Hr); try assumption.
  { replace (n * m)%nat with (Z.to_nat (Z.of_nat n * Z.of_nat m)) by lia.
    apply system_zero_dominant. }
  assert (length x = Z.to_nat (Z.of_nat n * Z.of_nat m)) as Hxl
    by (rewrite Hlen, (@concat_length n m) by assumption; lia).
  rewrite matvec_system_zero in Hx by assumption. subst x.
  exists r, s'. split; [exact E |]. rewrite Hr. unfold refined_value.
  now rewrite tabulate_flatten.
Qed.

Lemma refine_without_regularisation_witness :
  let s := {| heap := [Ndarray [[1 / 4; 3 / 4]]; Ndarray [[-1]]]%R; log := [] |} in
  exists r s',
    refine_illumination_map_linear 0%nat (6 / 10) 0 1%nat default_eps s
    = Returned (r, s') /\
    nth_error (heap s') r
    = Some (Ndarray (grid_map (fun v => Rpower v (6 / 10))
                       (grid_map (fun v => clip v default_eps 1) [[1 / 4; 3 / 4]]%R))).
Proof.
  intros s.
  apply (@refine_without_regularisation
           s 0%nat 1%nat [[1 / 4; 3 / 4]]%R [[-1]]%R (6 / 10)%R default_eps
           1%nat 2%nat 1%nat 1%nat);
    try reflexivity; try lia; try (unfold default_eps; lra).
  - split; [reflexivity | repeat constructor].
  - split; [reflexivity | repeat constructor].
Defined.

(** X11. A constant map of any shape is a fixed point of the smoothing: for
    every non-negative kernel, [eps > 0], [lambda_ >= 0] and [gamma], every
    entry of the result is [clip(c, eps, 1) ** gamma], where [c] is the
    value of the map. *)
Theorem refine_constant_map_is_fixed
  s L kernel Kg (c gamma lambda_ eps : R) (n m kh kw : nat) :
  nth_error (heap s) L = Some (Ndarray (tabulate (Z.of_nat n) (Z.of_nat m) (fun _ _ => c))) ->
  nth_error (heap s) kernel = Some (Ndarray Kg) ->
  (0 < n)%nat -> (0 < m)%nat ->
  rect kh kw Kg -> (0 < kh)%nat -> (0 < kw)%nat -> nonneg_grid Kg ->
  (0 < eps)%R -> (0 <= lambda_)%R ->
  exists r s' out,
    refine_illumination_map_linear L gamma lambda_ kernel eps s = Returned (r, s') /\
    nth_error (heap s') r = Some (Ndarray out) /\
    forall i j, (0 <= i < Z.of_nat n)%Z -> (0 <= j < Z.of_nat m)%Z ->
      getitem out i j = Returned (Rpower (clip c eps 1) gamma).
Proof.
  intros HL HK Hn Hm HKg Hkh Hkw PK He Hl.
  destruct (@refine_constant s L kernel Kg c gamma lambda_ eps n m kh kw)
    as (r & s' & E & Hr); try assumption.
  eexists r, s', _. split; [exact E |]. split; [exact Hr |].
  intros i j Hi Hj. now rewrite getitem_tabulate.
Qed.

Lemma refine_constant_map_is_fixed_witness :
  let s := {| heap := [Ndarray [[1 / 2; 1 / 2]; [1 / 2; 1 / 2]]; Ndarray [[1]]]%R;
              log := [] |} in
  exists r s' out,
    refine_illumination_map_linear 0%nat 1 (2 / 10) 1%nat default_eps s
    = Returned (r, s') /\
    nth_error (heap s') r = Some (Ndarray out) /\
    getitem out 1 0 = Returned (Rpower (clip (1 / 2) default_eps 1) 1).
Proof.
  intros s.
  destruct (@refine_constant_map_is_fixed
              s 0%nat 1%nat [[1]]%R (1 / 2)%R 1%R (2 / 10)%R default_eps
              2%nat 2%nat 1%nat 1%nat)
    as (r & s' & out & E & Hr & H);
    try reflexivity; try lia; try (unfold default_eps; lra).
  - split; [reflexivity | repeat constructor].
  - apply grid_nonneg. repeat constructor; lra.
  - exists r, s', out. split; [exact E |]. split; [exact Hr |]. apply H; lia.
Defined.

(** ** Size of the edge-stopping weights *)

Section WLSMore.
Import Standard_WLSLoss.
Local Open Scope R_scope.

Lemma rpow_zero_iff x a : 0 < a -> (rpow x a = 0 <-> x = 0).
Proof.
  intros Ha. unfold rpow. destruct (Req_EM_T x 0) as [E | E].
  - destruct (Req_EM_T a 0); [lra | tauto].
  - pose proof (exp_pos (a * ln x)). unfold Rpower. split; intros; [lra | contradiction].
Qed.

Lemma rpow_monotone x y a : 0 < a -> 0 <= x <= y -> rpow x a <= rpow y a.
Proof.
  intros Ha [Hx Hxy]. unfold rpow at 1. destruct (Req_EM_T x 0) as [E | E].
  - destruct (Req_EM_T a 0); [lra | apply rpow_nonneg].
  - unfold rpow. destruct (Req_EM_T y 0); [lra |].
    apply Rle_Rpower_l; lra.
Qed.

Lemma wls_weight_upper eps al a b :
  0 < eps -> 0 < al -> 0 <= a -> 0 <= b ->
  wls_weight eps al a b <= 1 / eps /\ (wls_weight eps al a b = 1 / eps <-> a = b).
Proof.
  intros He Hal Ha Hb. unfold wls_weight.
  set (d := ln (a + eps) - ln (b + eps)).
  pose proof (rpow_nonneg (Rabs d) al) as HP.
  pose proof (@rpow_zero_iff (Rabs d) al Hal) as HZ.
  set (P := rpow (Rabs d) al) in *.
  unfold Rdiv. rewrite !Rmult_1_l. split.
  - apply Rinv_le_contravar; lra.
  - rewrite <- (@ln_shift_eq eps a b Ha Hb He). fold d. split.
    + intros E. apply (f_equal Rinv) in E. rewrite !Rinv_inv in E.
      assert (P = 0) as E0 by lra. apply HZ in E0.
      destruct (Req_dec d 0) as [? | Hd]; [assumption |].
      now apply Rabs_no_R0 in Hd.
    + intros E. assert (P = 0) as ->; [| now rewrite Rplus_0_r].
      apply HZ. rewrite E. apply Rabs_R0.
Qed.

Lemma wls_weight_antitone eps al a b a' b' :
  0 < eps -> 0 < al ->
  Rabs (ln (a + eps) - ln (b + eps)) <= Rabs (ln (a' + eps) - ln (b' + eps)) ->
  wls_weight eps al a' b' <= wls_weight eps al a b.
Proof.
  intros He Hal H. unfold wls_weight.
  pose proof (rpow_nonneg (Rabs (ln (a + eps) - ln (b + eps))) al).
  assert (rpow (Rabs (ln (a + eps) - ln (b + eps))) al
          <= rpow (Rabs (ln (a' + eps) - ln (b' + eps))) al)
    by (apply rpow_monotone; [assumption | split; [apply Rabs_pos | assumption]]).
  unfold Rdiv. rewrite !Rmult_1_l. apply Rinv_le_contravar; lra.
Qed.

(** With [alpha = 0] the power is 1 for every difference, also an infinite
    or undefined one. *)
Lemma weight_of_alpha_zero self d :
  alpha self = 0 -> epsilon self + 1 <> 0 ->
  weight_of self d = Finite (1 / (epsilon self + 1)).
Proof.
  intros Hal He. unfold weight_of. rewrite Hal.
  assert (f_pow (f_abs d) 0 = Finite 1) as ->.
  { destruct d as [x | | |]; cbn [f_abs f_pow].
    - rewrite float_pow_abs by (left; lra).
      assert (rpow (Rabs x) 0 = 1) as ->.
      { unfold rpow. destruct (Req_EM_T (Rabs x) 0) as [E | NE].
        - destruct (Req_EM_T 0 0); [reflexivity | lra].
        - pose proof (Rabs_pos x). apply Rpower_O. lra. }
      cbn [overflow]. pose proof float32_max_pos.
      destruct (Rlt_dec float32_max 1); [lra |].
      destruct (Rlt_dec 1 (- float32_max)); [lra | reflexivity].
    - destruct (Rlt_dec 0 0); [lra |]. destruct (Req_EM_T 0 0); [reflexivity | lra].
    - destruct (Rlt_dec 0 0); [lra |]. destruct (Req_EM_T 0 0); [reflexivity | lra].
    - destruct (Req_EM_T 0 0); [reflexivity | lra]. }
  cbn [f_add_scalar f_recip].
  destruct (Req_EM_T (epsilon self + 1) 0); [contradiction | reflexivity].
Qed.

(** For [alpha > 0] the weight is the closed form, or 0 once the power has
    left the float range. *)
Lemma weight_of_cases self a b :
  0 <= a -> 0 <= b -> 0 < epsilon self -> 0 < alpha self ->
  exists v,
    weight_of self (f_sub (log_of self a) (log_of self b)) = Finite v /\
    ((log_power (epsilon self) (alpha self) a b <= float32_max /\
      v = wls_weight (epsilon self) (alpha self) a b) \/
     (float32_max < log_power (epsilon self) (alpha self) a b /\ v = 0)).
Proof.
  intros Ha Hb He Hal.
  destruct (@weight_of_pair self a b Ha Hb He) as (W1 & W2 & _).
  destruct (Rle_dec (log_power (epsilon self) (alpha self) a b) float32_max) as [Hle | Hgt].
  - eexists. split; [apply W1; [left; lra | exact Hle] |]. left. split; [exact Hle | reflexivity].
  - assert (float32_max < log_power (epsilon self) (alpha self) a b) as Hlt by lra.
    exists 0. split; [apply W2; [left; lra | exact Hlt] |]. right. split; [exact Hlt | reflexivity].
Qed.

(** The logarithm of a negative number is NaN, and NaN goes through the
    difference, the absolute value, the power, the sum and the reciprocal. *)
Lemma weight_of_nan self a b :
  alpha self <> 0 -> a + epsilon self < 0 \/ b + epsilon self < 0 ->
  weight_of self (f_sub (log_of self a) (log_of self b)) = NaN.
Proof.
  intros Hal H.
  assert (forall g, g + epsilon self < 0 -> log_of self g = NaN) as Hlog.
  { intros g Hg. unfold log_of, f_log.
    destruct (Rlt_dec 0 (g + epsilon self)); [lra |].
    destruct (Req_EM_T (g + epsilon self) 0); [lra | reflexivity]. }
  assert (f_sub (log_of self a) (log_of self b) = NaN) as ->.
  { destruct H as [H | H]; rewrite (Hlog _ H); [reflexivity |].
    now destruct (log_of self a). }
  unfold weight_of. cbn [f_abs f_pow].
  destruct (Req_EM_T (alpha self) 0); [contradiction | reflexivity].
Qed.

End WLSMore.

Section WLSBounds.
Import Standard_WLSLoss.
Local Open Scope R_scope.

(** X12. For a non-negative input, [epsilon > 0] and [alpha > 0], every
    entry of both weight maps is a finite number in [[0, 1/epsilon]]; it is
    exactly [1/epsilon] where the two adjacent input entries are equal; it
    is 0 where the power [|log difference|^alpha] exceeds the largest
    float32, and strictly positive elsewhere. *)
Theorem forward_weight_at_most_reciprocal_epsilon (self : t) (gray : tensor) (c h w : nat) :
  shape3 c h w gray ->
  Forall (Forall (Forall (fun g => 0 <= g))) gray ->
  0 < epsilon self -> 0 < alpha self ->
  let bounded (u : fval) a b :=
    exists v, u = Finite v /\ 0 <= v <= 1 / epsilon self /\
      (a = b -> v = 1 / epsilon self) /\
      (0 < v <-> log_power (epsilon self) (alpha self) a b <= float32_max) in
  (forall ch i k, (ch < c)%nat -> (i < h)%nat -> (k + 1 < w)%nat ->
     bounded (tget NaN (fst (forward self gray)) ch i k)
             (tget 0 gray ch i k) (tget 0 gray ch i (k + 1))) /\
  (forall ch i k, (ch < c)%nat -> (i + 1 < h)%nat -> (k < w)%nat ->
     bounded (tget NaN (snd (forward self gray)) ch i k)
             (tget 0 gray ch i k) (tget 0 gray ch (i + 1) k)).
Proof.
  intros Hs Hpos He Hal bounded.
  assert (forall a b, 0 <= a -> 0 <= b ->
            bounded (weight_of self (f_sub (log_of self a) (log_of self b))) a b) as Hw.
  { intros a b Ha Hb. unfold bounded.
    destruct (@weight_of_cases self a b Ha Hb He Hal) as (v & E & Hv).
    destruct (@wls_weight_upper (epsilon self) (alpha self) a b He Hal Ha Hb) as [U1 U2].
    pose proof (@wls_weight_pos (epsilon self) (alpha self) a b He) as U0.
    assert (0 < 1 / epsilon self) by (apply Rdiv_lt_0_compat; lra).
    exists v. split; [exact E |].
    destruct Hv as [[Hle ->] | [Hlt ->]].
    - split; [lra |]. split; [apply U2 |]. split; [intros _; exact Hle | intros _; exact U0].
    - split; [lra |]. split.
      + intros Eab. exfalso. subst b. unfold log_power, rpow in Hlt.
        replace (ln (a + epsilon self) - ln (a + epsilon self)) with 0 in Hlt by ring.
        rewrite Rabs_R0 in Hlt. pose proof float32_max_pos.
        destruct (Req_EM_T 0 0); [| lra]. destruct (Req_EM_T (alpha self) 0); lra.
      + split; intros; lra. }
  split; intros ch i k Hch Hi Hk.
  - rewrite (@tget_forward_horizontal self c h w gray ch i k Hs Hch Hi Hk).
    apply Hw; apply tget_nonneg, Hpos.
  - rewrite (@tget_forward_vertical self c h w gray ch i k Hs Hch Hi Hk).
    apply Hw; apply tget_nonneg, Hpos.
Qed.

Lemma forward_weight_at_most_reciprocal_epsilon_witness :
  exists v,
    tget NaN (fst (forward default [[[1 / 2; 1 / 4]; [1 / 2; 1 / 2]]])) 0 0 0 = Finite v /\
    0 <= v <= 1 / epsilon default.
Proof.
  destruct (@forward_weight_at_most_reciprocal_epsilon
              default [[[1 / 2; 1 / 4]; [1 / 2; 1 / 2]]] 1%nat 2%nat 2%nat) as [H _].
  - split; [reflexivity | repeat constructor].
  - repeat constructor; lra.
  - cbn. lra.
  - cbn. lra.
  - destruct (H 0%nat 0%nat 0%nat) as (v & E & Hv & _); [lia | lia | lia |].
    exists v. split; [exact E | exact Hv].
Defined.

(** X13. For a non-negative input, [epsilon > 0] and [alpha > 0], a larger
    absolute difference of the logarithms gives a smaller weight, in the
    horizontal map and in the vertical map. *)
Theorem forward_weight_decreases_with_difference
  (self : t) (gray : tensor) (c h w : nat) :
  shape3 c h w gray ->
  Forall (Forall (Forall (fun g => 0 <= g))) gray ->
  0 < epsilon self -> 0 < alpha self ->
  let d a b := Rabs (ln (a + epsilon self) - ln (b + epsilon self)) in
  (forall ch i k ch' i' k',
     (ch < c)%nat -> (i < h)%nat -> (k + 1 < w)%nat ->
     (ch' < c)%nat -> (i' < h)%nat -> (k' + 1 < w)%nat ->
     d (tget 0 gray ch i k) (tget 0 gray ch i (k + 1))
     <= d (tget 0 gray ch' i' k') (tget 0 gray ch' i' (k' + 1)) ->
     exists v v', tget NaN (fst (forward self gray)) ch i k = Finite v /\
                  tget NaN (fst (forward self gray)) ch' i' k' = Finite v' /\ v' <= v) /\
  (forall ch i k ch' i' k',
     (ch < c)%nat -> (i + 1 < h)%nat -> (k < w)%nat ->
     (ch' < c)%nat -> (i' + 1 < h)%nat -> (k' < w)%nat ->
     d (tget 0 gray ch i k) (tget 0 gray ch (i + 1) k)
     <= d (tget 0 gray ch' i' k') (tget 0 gray ch' (i' + 1) k') ->
     exists v v', tget NaN (snd (forward self gray)) ch i k = Finite v /\
                  tget NaN (snd (forward self gray)) ch' i' k' = Finite v' /\ v' <= v).
Proof.
  intros Hs Hpos He Hal d.
  assert (forall a b a' b', 0 <= a -> 0 <= b -> 0 <= a' -> 0 <= b' ->
            d a b <= d a' b' ->
            exists v v',
              weight_of self (f_sub (log_of self a) (log_of self b)) = Finite v /\
              weight_of self (f_sub (log_of self a') (log_of self b')) = Finite v' /\
              v' <= v) as Hw.
  { intros a b a' b' Ha Hb Ha' Hb' Hd.
    destruct (@weight_of_cases self a b Ha Hb He Hal) as (v & E & Hv).
    destruct (@weight_of_cases self a' b' Ha' Hb' He Hal) as (v' & E' & Hv').
    exists v, v'. split; [exact E |]. split; [exact E' |].
    pose proof (@wls_weight_pos (epsilon self) (alpha self) a b He).
    assert (log_power (epsilon self) (alpha self) a b
            <= log_power (epsilon self) (alpha self) a' b') as Hp
      by (apply rpow_monotone; [assumption | split; [apply Rabs_pos | exact Hd]]).
    destruct Hv' as [[Hle' ->] | [_ ->]].
    - destruct Hv as [[_ ->] | [Hlt _]]; [now apply wls_weight_antitone | lra].
    - destruct Hv as [[_ ->] | [_ ->]]; lra. }
  split; intros ch i k ch' i' k' Hch Hi Hk Hch' Hi' Hk' Hd.
  - rewrite (@tget_forward_horizontal self c h w gray ch i k Hs Hch Hi Hk).
    rewrite (@tget_forward_horizontal self c h w gray ch' i' k' Hs Hch' Hi' Hk').
    apply Hw; try apply tget_nonneg, Hpos. exact Hd.
  - rewrite (@tget_forward_vertical self c h w gray ch i k Hs Hch Hi Hk).
    rewrite (@tget_forward_vertical self c h w gray ch' i' k' Hs Hch' Hi' Hk').
    apply Hw; try apply tget_nonneg, Hpos. exact Hd.
Qed.

Lemma forward_weight_decreases_with_difference_witness :
  let gray := [[[1 / 2; 1 / 2; 1 / 4]]] in
  exists v v', tget NaN (fst (forward default gray)) 0 0 0 = Finite v /\
               tget NaN (fst (forward default gray)) 0 0 1 = Finite v' /\ v' <= v.
Proof.
  intros gray.
  destruct (@forward_weight_decreases_with_difference default gray 1%nat 1%nat 3%nat)
    as [H _].
  - split; [reflexivity | repeat constructor].
  - repeat constructor; lra.
  - cbn. lra.
  - cbn. lra.
  - apply (H 0%nat 0%nat 0%nat 0%nat 0%nat 1%nat); try lia.
    unfold gray, tget. cbn [nth Nat.add].
    replace (ln (1 / 2 + epsilon default) - ln (1 / 2 + epsilon default)) with 0 by ring.
    rewrite Rabs_R0. apply Rabs_pos.
Defined.

(** X14. With [alpha = 0] every entry of both weight maps is
    [1 / (epsilon + 1)], whatever the input holds, negative entries
    included: the edge-stopping is switched off. *)
Theorem forward_constant_for_zero_alpha (self : t) (gray : tensor) (c h w : nat) :
  shape3 c h w gray -> alpha self = 0 -> epsilon self + 1 <> 0 ->
  (forall ch i k, (ch < c)%nat -> (i < h)%nat -> (k + 1 < w)%nat ->
     tget NaN (fst (forward self gray)) ch i k = Finite (1 / (epsilon self + 1))) /\
  (forall ch i k, (ch < c)%nat -> (i + 1 < h)%nat -> (k < w)%nat ->
     tget NaN (snd (forward self gray)) ch i k = Finite (1 / (epsilon self + 1))).
Proof.
  intros Hs Hal He. split; intros ch i k Hch Hi Hk.
  - rewrite (@tget_forward_horizontal self c h w gray ch i k Hs Hch Hi Hk).
    now apply weight_of_alpha_zero.
  - rewrite (@tget_forward_vertical self c h w gray ch i k Hs Hch Hi Hk).
    now apply weight_of_alpha_zero.
Qed.

Lemma forward_constant_for_zero_alpha_witness :
  tget NaN (fst (forward (init (1 / 100) 0 (15 / 100)) [[[1 / 2; - 3]]])) 0 0 0
  = Finite (1 / (1 / 100 + 1)).
Proof.
  destruct (@forward_constant_for_zero_alpha
              (init (1 / 100) 0 (15 / 100)) [[[1 / 2; - 3]]] 1%nat 1%nat 2%nat) as [H _].
  - split; [reflexivity | repeat constructor].
  - reflexivity.
  - cbn. lra.
  - apply (H 0%nat 0%nat 0%nat); lia.
Defined.

(** X15. [forward] never raises on a negative entry: where an entry [g] has
    [g + epsilon < 0], its logarithm is NaN, and for [alpha <> 0] the
    weights of both pairs it belongs to are NaN, in the horizontal and in
    the vertical map. *)
Theorem forward_propagates_nan (self : t) (gray : tensor) (c h w : nat) :
  shape3 c h w gray -> alpha self <> 0 ->
  (forall ch i k, (ch < c)%nat -> (i < h)%nat -> (k + 1 < w)%nat ->
     tget 0 gray ch i k + epsilon self < 0 \/ tget 0 gray ch i (k + 1) + epsilon self < 0 ->
     tget NaN (fst (forward self gray)) ch i k = NaN) /\
  (forall ch i k, (ch < c)%nat -> (i + 1 < h)%nat -> (k < w)%nat ->
     tget 0 gray ch i k + epsilon self < 0 \/ tget 0 gray ch (i + 1) k + epsilon self < 0 ->
     tget NaN (snd (forward self gray)) ch i k = NaN).
Proof.
  intros Hs Hal. split; intros ch i k Hch Hi Hk Hneg.
  - rewrite (@tget_forward_horizontal self c h w gray ch i k Hs Hch Hi Hk).
    now apply weight_of_nan.
  - rewrite (@tget_forward_vertical self c h w gray ch i k Hs Hch Hi Hk).
    now apply weight_of_nan.
Qed.

Lemma forward_propagates_nan_witness :
  tget NaN (fst (forward default [[[1 / 2; - 3; 1 / 4]]])) 0 0 1 = NaN.
Proof.
  destruct (@forward_propagates_nan default [[[1 / 2; - 3; 1 / 4]]] 1%nat 1%nat 3%nat)
    as [H _].
  - split; [reflexivity | repeat constructor].
  - cbn. lra.
  - apply (H 0%nat 0%nat 1%nat); try lia. left. cbn. lra.
Defined.

End WLSBounds.

(** ** The enhancement step of [main] *)

Section MainFacts.
Local Open Scope R_scope.

Lemma Forall2_of_nth {A B : Type} (P : A -> B -> Prop) (da : A) (db : B) a b :
  length a = length b ->
  (forall k, (k < length a)%nat -> P (nth k a da) (nth k b db)) -> Forall2 P a b.
Proof.
  revert b. induction a as [| x a IH]; intros [| y b] Hl H; try discriminate.
  - constructor.
  - constructor.
    + apply (H 0%nat). cbn. lia.
    + apply IH; [cbn in Hl; lia |]. intros k Hk. apply (H (S k)). cbn. lia.
Qed.

Lemma map_combine_zip {A B C : Type} (g : A -> B -> C) a b :
  map (fun xy => g (fst xy) (snd xy)) (combine a b) = zip_with g a b.
Proof.
  revert b. induction a as [| x a IH]; intros [| y b]; cbn; try reflexivity.
  now rewrite IH.
Qed.

Lemma Forall2_combine {A B : Type} (P : A -> B -> Prop) a b :
  Forall2 P a b -> forall xy, In xy (combine a b) -> P (fst xy) (snd xy).
Proof.
  induction 1 as [| x y a b Hxy _ IH]; intros xy Hin; [destruct Hin |].
  destruct Hin as [<- | Hin]; [exact Hxy | now apply IH].
Qed.

(** Arrays of equal length are combined entry by entry. *)
Lemma broadcast_zip {A B C : Type} (P : A -> B -> Prop)
      (f : A -> B -> outcome C) (g : A -> B -> C) a b :
  (forall x y, P x y -> f x y = Returned (g x y)) ->
  Forall2 P a b -> broadcast f a b = Returned (zip_with g a b).
Proof.
  intros Hf H. unfold broadcast. rewrite (Forall2_length H), Nat.eqb_refl.
  rewrite <- map_combine_zip. apply omap_all.
  intros xy Hin. apply Hf. now apply (Forall2_combine H).
Qed.

Lemma omap_raises_first {A B : Type} (f : A -> outcome B) x l e :
  f x = Raised e -> omap f (x :: l) = Raised e.
Proof. intros E. cbn [omap]. now rewrite E. Qed.

(** Arrays whose lengths differ and are both other than 1 cannot be
    combined. *)
Lemma broadcast_mismatch {A B C : Type} (f : A -> B -> outcome C) a b :
  length a <> length b -> length a <> 1%nat -> length b <> 1%nat ->
  broadcast f a b = Raised ValueError.
Proof.
  intros Hab Ha Hb. unfold broadcast.
  destruct (Nat.eqb_spec (length a) (length b)); [contradiction |].
  destruct a as [| x [| x' a]]; destruct b as [| y [| y' b]]; cbn in *;
    try reflexivity; lia.
Qed.

Lemma tget_map3 {A B : Type} (f : A -> B) (d : A) (d' : B) c h w t i j k :
  shape3 c h w t -> (i < c)%nat -> (j < h)%nat -> (k < w)%nat ->
  tget d' (map (map (map f)) t) i j k = f (tget d t i j k).
Proof.
  intros [Hc Hall] Hi Hj Hk. unfold tget. rewrite Forall_forall in Hall.
  assert (In (nth i t []) t) as Hin by (apply nth_In; lia).
  destruct (Hall _ Hin) as [Hh Hrows]. rewrite Forall_forall in Hrows.
  assert (length (nth j (nth i t []) []) = w) as Hw by (apply Hrows, nth_In; lia).
  rewrite (@nth_map_lt _ _ _ t i [] []) by lia.
  rewrite (@nth_map_lt _ _ _ (nth i t []) j [] []) by lia.
  now rewrite (@nth_map_lt _ _ _ _ k d' d) by lia.
Qed.

Lemma shape3_map3 {A B : Type} (f : A -> B) c h w t :
  shape3 c h w t -> shape3 c h w (map (map (map f)) t).
Proof.
  intros [Hc Hall]. split; [now rewrite length_map |].
  apply Forall_forall. intros ch Hch. apply in_map_iff in Hch.
  destruct Hch as (ch0 & <- & Hin). rewrite Forall_forall in Hall.
  destruct (Hall _ Hin) as [Hh Hrows]. split; [now rewrite length_map |].
  apply Forall_forall. intros r Hr. apply in_map_iff in Hr.
  destruct Hr as (r0 & <- & Hin0). rewrite Forall_forall in Hrows.
  now rewrite length_map, (Hrows _ Hin0).
Qed.

Lemma shape3_nth {A : Type} c h w (t : list (list (list A))) i j :
  shape3 c h w t -> (i < c)%nat -> (j < h)%nat ->
  length (nth i t []) = h /\ length (nth j (nth i t []) []) = w.
Proof.
  intros [Hc Hall] Hi Hj. rewrite Forall_forall in Hall.
  destruct (Hall (nth i t []) ltac:(apply nth_In; lia)) as [Hh Hrows].
  rewrite Forall_forall in Hrows. split; [exact Hh |]. apply Hrows, nth_In. lia.
Qed.

Lemma shape3_nth_row {A : Type} c h w (t : list (list (list A))) i :
  shape3 c h w t -> (i < c)%nat -> length (nth i t []) = h.
Proof.
  intros [Hc Hall] Hi. rewrite Forall_forall in Hall.
  now destruct (Hall (nth i t []) ltac:(apply nth_In; lia)).
Qed.

End MainFacts.

(** The luminance map of line 117 and the divisor of line 123. *)
Definition luminance (img : image) : grid :=
  map (map (fun p => fold_left Rmax (tl p) (hd 0%R p))) img.

Definition shade (T : grid) : image :=
  map (map (map (fun v => (v * (99 / 100) + 1 / 100)%R)))
      (map (map (fun v => [v; v; v])) T).

Section MainShapes.
Local Open Scope R_scope.

Lemma np_max_axis2_returns hh ww cc (img : image) :
  shape3 hh ww cc img -> (0 < cc)%nat ->
  np_max_axis2 img = Returned (luminance img) /\ rect hh ww (luminance img).
Proof.
  intros [Hh Hall] Hc. rewrite Forall_forall in Hall. split.
  - unfold np_max_axis2, luminance. apply omap_all. intros r Hr.
    apply omap_all. intros p Hp.
    destruct (Hall r Hr) as [_ Hrow]. rewrite Forall_forall in Hrow.
    specialize (Hrow p Hp). destruct p as [| x l]; [cbn in Hrow; lia | reflexivity].
  - unfold luminance. split; [now rewrite length_map |].
    apply Forall_forall. intros r Hr. apply in_map_iff in Hr.
    destruct Hr as (r0 & <- & Hin). rewrite length_map. now apply Hall.
Qed.

Lemma shade_shape hh ww (T : grid) : rect hh ww T -> shape3 hh ww 3 (shade T).
Proof.
  intros [Hh Hrows]. unfold shade. apply shape3_map3. split; [now rewrite length_map |].
  apply Forall_forall. intros r Hr. apply in_map_iff in Hr.
  destruct Hr as (r0 & <- & Hin). rewrite Forall_forall in Hrows.
  split; [now rewrite length_map, (Hrows _ Hin) |].
  apply Forall_forall. intros p Hp. apply in_map_iff in Hp. now destruct Hp as (v & <- & _).
Qed.

Lemma tget_shade hh ww (T : grid) i j k :
  rect hh ww T -> (i < hh)%nat -> (j < ww)%nat -> (k < 3)%nat ->
  tget 0 (shade T) i j k = nth j (nth i T []) 0 * (99 / 100) + 1 / 100.
Proof.
  intros HT Hi Hj Hk. pose proof HT as [Hh Hrows]. unfold shade, tget.
  pose proof (@rect_row hh ww T i HT Hi) as Hw.
  rewrite (@nth_map_lt _ _ _ _ i [] []) by (rewrite length_map; lia).
  rewrite (@nth_map_lt _ _ _ T i [] []) by lia.
  rewrite (@nth_map_lt _ _ _ _ j [] []) by (rewrite length_map; lia).
  rewrite (@nth_map_lt _ _ _ (nth i T []) j [] 0) by lia.
  rewrite (@nth_map_lt _ _ _ _ k 0 0) by (cbn; lia).
  destruct k as [| [| [| k]]]; [reflexivity | reflexivity | reflexivity | lia].
Qed.

Lemma Forall2_shape3 {A B : Type} (P : A -> B -> Prop) (da : A) (db : B) c h w
      (a : list (list (list A))) (b : list (list (list B))) :
  shape3 c h w a -> shape3 c h w b ->
  (forall i j k, (i < c)%nat -> (j < h)%nat -> (k < w)%nat ->
     P (tget da a i j k) (tget db b i j k)) ->
  Forall2 (Forall2 (Forall2 P)) a b.
Proof.
  intros Ha Hb H. pose proof Ha as [Hca _]. pose proof Hb as [Hcb _].
  apply (@Forall2_of_nth _ _ _ [] []); [congruence |]. intros i Hi.
  pose proof (@shape3_nth_row _ c h w a i Ha ltac:(lia)) as Hha.
  pose proof (@shape3_nth_row _ c h w b i Hb ltac:(lia)) as Hhb.
  apply (@Forall2_of_nth _ _ _ [] []); [congruence |]. intros j Hj.
  destruct (@shape3_nth _ c h w a i j Ha ltac:(lia) ltac:(lia)) as [_ Hwa].
  destruct (@shape3_nth _ c h w b i j Hb ltac:(lia) ltac:(lia)) as [_ Hwb].
  apply (@Forall2_of_nth _ _ _ da db); [congruence |]. intros k Hk.
  apply (H i j k); lia.
Qed.

Lemma shape3_zip3 {A B C : Type} (g : A -> B -> C) c h w
      (a : list (list (list A))) (b : list (list (list B))) :
  shape3 c h w a -> shape3 c h w b ->
  shape3 c h w (zip_with (zip_with (zip_with g)) a b).
Proof.
  intros Ha Hb. pose proof Ha as [Hca _]. pose proof Hb as [Hcb _].
  split; [rewrite zip_with_length; lia |].
  apply Forall_forall. intros r Hr.
  destruct (In_nth _ _ [] Hr) as (i & Hi & <-).
  rewrite zip_with_length in Hi.
  rewrite (@nth_zip_with _ _ _ _ a b i [] [] []) by lia.
  pose proof (@shape3_nth_row _ c h w a i Ha ltac:(lia)) as Hha.
  pose proof (@shape3_nth_row _ c h w b i Hb ltac:(lia)) as Hhb.
  split; [rewrite zip_with_length; lia |].
  apply Forall_forall. intros p Hp.
  destruct (In_nth _ _ [] Hp) as (j & Hj & <-).
  rewrite zip_with_length in Hj.
  rewrite (@nth_zip_with _ _ _ _ _ _ j [] [] []) by lia.
  destruct (@shape3_nth _ c h w a i j Ha ltac:(lia) ltac:(lia)) as [_ Hwa].
  destruct (@shape3_nth _ c h w b i j Hb ltac:(lia) ltac:(lia)) as [_ Hwb].
  rewrite zip_with_length. lia.
Qed.

Lemma tget_zip3 {A B C : Type} (g : A -> B -> C) (da : A) (db : B) (d : C) c h w
      (a : list (list (list A))) (b : list (list (list B))) i j k :
  shape3 c h w a -> shape3 c h w b -> (i < c)%nat -> (j < h)%nat -> (k < w)%nat ->
  tget d (zip_with (zip_with (zip_with g)) a b) i j k
  = g (tget da a i j k) (tget db b i j k).
Proof.
  intros Ha Hb Hi Hj Hk. pose proof Ha as [Hca _]. pose proof Hb as [Hcb _].
  destruct (@shape3_nth _ c h w a i j Ha Hi Hj) as [Hha Hwa].
  destruct (@shape3_nth _ c h w b i j Hb Hi Hj) as [Hhb Hwb].
  unfold tget.
  rewrite (@nth_zip_with _ _ _ _ a b i [] [] []) by lia.
  rewrite (@nth_zip_with _ _ _ _ _ _ j [] [] []) by lia.
  now rewrite (@nth_zip_with _ _ _ _ _ _ k d da db) by lia.
Qed.

End MainShapes.

Section MainRun.
Local Open Scope heap_scope.
Local Open Scope R_scope.

Lemma broadcast_head_raises {A B C : Type} (f : A -> B -> outcome C) (da : A) (db : B)
      a b e :
  length a = length b -> (0 < length a)%nat ->
  f (nth 0 a da) (nth 0 b db) = Raised e -> broadcast f a b = Raised e.
Proof.
  intros Hl Hpos E. unfold broadcast. rewrite Hl, Nat.eqb_refl.
  destruct a as [| x a]; [cbn in Hpos; lia |].
  destruct b as [| y b]; [discriminate |].
  cbn [combine]. apply omap_raises_first. exact E.
Qed.

Lemma tget_Forall3 {A : Type} (P : A -> Prop) (d : A) c h w t i j k :
  shape3 c h w t -> Forall (Forall (Forall P)) t ->
  (i < c)%nat -> (j < h)%nat -> (k < w)%nat -> P (tget d t i j k).
Proof.
  intros Hs H Hi Hj Hk. pose proof Hs as [Hc _].
  destruct (@shape3_nth _ c h w t i j Hs Hi Hj) as [Hh Hw].
  unfold tget. rewrite Forall_forall in H.
  specialize (H (nth i t []) ltac:(apply nth_In; lia)). rewrite Forall_forall in H.
  specialize (H (nth j (nth i t []) []) ltac:(apply nth_In; lia)).
  rewrite Forall_forall in H. apply H, nth_In. lia.
Qed.

(** Lines 116-121: the luminance map is refined to an array [T] of its shape
    with entries in (0, 1]; what remains is the division of line 123. *)
Lemma main_prefix (png : list (list (list Z))) (hh ww cc : nat) s :
  shape3 hh ww cc png -> (0 < hh)%nat -> (0 < ww)%nat -> (0 < cc)%nat ->
  exists T s',
    rect hh ww T /\ Forall (Forall (fun v => 0 < v <= 1)) T /\
    main png s
    = bind (lift (image_div (map (map (map (fun v => IZR v / 255))) png) (shade T)))
           (fun q => ret (map (map (map (fun v => v * 255))) q)) s'.
Proof.
  intros Hs Hh Hw Hc.
  pose (img := map (map (map (fun v => IZR v / 255))) png).
  assert (shape3 hh ww cc img) as Hi by (now apply shape3_map3).
  destruct (@np_max_axis2_returns hh ww cc img Hi Hc) as [Emax HG].
  set (G := luminance img) in *.
  set (K := tabulate default_size default_size (kernel_value 3 default_size)).
  assert (create_spacial_affinity_kernel 3 default_size = Returned K) as EK
    by (apply create_spacial_affinity_kernel_returns; [lra | unfold default_size; lia]).
  assert (rect 15 15 K) as HK by (apply (tabulate_rect default_size default_size)).
  assert (nonneg_grid K) as PK
    by (apply tabulate_nonneg; intros; left; apply exp_pos).
  set (s2 := {| heap := (heap s ++ [Ndarray G]) ++ [Ndarray K]; log := log s |}).
  destruct (@refine_run_nonneg s2 (length (heap s)) (length (heap s ++ [Ndarray G]))
              G K (6 / 10) (2 / 10) default_eps hh ww 15%nat 15%nat)
    as (r & s' & x & E & _ & Hr & _); try assumption; try lia;
    try (unfold default_eps; lra).
  { unfold s2. lookup. }
  { unfold s2. lookup. }
  exists (refined_value x (Z.of_nat hh) (Z.of_nat ww) default_eps (6 / 10)), s'.
  split; [| split].
  - rewrite refined_value_tabulate. apply rect_tabulate.
  - rewrite refined_value_tabulate. apply Forall_tabulate. intros i j _ _.
    split; [apply exp_pos |].
    apply corrected_range; unfold default_eps; lra.
  - unfold main. cbv zeta. fold img.
    step ltac:(unfold lift; rewrite Emax; reflexivity).
    step ltac:(unfold alloc; reflexivity).
    step ltac:(unfold lift; rewrite EK; reflexivity).
    step ltac:(unfold alloc; reflexivity).
    fold s2. rewrite (@bind_returned _ _ _ _ _ _ _ E).
    step ltac:(apply load_ndarray_run; exact Hr).
    reflexivity.
Qed.

End MainRun.

(** X16. For a decoded image with three channels, at least one pixel and
    non-negative samples, the enhancement of [main] comes to its end without
    a zero divisor, and the array it hands to [np.uint8] has the shape of
    the image; no sample is darkened and none grows more than hundredfold:
    [v <= out <= 100 * v] for the input sample [v].  Nothing clamps the
    result to 255. *)
Theorem main_never_darkens (png : list (list (list Z))) (hh ww : nat) (s : state) :
  shape3 hh ww 3 png -> (0 < hh)%nat -> (0 < ww)%nat ->
  Forall (Forall (Forall (fun v => 0 <= v)%Z)) png ->
  exists out s',
    main png s = Returned (out, s') /\
    shape3 hh ww 3 out /\
    forall i j k, (i < hh)%nat -> (j < ww)%nat -> (k < 3)%nat ->
      (IZR (tget 0%Z png i j k) <= tget 0%R out i j k <= 100 * IZR (tget 0%Z png i j k))%R.
Proof.
  intros Hs Hh Hw Hpos.
  destruct (@main_prefix png hh ww 3 s Hs Hh Hw ltac:(lia)) as (T & s' & HT & HTr & E).
  set (img := map (map (map (fun v => (IZR v / 255)%R))) png) in *.
  assert (shape3 hh ww 3 img) as Hi by (now apply shape3_map3).
  pose proof (shade_shape HT) as Hg.
  assert (forall i j k, (i < hh)%nat -> (j < ww)%nat -> (k < 3)%nat ->
            (1 / 100 < tget 0 (shade T) i j k <= 1)%R) as Hd.
  { intros i j k Hi' Hj Hk. rewrite (@tget_shade hh ww T i j k HT Hi' Hj Hk).
    pose proof HT as [HTl _]. pose proof (@rect_row hh ww T i HT Hi') as Hrow.
    rewrite Forall_forall in HTr.
    specialize (HTr (nth i T []) ltac:(apply nth_In; lia)).
    rewrite Forall_forall in HTr.
    specialize (HTr (nth j (nth i T []) 0%R) ltac:(apply nth_In; lia)). lra. }
  assert (image_div img (shade T)
          = Returned (zip_with (zip_with (zip_with Rdiv)) img (shade T))) as Ediv.
  { unfold image_div.
    apply (@broadcast_zip _ _ _ (Forall2 (Forall2 (fun _ y : R => y <> 0%R)))).
    - intros a b Hab.
      apply (@broadcast_zip _ _ _ (Forall2 (fun _ y : R => y <> 0%R))); [| exact Hab].
      intros p q Hpq.
      apply (@broadcast_zip _ _ _ (fun _ y : R => y <> 0%R)); [| exact Hpq].
      intros x y Hy. unfold float_div.
      destruct (Req_EM_T y 0); [contradiction | reflexivity].
    - apply (@Forall2_shape3 _ _ _ 0%R 0%R hh ww 3%nat); try assumption.
      intros i j k Hi' Hj Hk. specialize (Hd i j k Hi' Hj Hk). lra. }
  eexists _, s'. split; [| split].
  - rewrite E. unfold bind, lift. rewrite Ediv. reflexivity.
  - apply shape3_map3. now apply shape3_zip3.
  - intros i j k Hi' Hj Hk.
    rewrite (@tget_map3 _ _ _ 0%R 0%R hh ww 3%nat) by (try apply shape3_zip3; assumption).
    rewrite (@tget_zip3 _ _ _ _ 0%R 0%R 0%R hh ww 3%nat) by assumption.
    unfold img. rewrite (@tget_map3 _ _ _ 0%Z 0%R hh ww 3%nat) by assumption.
    specialize (Hd i j k Hi' Hj Hk).
    pose proof (@tget_Forall3 _ _ 0%Z hh ww 3%nat png i j k Hs Hpos Hi' Hj Hk) as Hv.
    cbv beta in Hv. apply IZR_le in Hv.
    set (v := IZR (tget 0%Z png i j k)) in *.
    set (D := tget 0%R (shade T) i j k) in *.
    replace (v / 255 / D * 255)%R with (v * / D)%R by (field; lra).
    assert (1 <= / D <= 100)%R as [H1 H2].
    { split.
      - rewrite <- Rinv_1 at 1. apply Rinv_le_contravar; lra.
      - replace 100%R with (/ (1 / 100))%R by (field; lra).
        apply Rinv_le_contravar; lra. }
    split; nra.
Qed.

Lemma main_never_darkens_witness :
  exists out s',
    main [[[200; 100; 50]%Z]] {| heap := []; log := [] |} = Returned (out, s') /\
    (100 <= tget 0%R out 0 0 1 <= 100 * 100)%R.
Proof.
  destruct (@main_never_darkens [[[200; 100; 50]%Z]] 1%nat 1%nat {| heap := []; log := [] |})
    as (out & s' & E & _ & H).
  - split; [reflexivity | repeat constructor].
  - lia.
  - lia.
  - repeat constructor; lia.
  - exists out, s'. split; [exact E |]. apply (H 0%nat 0%nat 1%nat); lia.
Defined.

(** X17. For an image with at least one pixel whose number of channels is
    neither 1 nor 3 (four for an RGBA file, two for grey with alpha), [main]
    raises ValueError: at the maximum over an empty channel axis or, after
    the refinement has run, at the division by the three-channel
    illumination. *)
Theorem main_rejects_other_channel_counts
  (png : list (list (list Z))) (hh ww cc : nat) (s : state) :
  shape3 hh ww cc png -> (0 < hh)%nat -> (0 < ww)%nat -> cc <> 1%nat -> cc <> 3%nat ->
  main png s = Raised ValueError.
Proof.
  intros Hs Hh Hw H1 H3.
  set (img := map (map (map (fun v => (IZR v / 255)%R))) png).
  assert (shape3 hh ww cc img) as Hi by (now apply shape3_map3).
  destruct (@shape3_nth _ hh ww cc img 0%nat 0%nat Hi Hh Hw) as [Hrow Hpix].
  pose proof Hi as [Hlen _].
  destruct (Nat.eq_dec cc 0) as [-> | Hc].
  - unfold main. cbv zeta. fold img. apply bind_raised. unfold lift.
    assert (np_max_axis2 img = Raised ValueError) as ->; [| reflexivity].
    unfold np_max_axis2.
    destruct img as [| r0 img']; [cbn in Hlen; lia |]. cbn [nth] in Hrow, Hpix.
    apply omap_raises_first.
    destruct r0 as [| p0 r0']; [cbn in Hrow; lia |]. cbn [nth] in Hpix.
    apply omap_raises_first.
    destruct p0; [reflexivity | discriminate].
  - destruct (@main_prefix png hh ww cc s Hs Hh Hw ltac:(lia)) as (T & s' & HT & _ & E).
    rewrite E. fold img. apply bind_raised. unfold lift.
    assert (image_div img (shade T) = Raised ValueError) as ->; [| reflexivity].
    pose proof (shade_shape HT) as Hg. pose proof Hg as [Hglen _].
    destruct (@shape3_nth _ hh ww 3%nat (shade T) 0%nat 0%nat Hg Hh Hw) as [Hgrow Hgpix].
    unfold image_div.
    apply (@broadcast_head_raises _ _ _ _ [] []); [congruence | lia |].
    apply (@broadcast_head_raises _ _ _ _ [] []); [congruence | lia |].
    apply broadcast_mismatch; lia.
Qed.

Lemma main_rejects_other_channel_counts_witness :
  main [[[200; 100; 50; 255]%Z]] {| heap := []; log := [] |} = Raised ValueError.
Proof.
  apply (@main_rejects_other_channel_counts _ 1%nat 1%nat 4%nat); try lia.
  split; [reflexivity | repeat constructor].
Defined.

(** ** What the weights depend on *)

Section WeightInvariance.
Local Open Scope R_scope.

Lemma shape_grid_map f g : shape (grid_map f g) = shape g.
Proof.
  unfold shape, grid_map. rewrite length_map.
  destruct g as [| r g]; [reflexivity |]. cbn [hd map]. now rewrite length_map.
Qed.

Lemma ones_like_grid_map f g : ones_like (grid_map f g) = ones_like g.
Proof. unfold ones_like. now rewrite shape_grid_map. Qed.



Lemma smoothness_weights_constant (n m : nat) c c' x x' K eps :
  (0 < n)%nat -> (0 < m)%nat ->
  smoothness_weights (tabulate (Z.of_nat n) (Z.of_nat m) (fun _ _ => c)) x K eps
  = smoothness_weights (tabulate (Z.of_nat n) (Z.of_nat m) (fun _ _ => c')) x' K eps.
Proof.
  intros Hn Hm. unfold smoothness_weights.
  rewrite !sobel_constant by assumption. unfold ones_like.
  now rewrite !(shape_rect (rect_tabulate n m _) Hn).
Qed.

End WeightInvariance.



(** X19. On constant maps the weights carry no information: for two
    constant maps of the same non-empty shape, with any values [c] and [c'],
    and any two directions, [compute_smoothness_weights] returns equal
    arrays (the kernel and [eps] being the same). *)
Theorem compute_smoothness_weights_on_constant_maps
  s s' L L' kernel kernel' Kg (c c' : R) (x x' : Z) (eps : R) (n m kh kw : nat) :
  nth_error (heap s) L
  = Some (Ndarray (tabulate (Z.of_nat n) (Z.of_nat m) (fun _ _ => c))) ->
  nth_error (heap s) kernel = Some (Ndarray Kg) ->
  nth_error (heap s') L'
  = Some (Ndarray (tabulate (Z.of_nat n) (Z.of_nat m) (fun _ _ => c'))) ->
  nth_error (heap s') kernel' = Some (Ndarray Kg) ->
  (0 < n)%nat -> (0 < m)%nat ->
  rect kh kw Kg -> (0 < kh)%nat -> (0 < kw)%nat ->
  (0 < eps)%R -> x = 1%Z \/ x = 0%Z -> x' = 1%Z \/ x' = 0%Z ->
  exists r t r' t' W,
    compute_smoothness_weights L x kernel eps s = Returned (r, t) /\
    compute_smoothness_weights L' x' kernel' eps s' = Returned (r', t') /\
    nth_error (heap t) r = Some (Ndarray W) /\
    nth_error (heap t') r' = Some (Ndarray W).
Proof.
  intros HL HK HL' HK' Hn Hm HKg Hkh Hkw He Hx Hx'.
  destruct (@compute_smoothness_weights_run s L kernel _ Kg x eps n m kh kw HL HK)
    as (new & r & E & Hr); try assumption; [apply rect_tabulate |].
  destruct (@compute_smoothness_weights_run s' L' kernel' _ Kg x' eps n m kh kw HL' HK')
    as (new' & r' & E' & Hr'); try assumption; [apply rect_tabulate |].
  rewrite (@smoothness_weights_constant n m c' c x' x) in Hr' by assumption.
  eexists r, _, r', _, _. split; [exact E |]. split; [exact E' |].
  split; [exact Hr | exact Hr'].
Qed.

Lemma compute_smoothness_weights_on_constant_maps_witness :
  let s := {| heap := [Ndarray [[1 / 2; 1 / 2]]; Ndarray [[1 / 4; 1 / 4]]; Ndarray [[1]]]%R;
              log := [] |} in
  exists r t r' t' W,
    compute_smoothness_weights 0%nat 1 2%nat default_eps s = Returned (r, t) /\
    compute_smoothness_weights 1%nat 0 2%nat default_eps s = Returned (r', t') /\
    nth_error (heap t) r = Some (Ndarray W) /\
    nth_error (heap t') r' = Some (Ndarray W).
Proof.
  intros s.
  apply (@compute_smoothness_weights_on_constant_maps
           s s 0%nat 1%nat 2%nat 2%nat [[1]]%R (1 / 2)%R (1 / 4)%R 1%Z 0%Z default_eps
           1%nat 2%nat 1%nat 1%nat);
    try reflexivity; try lia; try (unfold default_eps; lra).
  split; [reflexivity | repeat constructor].
Defined.
